(** * Infinite Heroes comic generator: the generation orchestration pipeline

    A shallow embedding of the orchestration code of [App] (the React
    component holding the whole pipeline): the safety/retry envelope, the beat
    generator, the image renderer with its fallback ladder, the page
    orchestrator and the batch/issue scheduler.

    Conventions of the embedding.
    - A JavaScript string is a [string] of UTF-8 bytes.  Pattern tests against
      ASCII patterns ([includes], the regular expressions of the source) are
      exact on such strings; [trim] and the [\s] class know the multi-byte
      encodings of the Unicode white space characters.
    - A thrown value is represented by what [String(e)] yields for it, since
      that text is all the source ever inspects: [new Error(m)] is
      ["Error: " +:+ m].
    - An [async] function is the state transformer obtained by running it to
      completion, no other task being interleaved at its suspension points.
      The outcome of every awaited model call, every [Math.random()] draw and
      every clock reading comes from an oracle indexed by a counter kept in the
      state, so that nothing is assumed about what the model answers.
    - Every function returns, besides its result and the new state, the list
      of events it emitted (model calls, console lines, delays, commits). *)

From Stdlib Require Import ZArith String Ascii List Floats Lia Permutation Sorted.
From stdpp Require Import base option list gmap sets strings pretty.

Set Warnings "-register-all,-inexact-float".

Open Scope string_scope.
Open Scope list_scope.
Open Scope Z_scope.
Open Scope stdpp_scope.

(** ** Strings *)

Module Str.

Definition chr (n : nat) : string := String (ascii_of_nat n) "".

(** The double quote, the line feed and the back-tick fence of the prompts. *)
Definition dquote : string := chr 34.
Definition newline : string := chr 10.

Definition code (c : ascii) : nat := nat_of_ascii c.

(** [String.prototype.includes]. *)
Fixpoint includes (s sub : string) : bool :=
  String.prefix sub s ||
  match s with
  | EmptyString => false
  | String _ s' => includes s' sub
  end.

Fixpoint drop (n : nat) (s : string) : string :=
  match n, s with
  | O, _ => s
  | S _, EmptyString => EmptyString
  | S n', String _ s' => drop n' s'
  end.

Fixpoint rev_onto (s acc : string) : string :=
  match s with
  | EmptyString => acc
  | String c s' => rev_onto s' (String c acc)
  end.

Definition rev (s : string) : string := rev_onto s "".

Fixpoint map (f : ascii -> ascii) (s : string) : string :=
  match s with
  | EmptyString => EmptyString
  | String c s' => String (f c) (map f s')
  end.

Fixpoint filter (f : ascii -> bool) (s : string) : string :=
  match s with
  | EmptyString => EmptyString
  | String c s' => if f c then String c (filter f s') else filter f s'
  end.

Definition lower (c : ascii) : ascii :=
  let n := code c in
  if (Nat.leb 65 n && Nat.leb n 90)%bool then ascii_of_nat (n + 32) else c.

Definition upper (c : ascii) : ascii :=
  let n := code c in
  if (Nat.leb 97 n && Nat.leb n 122)%bool then ascii_of_nat (n - 32) else c.

(** [toLowerCase] and [toUpperCase], exact on ASCII letters; other bytes are
    kept. *)
Definition toLowerCase : string -> string := map lower.
Definition toUpperCase : string -> string := map upper.

(** Case-insensitive prefix test against an ASCII pattern (the [i] flag). *)
Fixpoint prefix_ci (pat s : string) : bool :=
  match pat, s with
  | EmptyString, _ => true
  | String _ _, EmptyString => false
  | String a pat', String b s' =>
      if Ascii.eqb (lower a) (lower b) then prefix_ci pat' s' else false
  end.

(** [s.replace(/pat/g, rep)] for a literal, non-empty pattern: matches are
    taken left to right and do not overlap.  [skip] counts the bytes of the
    current match still to be dropped. *)
Fixpoint replaceAll_from (skip : nat) (pat rep s : string) : string :=
  match s with
  | EmptyString => EmptyString
  | String c s' =>
      match skip with
      | S k => replaceAll_from k pat rep s'
      | O =>
          if String.prefix pat s
          then rep +:+ replaceAll_from (String.length pat - 1) pat rep s'
          else String c (replaceAll_from O pat rep s')
      end
  end.

Definition replaceAll (pat rep s : string) : string := replaceAll_from O pat rep s.

(** [s.replace(/w1|w2|.../gi, rep)]: at each position the first alternative
    that matches, ignoring case, is taken. *)
Fixpoint first_match (alts : list string) (s : string) : option string :=
  match alts with
  | [] => None
  | w :: alts' => if prefix_ci w s then Some w else first_match alts' s
  end.

Fixpoint replaceWords_from (skip : nat) (alts : list string) (rep s : string) : string :=
  match s with
  | EmptyString => EmptyString
  | String c s' =>
      match skip with
      | S k => replaceWords_from k alts rep s'
      | O =>
          match first_match alts s with
          | Some w => rep +:+ replaceWords_from (String.length w - 1) alts rep s'
          | None => String c (replaceWords_from O alts rep s')
          end
      end
  end.

Definition replaceWords (alts : list string) (rep s : string) : string :=
  replaceWords_from O alts rep s.

(** White space of ECMAScript ([WhiteSpace] and [LineTerminator]) in UTF-8:
    the byte sequences of U+0009..U+000D, U+0020, U+00A0, U+1680,
    U+2000..U+200A, U+2028, U+2029, U+202F, U+205F, U+3000 and U+FEFF. *)
Definition ws_table : list (list nat) :=
  [[9]; [10]; [11]; [12]; [13]; [32]; [194; 160]; [225; 154; 128];
   [226; 128; 128]; [226; 128; 129]; [226; 128; 130]; [226; 128; 131];
   [226; 128; 132]; [226; 128; 133]; [226; 128; 134]; [226; 128; 135];
   [226; 128; 136]; [226; 128; 137]; [226; 128; 138]; [226; 128; 168];
   [226; 128; 169]; [226; 128; 175]; [226; 129; 159]; [227; 128; 128];
   [239; 187; 191]]%nat.

Fixpoint of_codes (l : list nat) : string :=
  match l with
  | [] => EmptyString
  | n :: l' => String (ascii_of_nat n) (of_codes l')
  end.

Fixpoint match_any (pats : list string) (s : string) : option nat :=
  match pats with
  | [] => None
  | p :: pats' => if String.prefix p s then Some (String.length p) else match_any pats' s
  end.

(** Length in bytes of the white space character [s] starts with, if any. *)
Definition ws_len (s : string) : option nat :=
  match_any (List.map of_codes ws_table) s.

(** The same for a reversed string, so for the character [s] ends with. *)
Definition ws_len_rev (s : string) : option nat :=
  match_any (List.map (fun l => of_codes (List.rev l)) ws_table) s.

Fixpoint strip (wl : string -> option nat) (fuel : nat) (s : string) : string :=
  match fuel with
  | O => s
  | S fuel' =>
      match wl s with
      | Some k => strip wl fuel' (drop k s)
      | None => s
      end
  end.

Definition trimStart (s : string) : string := strip ws_len (String.length s) s.
Definition trimEnd (s : string) : string :=
  rev (strip ws_len_rev (String.length s) (rev s)).

(** [String.prototype.trim]. *)
Definition trim (s : string) : string := trimEnd (trimStart s).

(** [\w] and the hyphen of the class [[\w\s\-]]. *)
Definition is_word (c : ascii) : bool :=
  let n := code c in
  ((Nat.leb 48 n && Nat.leb n 57) || (Nat.leb 65 n && Nat.leb n 90) ||
   (Nat.leb 97 n && Nat.leb n 122) || Nat.eqb n 95)%bool.

Definition class_len (s : string) : option nat :=
  match s with
  | EmptyString => None
  | String c _ =>
      if (is_word c || Nat.eqb (code c) 45)%bool then Some 1%nat else ws_len s
  end.

(** Number of bytes of the longest run of class characters [s] starts with. *)
Fixpoint class_run (fuel : nat) (s : string) : nat :=
  match fuel with
  | O => O
  | S fuel' =>
      match class_len s with
      | Some k => (k + class_run fuel' (drop k s))%nat
      | None => O
      end
  end.

(** [s.replace(/^[\w\s\-]+:\s*/i, '')].  No character of the class is a
    colon, so the greedy run either is followed by the colon or the pattern
    does not match at all. *)
Definition stripSpeakerLabel (s : string) : string :=
  let k := class_run (String.length s) s in
  match k, drop k s with
  | S _, String c rest =>
      if Nat.eqb (code c) 58 then trimStart rest else s
  | _, _ => s
  end.

(** Number of UTF-16 code units of a UTF-8 string: one per character, two for
    a character of four bytes. *)
Fixpoint utf16_length (s : string) : nat :=
  match s with
  | EmptyString => O
  | String c s' =>
      let n := code c in
      ((if (Nat.leb 128 n && Nat.ltb n 192)%bool then 0 else 1) +
       (if Nat.leb 240 n then 1 else 0) + utf16_length s')%nat
  end.

Definition char_bytes (c : ascii) : nat :=
  let n := code c in
  if Nat.ltb n 192 then 1%nat else if Nat.ltb n 224 then 2%nat
  else if Nat.ltb n 240 then 3%nat else 4%nat.

Fixpoint take (n : nat) (s : string) : string :=
  match n, s with
  | O, _ => EmptyString
  | S _, EmptyString => EmptyString
  | S n', String c s' => String c (take n' s')
  end.

(** [s.slice(0, n)]: the characters that fit in [n] UTF-16 code units.  A
    character of two code units cut in the middle is left out (the source
    keeps its first half, a lone surrogate, which no ASCII test can see). *)
Fixpoint slice0_fuel (fuel units : nat) (s : string) : string :=
  match fuel, s with
  | O, _ => EmptyString
  | _, EmptyString => EmptyString
  | S fuel', String c _ =>
      let b := char_bytes c in
      let u := if Nat.eqb b 4 then 2%nat else 1%nat in
      if Nat.leb u units
      then take b s +:+ slice0_fuel fuel' (units - u) (drop b s)
      else EmptyString
  end.

Definition slice0 (n : nat) (s : string) : string :=
  slice0_fuel (String.length s) n s.

(** [l.join(sep)]. *)
Fixpoint join (sep : string) (l : list string) : string :=
  match l with
  | [] => EmptyString
  | [x] => x
  | x :: l' => x +:+ sep +:+ join sep l'
  end.

(** Truthiness of a string. *)
Definition nonempty (s : string) : bool :=
  match s with EmptyString => false | String _ _ => true end.

(** [a || b] on strings. *)
Definition or_else (a b : string) : string := if nonempty a then a else b.

(** [s.split(' ')[0]]. *)
Fixpoint first_word (s : string) : string :=
  match s with
  | EmptyString => EmptyString
  | String c s' => if Nat.eqb (code c) 32 then EmptyString else String c (first_word s')
  end.

End Str.

(** ** JavaScript values, as [JSON.parse] yields them *)

Inductive jsval : Type :=
| JUndefined
| JNull
| JBool (b : bool)
| JNum (x : float)
| JStr (s : string)
| JArr (l : list jsval)
| JObj (kvs : list (string * jsval)).

(** [!!v]. *)
Definition truthy (v : jsval) : bool :=
  match v with
  | JUndefined | JNull => false
  | JBool b => b
  | JNum x => (negb (PrimFloat.eqb x 0) && PrimFloat.eqb x x)%bool
  | JStr s => Str.nonempty s
  | JArr _ | JObj _ => true
  end.

(** Own property [k] of an object literal; the last binding of a key wins. *)
Fixpoint lookup_key (k : string) (kvs : list (string * jsval)) : jsval :=
  match kvs with
  | [] => JUndefined
  | (k', v) :: kvs' =>
      match lookup_key k kvs' with
      | JUndefined => if String.eqb k k' then v else JUndefined
      | w => w
      end
  end.

(** ** Data model ([types.ts] is not part of the sources; the records follow
    the uses of their fields) *)

Record Persona := {
  base64 : string;
  mimeType : string;
  desc : string
}.

(** A beat as the pipeline holds it.  [scene] and [focus_char] are strings and
    [caption] and [dialogue] are either absent (any falsy value) or strings,
    because the code that builds a beat establishes just that; [choices] is
    whatever the model supplied. *)
Record Beat := {
  caption : option string;
  dialogue : option string;
  scene : string;
  focus_char : string;
  choices : jsval
}.

Inductive FaceType := cover | story | back_cover.

Record ComicFace := {
  id : string;
  type : FaceType;
  narrative : option Beat;
  face_choices : jsval;
  imageUrl : option string;
  isLoading : bool;
  pageIndex : option Z;
  isDecisionPage : option bool;
  resolvedChoice : option string
}.

(** [Partial<ComicFace>], with the fields [updateFaceState] is called with. *)
Record FaceUpdate := {
  u_narrative : option Beat;
  u_choices : option jsval;
  u_isDecisionPage : option bool;
  u_imageUrl : option string;
  u_isLoading : option bool;
  u_resolvedChoice : option string
}.

Definition no_update : FaceUpdate :=
  {| u_narrative := None; u_choices := None; u_isDecisionPage := None;
     u_imageUrl := None; u_isLoading := None; u_resolvedChoice := None |}.

(** [{ ...f, ...updates }]. *)
Definition merge_face (f : ComicFace) (u : FaceUpdate) : ComicFace :=
  {| id := id f;
     type := type f;
     narrative := match u_narrative u with Some b => Some b | None => narrative f end;
     face_choices := match u_choices u with Some c => c | None => face_choices f end;
     imageUrl := match u_imageUrl u with Some i => Some i | None => imageUrl f end;
     isLoading := match u_isLoading u with Some l => l | None => isLoading f end;
     pageIndex := pageIndex f;
     isDecisionPage :=
       match u_isDecisionPage u with Some d => Some d | None => isDecisionPage f end;
     resolvedChoice :=
       match u_resolvedChoice u with Some c => Some c | None => resolvedChoice f end |}.

(** [p.pageIndex || 0]. *)
Definition pageIndexOr0 (f : ComicFace) : Z :=
  match pageIndex f with Some i => i | None => 0 end.

(** ** The model boundary *)

Record InlineData := {
  i_data : option string;
  i_mimeType : option string
}.

Record Part := {
  p_inlineData : option InlineData;
  p_text : option string
}.

(** A candidate: [content?.parts] and [finishReason]. *)
Record Candidate := {
  c_parts : option (list Part);
  c_finishReason : option string
}.

Record Response := {
  r_candidates : option (list Candidate);
  r_text : option string
}.

(** How a call to [ai.models.generateContent] settles: it resolves, it rejects
    with a value whose [String()] is [e], or it is still pending when the
    deadline of [withTimeout] elapses. *)
Inductive Outcome :=
| Resolves (r : Response)
| Rejects (e : string)
| Pending.

Inductive ReqPart :=
| TextPart (s : string)
| ImagePart (mime data : string).

Record Request := {
  q_model : string;
  q_parts : list ReqPart;
  q_json : bool;
  q_aspectRatio : option string
}.

(** What a model call of the pipeline is for; the image renderer records
    the level of its ladder. *)
Inductive CallTag :=
| TagSummary
| TagBeat (pageNum : Z)
| TagPersona
| TagImage (retryLevel : Z).

(** What the pipeline does to the outside: a model call (with the purpose it
    was made for and how it settled), a line of the log feed, a console
    diagnostic, a [setTimeout] wait, an [alert], and a commit of
    [updateFaceState]. *)
Inductive Event :=
| EvCall (tag : CallTag) (q : Request) (o : Outcome)
| EvLog (msg : string)
| EvConsole (msg : string)
| EvDelay (ms : Z)
| EvAlert (msg : string)
| EvCommit (face : string) (u : FaceUpdate).

(** ** Session state *)

Inductive ApiStatus := idle | loading | success | error.

Record Settings := {
  hero : option Persona;
  friend : option Persona;
  selectedGenre : string;
  selectedLanguage : string;
  customPremise : string;
  storyTone : option string;
  richMode : bool;
  refStrength : Z
}.

Record Issue := {
  issueNumber : Z;
  isFinale : bool;
  previousSummary : string
}.

Record Ui := {
  apiStatus : ApiStatus;
  apiErrorMessage : option string;
  logs : list string;
  showApiKeyDialog : bool;
  currentSheetIndex : Z;
  isStarted : bool;
  showSetup : bool;
  isTransitioning : bool;
  isLaunching : bool
}.

(** The page collection, the in-flight guard and the history.  [historyRef]
    holds a reference into the store of arrays, because [historyRef.current]
    is passed around and updated in place. *)
Record Pages := {
  comicFaces : list ComicFace;
  generatingPages : gset Z;
  arrays : gmap nat (list ComicFace);
  historyRef : nat
}.

Record AppState := {
  settings : Settings;
  issue : Issue;
  ui : Ui;
  pages : Pages;
  clock : nat
}.

Definition with_settings (f : Settings -> Settings) (s : AppState) : AppState :=
  {| settings := f (settings s); issue := issue s; ui := ui s; pages := pages s;
     clock := clock s |}.

Definition with_issue (f : Issue -> Issue) (s : AppState) : AppState :=
  {| settings := settings s; issue := f (issue s); ui := ui s; pages := pages s;
     clock := clock s |}.

Definition with_ui (f : Ui -> Ui) (s : AppState) : AppState :=
  {| settings := settings s; issue := issue s; ui := f (ui s); pages := pages s;
     clock := clock s |}.

Definition with_pages (f : Pages -> Pages) (s : AppState) : AppState :=
  {| settings := settings s; issue := issue s; ui := ui s; pages := f (pages s);
     clock := clock s |}.

Definition with_clock (f : nat -> nat) (s : AppState) : AppState :=
  {| settings := settings s; issue := issue s; ui := ui s; pages := pages s;
     clock := f (clock s) |}.

Definition set_hero (v : option Persona) (g : Settings) : Settings :=
  {| hero := v; friend := friend g; selectedGenre := selectedGenre g;
     selectedLanguage := selectedLanguage g; customPremise := customPremise g;
     storyTone := storyTone g; richMode := richMode g; refStrength := refStrength g |}.

Definition set_friend (v : option Persona) (g : Settings) : Settings :=
  {| hero := hero g; friend := v; selectedGenre := selectedGenre g;
     selectedLanguage := selectedLanguage g; customPremise := customPremise g;
     storyTone := storyTone g; richMode := richMode g; refStrength := refStrength g |}.

Definition set_storyTone (v : option string) (g : Settings) : Settings :=
  {| hero := hero g; friend := friend g; selectedGenre := selectedGenre g;
     selectedLanguage := selectedLanguage g; customPremise := customPremise g;
     storyTone := v; richMode := richMode g; refStrength := refStrength g |}.

Definition set_issueNumber (v : Z) (i : Issue) : Issue :=
  {| issueNumber := v; isFinale := isFinale i; previousSummary := previousSummary i |}.

Definition set_isFinale (v : bool) (i : Issue) : Issue :=
  {| issueNumber := issueNumber i; isFinale := v; previousSummary := previousSummary i |}.

Definition set_previousSummary (v : string) (i : Issue) : Issue :=
  {| issueNumber := issueNumber i; isFinale := isFinale i; previousSummary := v |}.

Definition set_apiError (msg : string) (u : Ui) : Ui :=
  {| apiStatus := error; apiErrorMessage := Some msg; logs := logs u;
     showApiKeyDialog := showApiKeyDialog u; currentSheetIndex := currentSheetIndex u;
     isStarted := isStarted u; showSetup := showSetup u;
     isTransitioning := isTransitioning u; isLaunching := isLaunching u |}.

Definition set_apiStatus (v : ApiStatus) (u : Ui) : Ui :=
  {| apiStatus := v; apiErrorMessage := apiErrorMessage u; logs := logs u;
     showApiKeyDialog := showApiKeyDialog u; currentSheetIndex := currentSheetIndex u;
     isStarted := isStarted u; showSetup := showSetup u;
     isTransitioning := isTransitioning u; isLaunching := isLaunching u |}.

Definition set_logs (v : list string) (u : Ui) : Ui :=
  {| apiStatus := apiStatus u; apiErrorMessage := apiErrorMessage u; logs := v;
     showApiKeyDialog := showApiKeyDialog u; currentSheetIndex := currentSheetIndex u;
     isStarted := isStarted u; showSetup := showSetup u;
     isTransitioning := isTransitioning u; isLaunching := isLaunching u |}.

Definition set_showApiKeyDialog (v : bool) (u : Ui) : Ui :=
  {| apiStatus := apiStatus u; apiErrorMessage := apiErrorMessage u; logs := logs u;
     showApiKeyDialog := v; currentSheetIndex := currentSheetIndex u;
     isStarted := isStarted u; showSetup := showSetup u;
     isTransitioning := isTransitioning u; isLaunching := isLaunching u |}.

Definition set_currentSheetIndex (v : Z) (u : Ui) : Ui :=
  {| apiStatus := apiStatus u; apiErrorMessage := apiErrorMessage u; logs := logs u;
     showApiKeyDialog := showApiKeyDialog u; currentSheetIndex := v;
     isStarted := isStarted u; showSetup := showSetup u;
     isTransitioning := isTransitioning u; isLaunching := isLaunching u |}.

Definition set_isStarted (v : bool) (u : Ui) : Ui :=
  {| apiStatus := apiStatus u; apiErrorMessage := apiErrorMessage u; logs := logs u;
     showApiKeyDialog := showApiKeyDialog u; currentSheetIndex := currentSheetIndex u;
     isStarted := v; showSetup := showSetup u;
     isTransitioning := isTransitioning u; isLaunching := isLaunching u |}.

Definition set_showSetup (v : bool) (u : Ui) : Ui :=
  {| apiStatus := apiStatus u; apiErrorMessage := apiErrorMessage u; logs := logs u;
     showApiKeyDialog := showApiKeyDialog u; currentSheetIndex := currentSheetIndex u;
     isStarted := isStarted u; showSetup := v;
     isTransitioning := isTransitioning u; isLaunching := isLaunching u |}.

Definition set_isTransitioning (v : bool) (u : Ui) : Ui :=
  {| apiStatus := apiStatus u; apiErrorMessage := apiErrorMessage u; logs := logs u;
     showApiKeyDialog := showApiKeyDialog u; currentSheetIndex := currentSheetIndex u;
     isStarted := isStarted u; showSetup := showSetup u;
     isTransitioning := v; isLaunching := isLaunching u |}.

Definition set_isLaunching (v : bool) (u : Ui) : Ui :=
  {| apiStatus := apiStatus u; apiErrorMessage := apiErrorMessage u; logs := logs u;
     showApiKeyDialog := showApiKeyDialog u; currentSheetIndex := currentSheetIndex u;
     isStarted := isStarted u; showSetup := showSetup u;
     isTransitioning := isTransitioning u; isLaunching := v |}.

Definition set_comicFaces (v : list ComicFace) (p : Pages) : Pages :=
  {| comicFaces := v; generatingPages := generatingPages p; arrays := arrays p;
     historyRef := historyRef p |}.

Definition set_generatingPages (v : gset Z) (p : Pages) : Pages :=
  {| comicFaces := comicFaces p; generatingPages := v; arrays := arrays p;
     historyRef := historyRef p |}.

Definition set_arrays (v : gmap nat (list ComicFace)) (p : Pages) : Pages :=
  {| comicFaces := comicFaces p; generatingPages := generatingPages p; arrays := v;
     historyRef := historyRef p |}.

Definition set_historyRef (v : nat) (p : Pages) : Pages :=
  {| comicFaces := comicFaces p; generatingPages := generatingPages p;
     arrays := arrays p; historyRef := v |}.

(** The array a reference points to (a dangling reference reads as empty). *)
Definition array_at (s : AppState) (r : nat) : list ComicFace :=
  default [] (arrays (pages s) !! r).

(** [historyRef.current], as a value. *)
Definition history (s : AppState) : list ComicFace :=
  array_at s (historyRef (pages s)).

(** ** The monad of the pipeline: state, exceptions and emitted events *)

Inductive Result (A : Type) : Type :=
| Ok (a : A)
| Throw (e : string).
Arguments Ok {A} a.
Arguments Throw {A} e.

Definition M (A : Type) : Type := AppState -> Result A * AppState * list Event.

Definition ret {A} (a : A) : M A := fun s => (Ok a, s, []).

Definition bind {A B} (m : M A) (k : A -> M B) : M B :=
  fun s =>
    match m s with
    | (Ok a, s1, ev1) =>
        match k a s1 with
        | (r, s2, ev2) => (r, s2, ev1 ++ ev2)
        end
    | (Throw e, s1, ev1) => (Throw e, s1, ev1)
    end.

Definition throw {A} (e : string) : M A := fun s => (Throw e, s, []).

(** [try { m } catch (e) { h e }]. *)
Definition try_catch {A} (m : M A) (h : string -> M A) : M A :=
  fun s =>
    match m s with
    | (Ok a, s1, ev1) => (Ok a, s1, ev1)
    | (Throw e, s1, ev1) =>
        match h e s1 with
        | (r, s2, ev2) => (r, s2, ev1 ++ ev2)
        end
    end.

(** [try { m } finally { f }], for an [f] that does not throw. *)
Definition finally {A} (m : M A) (f : M unit) : M A :=
  fun s =>
    match m s with
    | (r, s1, ev1) =>
        match f s1 with
        | (_, s2, ev2) => (r, s2, ev1 ++ ev2)
        end
    end.

Definition get : M AppState := fun s => (Ok s, s, []).
Definition gets {A} (f : AppState -> A) : M A := fun s => (Ok (f s), s, []).
Definition modify (f : AppState -> AppState) : M unit := fun s => (Ok tt, f s, []).
Definition emit (e : Event) : M unit := fun s => (Ok tt, s, [e]).

(** The next oracle index. *)
Definition tick : M nat := fun s => (Ok (clock s), with_clock S s, []).

#[global] Instance M_ret : MRet M := @ret.
#[global] Instance M_bind : MBind M := fun A B k m => bind m k.

(** [for (const x of l) await body(x)]. *)
Fixpoint for_each {A} (l : list A) (body : A -> M unit) : M unit :=
  match l with
  | [] => ret tt
  | x :: l' => bind (body x) (fun _ => for_each l' body)
  end.

Definition result_of {A} (r : Result A * AppState * list Event) : Result A := r.1.1.
Definition state_of {A} (r : Result A * AppState * list Event) : AppState := r.1.2.
Definition events_of {A} (r : Result A * AppState * list Event) : list Event := r.2.

(** ** The pipeline *)

(** [new Error(m)], as [String()] shows it. *)
Definition Error_ (m : string) : string := "Error: " +:+ m.

Definition quoted (s : string) : string := Str.dquote +:+ s +:+ Str.dquote.

(** [`${v}`] for an optional number and an optional string. *)
Definition show_index (i : option Z) : string :=
  match i with Some n => pretty n | None => "undefined" end.

Definition show_opt (o : option string) : string :=
  match o with Some s => s | None => "undefined" end.

(** [o || d] and the truthiness of an optional string. *)
Definition opt_or (o : option string) (d : string) : string :=
  match o with Some s => Str.or_else s d | None => d end.

(** [!!o] for an optional object. *)
Definition opt_set {A} (o : option A) : bool :=
  match o with Some _ => true | None => false end.

Definition opt_truthy (o : option string) : bool :=
  match o with Some s => Str.nonempty s | None => false end.

Definition MODEL_V3 : string := "gemini-3-pro-image-preview".
Definition MODEL_IMAGE_GEN_NAME : string := MODEL_V3.
Definition MODEL_TEXT_NAME : string := MODEL_V3.
Definition API_TIMEOUT_MS : Z := 90000.

(** [Math.floor] of a double, when it is finite. *)
Definition floor_float (x : float) : option Z :=
  match Prim2SF x with
  | S754_zero _ => Some 0
  | S754_finite sgn m e =>
      let n := if sgn then Z.neg m else Z.pos m in
      Some (if 0 <=? e then n * 2 ^ e else n `div` 2 ^ (- e))
  | _ => None
  end.

(** [l[Math.floor(r * l.length)]]. *)
Definition pick {A} (r : float) (l : list A) : option A :=
  match floor_float (r * PrimFloat.of_uint63 (Uint63.of_Z (Z.of_nat (length l))))%float with
  | Some i => if 0 <=? i then l !! Z.to_nat i else None
  | None => None
  end.

(** [msg] names a credential or permission problem, as the three generators
    test it. *)
Definition isAuthMessage (msg : string) : bool :=
  Str.includes msg "API_KEY" || Str.includes msg "403" ||
  Str.includes msg "Permission denied".

(** The test of [handleAPIError] that opens the credential dialog. *)
Definition wantsKeyDialog (msg : string) : bool :=
  Str.includes msg "Requested entity was not found" ||
  Str.includes msg "API_KEY_INVALID" ||
  Str.includes (Str.toLowerCase msg) "permission denied".

Definition violentWords : list string :=
  ["fight"; "punch"; "kill"; "blood"; "attack"; "shoot"; "battle"; "war";
   "weapon"; "corpse"; "violence"; "injury"; "death"; "dead"].

(** [scene.replace(/fight|punch|...|dead/gi, "confrontation")]. *)
Definition softenScene (scene : string) : string :=
  Str.replaceWords violentWords "confrontation" scene.

Definition SAFE_MODE : string :=
  "SAFE MODE: Fictional illustration. Fantasy art. No photorealism. ".

Definition no_candidates (res : Response) : bool :=
  match r_candidates res with
  | None | Some [] => true
  | Some (_ :: _) => false
  end.

(** [parts?.find(p => p.inlineData)]. *)
Definition find_inline (ps : option (list Part)) : option InlineData :=
  match ps with
  | None => None
  | Some l =>
      match List.find (fun p => opt_set (p_inlineData p)) l with
      | Some p => p_inlineData p
      | None => None
      end
  end.

(** [parts?.find(p => p.text)]. *)
Definition find_text (ps : option (list Part)) : option string :=
  match ps with
  | None => None
  | Some l =>
      match List.find (fun p => opt_truthy (p_text p)) l with
      | Some p => p_text p
      | None => None
      end
  end.

(** [part?.inlineData?.data], when truthy. *)
Definition inline_payload (d : option InlineData) : option (InlineData * string) :=
  match d with
  | Some i =>
      match i_data i with
      | Some s => if Str.nonempty s then Some (i, s) else None
      | None => None
      end
  | None => None
  end.

Definition last15 (l : list string) : list string :=
  List.skipn (length l - 15) l.

Definition stub_beat (sc : string) : Beat :=
  {| caption := None; dialogue := None; scene := sc; focus_char := "other";
     choices := JArr [] |}.

Definition set_focus (fc : string) (b : Beat) : Beat :=
  {| caption := caption b; dialogue := dialogue b; scene := scene b;
     focus_char := fc; choices := choices b |}.

Definition new_face (i : string) (t : FaceType) (n : Z) : ComicFace :=
  {| id := i; type := t; narrative := None; face_choices := JArr [];
     imageUrl := None; isLoading := true; pageIndex := Some n;
     isDecisionPage := None; resolvedChoice := None |}.

Definition page_id (pageNum : Z) : string := "page-" +:+ pretty pageNum.

(** [arr.findIndex(f => f.id === id)]. *)
Fixpoint findIndex (i : string) (l : list ComicFace) : option nat :=
  match l with
  | [] => None
  | f :: l' => if String.eqb (id f) i then Some O else S <$> findIndex i l'
  end.

(** [Array.prototype.sort((a, b) => (a.pageIndex || 0) - (b.pageIndex || 0))]:
    the sort of ECMAScript is stable, so the sorted array is the one this
    insertion sort builds (a face goes before the later faces of equal key). *)
Fixpoint insert_face (f : ComicFace) (l : list ComicFace) : list ComicFace :=
  match l with
  | [] => [f]
  | g :: l' =>
      if pageIndexOr0 f <=? pageIndexOr0 g then f :: g :: l'
      else g :: insert_face f l'
  end.

Fixpoint sort_faces (l : list ComicFace) : list ComicFace :=
  match l with
  | [] => []
  | f :: l' => insert_face f (sort_faces l')
  end.

#[global] Instance Result_ret : MRet Result := @Ok.
#[global] Instance Result_bind : MBind Result :=
  fun A B k r => match r with Ok a => k a | Throw e => Throw e end.

(** A computation that may throw, run inside the pipeline. *)
Definition lift {A} (r : Result A) : M A :=
  match r with Ok a => ret a | Throw e => throw e end.

Definition TypeError_ (m : string) : string := "TypeError: " +:+ m.

Definition is_quote (c : ascii) : bool :=
  (Nat.eqb (Str.code c) 34 || Nat.eqb (Str.code c) 39)%bool.

(** The dialogue repair: the speaker label is stripped, then every double
    and single quote is removed, then the text is trimmed. *)
Definition cleanDialogue (s : string) : string :=
  Str.trim (Str.filter (fun c => negb (is_quote c)) (Str.stripSpeakerLabel s)).

(** The caption repair: the speaker label is stripped and the text trimmed. *)
Definition cleanCaption (s : string) : string :=
  Str.trim (Str.stripSpeakerLabel s).

(** [if (v) v = clean(v)]: a truthy value that is no string has no [replace]
    method. *)
Definition repair_text (field : string) (clean : string -> string) (v : jsval)
  : Result (option string) :=
  if truthy v then
    match v with
    | JStr s => Ok (Some (clean s))
    | _ => Throw (TypeError_ ("parsed." +:+ field +:+ ".replace is not a function"))
    end
  else Ok None.

Definition defaultChoices : jsval := JArr [JStr "Option A"; JStr "Option B"].

Definition focusChars : list string := ["hero"; "friend"; "other"].

Definition is_story (t : FaceType) : bool :=
  match t with story => true | _ => false end.

Definition is_cover (t : FaceType) : bool :=
  match t with cover => true | _ => false end.

Definition is_back_cover (t : FaceType) : bool :=
  match t with back_cover => true | _ => false end.

(** [h.narrative?.caption], [h.narrative?.dialogue], [h.narrative?.scene] and
    [h.narrative?.focus_char]. *)
Definition narrative_caption (h : ComicFace) : option string :=
  match narrative h with Some b => caption b | None => None end.

Definition narrative_dialogue (h : ComicFace) : option string :=
  match narrative h with Some b => dialogue b | None => None end.

Definition narrative_scene (h : ComicFace) : option string :=
  match narrative h with Some b => Some (scene b) | None => None end.

Definition narrative_focus (h : ComicFace) : option string :=
  match narrative h with Some b => Some (focus_char b) | None => None end.

Definition has_narrative (h : ComicFace) : bool :=
  match narrative h with Some _ => true | None => false end.

(** ** Tactics for running the monad *)

Ltac elem_cases H :=
  simpl in H;
  repeat (apply elem_of_cons in H as [H|H]; [try discriminate|]);
  try (by apply elem_of_nil in H).

Ltac msimpl :=
  cbv beta iota zeta delta
    [mbind M_bind mret M_ret bind ret try_catch finally gets modify emit throw tick
     lift get result_of state_of events_of fst snd].

Ltac ssimpl :=
  cbn [settings issue ui pages clock with_settings with_issue with_ui with_pages
       with_clock].

Ltac solve_next :=
  split;
  [ intros [x Hx]; first [discriminate Hx | split; [reflexivity | lia]]
  | intros [Ht Hl]; first [discriminate Ht | lia | (eexists; reflexivity)] ].

Section Pipeline.

(** *** What the pipeline takes from outside *)

(** The oracle: how the [n]-th model call settles, the [n]-th draw of
    [Math.random()], the wall clock text at step [n]. *)
Variable api : nat -> Outcome.
Variable random : nat -> float.
Variable localeTime : nat -> string.

(** [validateApiKey] of the [useApiKey] hook, which owns the dialog flag: from
    the oracle index and the flag, whether a key is there and the new flag. *)
Variable validateApiKey : nat -> bool -> bool * bool.

(** The JPEG data URL of the canvas [createPlaceholderImage] draws, by the
    text written on it. *)
Variable canvasDataURL : string -> string.

(** [JSON.parse]; a syntax error carries the text of the engine. *)
Variable JSON_parse : string -> Result jsval.

(** [v < 2] for a string, an array or an object [v], which the runtime first
    converts to a number (or throws). *)
Variable coerce_lt2 : jsval -> Result bool.

(** The layout constants and tables of [types.ts]. *)
Variables MAX_STORY_PAGES BACK_COVER_PAGE TOTAL_PAGES INITIAL_PAGES BATCH_SIZE : Z.
Variable DECISION_PAGES : list Z.
Variable TONES : list string.
Variable LANGUAGES : list (string * string).

(** *** Envelope and logging *)

(** [setLogs(prev => [...prev, `[${time}] ${msg}`].slice(-15))]. *)
Definition logged (msg : string) (s : AppState) : AppState :=
  with_ui (fun u =>
    set_logs (last15 (logs u ++ ["[" +:+ localeTime (clock s) +:+ "] " +:+ msg])) u) s.

Definition addLog (msg : string) : M unit :=
  emit (EvLog msg);;
  modify (logged msg).

Definition handleAPIError (e : string) : M unit :=
  let msg := e in
  emit (EvConsole ("API Error: " +:+ msg));;
  modify (with_ui (set_apiError msg));;
  addLog ("!! CRITICAL ERROR: " +:+ Str.slice0 40 msg +:+ "...");;
  if wantsKeyDialog msg
  then modify (with_ui (set_showApiKeyDialog true))
  else mret tt.

(** The state [handleAPIError] leaves. *)
Definition api_failed (e : string) (s : AppState) : AppState :=
  let s1 := logged ("!! CRITICAL ERROR: " +:+ Str.slice0 40 e +:+ "...")
              (with_ui (set_apiError e) s) in
  if wantsKeyDialog e then with_ui (set_showApiKeyDialog true) s1 else s1.

(** [ai.models.generateContent(q)]: the call is made and settles as the oracle
    says. *)
Definition generateContent (tag : CallTag) (q : Request) : M (CallTag * Outcome) :=
  n ← tick;
  emit (EvCall tag q (api n));;
  mret (tag, api n).

(** [withTimeout(promise, ms)]. *)
Definition withTimeout (p : CallTag * Outcome) (ms : Z) : M Response :=
  match p.2 with
  | Resolves r => mret r
  | Rejects e => throw e
  | Pending => throw (Error_ ("Timeout after " +:+ pretty ms +:+ "ms"))
  end.

Definition createPlaceholderImage (text : string) : string :=
  canvasDataURL (Str.toUpperCase text).

Definition langName_of (code : string) : string :=
  match List.find (fun l => String.eqb l.1 code) LANGUAGES with
  | Some l => Str.or_else l.2 "English"
  | None => "English"
  end.

(** *** Issue summary *)

Definition summary_line (h : ComicFace) : string :=
  "[Page " +:+ show_index (pageIndex h) +:+ "] " +:+
  opt_or (narrative_caption h) "" +:+ " " +:+
  opt_or (narrative_dialogue h) "" +:+ " (Scene: " +:+
  show_opt (narrative_scene h) +:+ ")".

Definition summary_text (hist : list ComicFace) : string :=
  Str.join " "
    (List.map summary_line
       (List.filter has_narrative hist)).

Definition generateSummary (hist : list ComicFace) : M string :=
  addLog "Archiving narrative thread...";;
  let text := summary_text hist in
  if negb (Str.nonempty text) then mret "The story begins."
  else
    try_catch
      (p ← generateContent TagSummary
             {| q_model := MODEL_TEXT_NAME;
                q_parts := [TextPart ("Summarize the events of this comic issue in 3 sentences. Focus on the ending cliffhanger or resolution. TEXT: " +:+ text)];
                q_json := false; q_aspectRatio := None |};
       res ← withTimeout p 20000;
       mret (opt_or (r_text res) "To be continued..."))
      (fun e =>
         emit (EvConsole ("Summary generation failed " +:+ e));;
         mret "The story continues...").

(** *** Beat generator *)

(** The filter of [relevantHistory]. *)
Definition is_relevant (pageNum : Z) (p : ComicFace) : bool :=
  is_story (type p) && has_narrative p && (pageIndexOr0 p <? pageNum).

(** [arr.filter(f)] allocates a new array and leaves [arr] alone. *)
Definition array_filter (f : ComicFace -> bool) (r : nat) : M nat :=
  fun s =>
    let r' := fresh (dom (arrays (pages s))) in
    (Ok r',
     with_pages (fun p => set_arrays (<[r' := List.filter f (array_at s r)]> (arrays p)) p) s,
     []).

(** [arr.sort(cmp)] sorts [arr] in place and returns it. *)
Definition array_sort (r : nat) : M nat :=
  fun s =>
    (Ok r,
     with_pages (fun p => set_arrays (<[r := sort_faces (array_at s r)]> (arrays p)) p) s,
     []).

(** [history.filter(...).sort(...)]: a reference to the new, sorted array. *)
Definition relevantHistory (history : nat) (pageNum : Z) : M nat :=
  r ← array_filter (is_relevant pageNum) history;
  array_sort r.

Definition history_line (p : ComicFace) : string :=
  "[Page " +:+ show_index (pageIndex p) +:+ "] [Focus: " +:+
  show_opt (narrative_focus p) +:+ "] (Caption: " +:+
  quoted (opt_or (narrative_caption p) "") +:+ ") (Dialogue: " +:+
  quoted (opt_or (narrative_dialogue p) "") +:+ ") (Scene: " +:+
  show_opt (narrative_scene p) +:+ ") " +:+
  (if opt_truthy (resolvedChoice p)
   then "-> USER CHOICE: " +:+ quoted (show_opt (resolvedChoice p))
   else "").

Definition historyText (rel : list ComicFace) : string :=
  Str.join Str.newline (List.map history_line rel).

Definition coreDriver (g : Settings) : string :=
  if String.eqb (selectedGenre g) "Custom"
  then "STORY PREMISE: " +:+
       Str.or_else (customPremise g) "A totally unique, unpredictable adventure" +:+
       ". (Follow this premise strictly over standard genre tropes)."
  else "GENRE: " +:+ selectedGenre g +:+ ". TONE: " +:+ show_opt (storyTone g) +:+ ".".

Definition storyContext (i : Issue) (rel : list ComicFace) : string :=
  (if (1 <? issueNumber i) && Str.nonempty (previousSummary i)
   then "PREVIOUS ISSUES RECAP: " +:+ previousSummary i +:+ Str.newline
   else "") +:+
  "CURRENT ISSUE (" +:+ pretty (issueNumber i) +:+ "): " +:+
  Str.or_else (historyText rel) "Start of this issue.".

Definition guardrails : string :=
  Str.join Str.newline
    [ "";
      "    NEGATIVE CONSTRAINTS:";
      "    1. UNLESS GENRE IS " +:+ quoted "Dark Sci-Fi" +:+ " OR " +:+
        quoted "Superhero Action" +:+ " OR " +:+ quoted "Custom" +:+
        ": DO NOT use technical jargon like " +:+ quoted "Quantum" +:+ ", " +:+
        quoted "Timeline" +:+ ", " +:+ quoted "Portal" +:+ ", " +:+
        quoted "Multiverse" +:+ ", or " +:+ quoted "Singularity" +:+ ".";
      "    2. IF GENRE IS " +:+ quoted "Teen Drama" +:+ " OR " +:+
        quoted "Lighthearted Comedy" +:+ ": The " +:+ quoted "stakes" +:+
        " must be SOCIAL, EMOTIONAL, or PERSONAL (e.g., a rumor, a competition, a broken promise, being late, embarrassing oneself). Do NOT make it life-or-death. Keep it grounded.";
      "    3. Avoid " +:+ quoted "The artifact" +:+ " or " +:+
        quoted "The device" +:+ " unless established earlier.";
      "    " ].

(** The narrative-stage part of the instruction. *)
Definition stageInstruction (finale isFinalPage isDecisionPage : bool) (pageNum : Z)
  : string :=
  if isFinalPage then
    if finale
    then " FINAL PAGE OF THE SERIES. CONCLUSIVE ENDING. End with 'THE END'. Do NOT leave a cliffhanger."
    else " FINAL PAGE OF THIS ISSUE. KARMIC CLIFFHANGER REQUIRED. Text must end with 'TO BE CONTINUED...' (or localized equivalent)."
  else if isDecisionPage then
    " End with a PSYCHOLOGICAL choice about VALUES, RELATIONSHIPS, or RISK. (e.g., Truth vs. Safety, Forgive vs. Avenge). The options must NOT be simple physical actions like 'Go Left'."
  else if pageNum =? 1 then
    if finale
    then " THE BEGINNING OF THE END. Establish the final conflict immediately."
    else " INCITING INCIDENT. An event disrupts the status quo. Establish the genre's intended mood."
  else if pageNum <=? 4 then
    " RISING ACTION. The heroes engage with the new situation. Focus on dialogue, character dynamics, and initial challenges."
  else if pageNum <=? 8 then
    " COMPLICATION. A twist occurs! A secret is revealed, a misunderstanding deepens, or the path is blocked."
  else " CLIMAX. The confrontation with the main conflict.".

Definition instruction (g : Settings) (i : Issue) (langName : string)
    (isFinalPage isDecisionPage : bool) (pageNum : Z) : string :=
  "Continue the story. ALL OUTPUT TEXT (Captions, Dialogue, Choices) MUST BE IN " +:+
  Str.toUpperCase langName +:+ ". " +:+ coreDriver g +:+ " " +:+ guardrails +:+
  (if isFinale i
   then " IMPORTANT: THIS IS THE GRAND FINALE ISSUE. You must resolve all major plot lines."
   else "") +:+
  (if richMode g
   then " RICH/NOVEL MODE ENABLED. Prioritize deeper character thoughts, descriptive captions, and meaningful dialogue exchanges over short punchlines."
   else "") +:+
  stageInstruction (isFinale i) isFinalPage isDecisionPage pageNum.

Definition beatPrompt (g : Settings) (i : Issue) (langName friendInstruction : string)
    (rel : list ComicFace) (isFinalPage isDecisionPage : bool) (pageNum : Z) : string :=
  let capLimit := if richMode g
    then "max 35 words. Detailed narration or internal monologue" else "max 15 words" in
  let diaLimit := if richMode g
    then "max 30 words. Rich, character-driven speech" else "max 12 words" in
  Str.join Str.newline
    [ "";
      "You are writing a comic book script. PAGE " +:+ pretty pageNum +:+ " of " +:+
        pretty MAX_STORY_PAGES +:+ ". ISSUE #" +:+ pretty (issueNumber i) +:+ ".";
      "TARGET LANGUAGE FOR TEXT: " +:+ langName +:+
        " (CRITICAL: CAPTIONS, DIALOGUE, CHOICES MUST BE IN THIS LANGUAGE).";
      coreDriver g;
      "";
      "CHARACTERS:";
      "- HERO: Active.";
      "- CO-STAR: " +:+ friendInstruction;
      "";
      "CONTEXT:";
      storyContext i rel;
      "";
      "RULES:";
      "1. NO REPETITION. Do not use the same captions or dialogue from previous pages.";
      "2. IF CO-STAR IS ACTIVE, THEY MUST APPEAR FREQUENTLY.";
      "3. VARIETY. If page " +:+ pretty (pageNum - 1) +:+
        " was an action shot, make this one a reaction or wide shot.";
      "4. LANGUAGE: All user-facing text MUST be in " +:+ langName +:+ ".";
      "5. Avoid saying " +:+ quoted "CO-star" +:+ " and " +:+ quoted "hero" +:+
        " in the text captions. Use names if established, or generic descriptors.";
      "";
      "INSTRUCTION: " +:+ instruction g i langName isFinalPage isDecisionPage pageNum;
      "";
      "OUTPUT STRICT JSON ONLY (No markdown formatting):";
      "{";
      "  " +:+ quoted "caption" +:+ ": " +:+
        quoted ("Unique narrator text in " +:+ langName +:+ ". (" +:+ capLimit +:+ ").") +:+ ",";
      "  " +:+ quoted "dialogue" +:+ ": " +:+
        quoted ("Unique speech in " +:+ langName +:+ ". (" +:+ diaLimit +:+ "). Optional.") +:+ ",";
      "  " +:+ quoted "scene" +:+ ": " +:+
        quoted "Vivid visual description (ALWAYS IN ENGLISH for the artist model). MUST mention 'HERO' or 'CO-STAR' if they are present." +:+ ",";
      "  " +:+ quoted "focus_char" +:+ ": " +:+ quoted "hero" +:+ " OR " +:+
        quoted "friend" +:+ " OR " +:+ quoted "other" +:+ ",";
      "  " +:+ quoted "choices" +:+ ": [" +:+ quoted ("Option A in " +:+ langName) +:+
        ", " +:+ quoted ("Option B in " +:+ langName) +:+ "] (Only if decision page)";
      "}";
      "" ].

(** [v < 2]. *)
Definition js_lt2 (v : jsval) : Result bool :=
  match v with
  | JUndefined => Ok false
  | JNull | JBool _ => Ok true
  | JNum x => Ok (PrimFloat.ltb x 2)
  | _ => coerce_lt2 v
  end.

(** [c.length < 2] for a truthy [c]. *)
Definition length_lt2 (c : jsval) : Result bool :=
  match c with
  | JArr l => Ok (Nat.ltb (length l) 2)
  | JStr s => Ok (Nat.ltb (Str.utf16_length s) 2)
  | JObj kvs => js_lt2 (lookup_key "length" kvs)
  | _ => Ok false
  end.

Definition defaultScene (genre : string) : string :=
  "A dramatic scene in the style of " +:+ genre +:+
  ". The characters react to the situation.".

(** The own properties of a parsed value that the repair can see: those of
    an object; an array has none of the names looked up. *)
Definition props_of (parsed : jsval) : list (string * jsval) :=
  match parsed with JObj kvs => kvs | _ => [] end.

(** The defensive repair of the parsed response, up to [return parsed as
    Beat].  Reading a property of [null] throws; a primitive has none of the
    properties, and the module being strict code, setting one on it throws
    (at the latest where [focus_char] is forced); an array has none of them
    either and takes them like an object. *)
Definition repairBeat (genre : string) (isDecisionPage isFinalPage : bool)
    (parsed : jsval) : Result Beat :=
  match parsed with
  | JUndefined | JNull =>
      Throw (TypeError_ "Cannot read properties of null (reading 'dialogue')")
  | JBool _ | JNum _ | JStr _ =>
      Throw (TypeError_ "Cannot create property on a primitive value")
  | JArr _ | JObj _ =>
      let kvs := props_of parsed in
      d ← repair_text "dialogue" cleanDialogue (lookup_key "dialogue" kvs);
      c ← repair_text "caption" cleanCaption (lookup_key "caption" kvs);
      let ch0 := if isDecisionPage then lookup_key "choices" kvs else JArr [] in
      ch ← (if isDecisionPage && negb isFinalPage then
              if negb (truthy ch0) then Ok defaultChoices
              else short ← length_lt2 ch0;
                   Ok (if short : bool then defaultChoices else ch0)
            else Ok ch0);
      let fc := match lookup_key "focus_char" kvs with
                | JStr s => if bool_decide (s ∈ focusChars) then s else "hero"
                | _ => "hero"
                end in
      let sc := match lookup_key "scene" kvs with
                | JStr s => if Str.nonempty s then s else defaultScene genre
                | _ => defaultScene genre
                end in
      Ok {| caption := c; dialogue := d; scene := sc; focus_char := fc; choices := ch |}
  end.

(** The beat of the [catch] branch. *)
Definition fallbackBeat (pageNum : Z) : Beat :=
  {| caption := Some (if pageNum =? 1 then "It began..." else "...");
     dialogue := None;
     scene := "Generic scene for page " +:+ pretty pageNum +:+ ".";
     focus_char := "hero";
     choices := JArr [] |}.

(** [res.text || "{}"] without its code fences, trimmed. *)
Definition rawText (res : Response) : string :=
  Str.trim (Str.replaceAll "```" "" (Str.replaceAll "```json" "" (opt_or (r_text res) "{}"))).

(** The [catch] block of [generateBeat]. *)
Definition beatFailure (pageNum : Z) (e : string) : M Beat :=
  emit (EvConsole ("Beat generation failed " +:+ e));;
  (if isAuthMessage e then handleAPIError e
   else addLog ("!! Script Gen Failed for Page " +:+ pretty pageNum +:+
                ". Using default."));;
  mret (fallbackBeat pageNum).

(** What the prompt says of the co-star, with the draw that may force the
    focus on them. *)
Definition coStarInstruction (co : option Persona) (lastFocus : string) : M string :=
  if opt_set co then
    if negb (String.eqb lastFocus "friend") then
      n ← tick;
      mret ("ACTIVE and PRESENT (User Provided)." +:+
            (if PrimFloat.ltb 0.4 (random n)
             then " MANDATORY: FOCUS ON THE CO-STAR FOR THIS PANEL."
             else " Ensure they are woven into the scene even if not the main focus."))
    else mret ("ACTIVE and PRESENT (User Provided)." +:+
               " Ensure they are woven into the scene even if not the main focus.")
  else mret "Not yet introduced.".

(** [relevantHistory[relevantHistory.length - 1]?.narrative?.focus_char ||
    'none']. *)
Definition lastFocus_of (rel : list ComicFace) : string :=
  match List.last (List.map Some rel) None with
  | Some p => opt_or (narrative_focus p) "none"
  | None => "none"
  end.

(** The [try] block of [generateBeat]: the call, the parse and the repair. *)
Definition requestBeat (genre prompt : string) (pageNum : Z)
    (isDecisionPage isFinalPage : bool) : M Beat :=
  p ← generateContent (TagBeat pageNum)
         {| q_model := MODEL_TEXT_NAME; q_parts := [TextPart prompt];
            q_json := true; q_aspectRatio := None |};
  res ← withTimeout p 30000;
  parsed ← lift (JSON_parse (rawText res));
  beat ← lift (repairBeat genre isDecisionPage isFinalPage parsed);
  addLog ("Script for Page " +:+ pretty pageNum +:+ " finalized.");;
  mret beat.

Definition generateBeat (history : nat) (isRightPage : bool) (pageNum : Z)
    (isDecisionPage : bool) : M Beat :=
  h ← gets (fun s => hero (settings s));
  if negb (opt_set h) then throw (Error_ "No Hero") else
  addLog ("Drafting narrative arc for Page " +:+ pretty pageNum +:+ "...");;
  let isFinalPage := pageNum =? MAX_STORY_PAGES in
  g ← gets settings;
  i ← gets issue;
  let langName := langName_of (selectedLanguage g) in
  r ← relevantHistory history pageNum;
  rel ← gets (fun s => array_at s r);
  friendInstruction ← coStarInstruction (friend g) (lastFocus_of rel);
  let prompt :=
    beatPrompt g i langName friendInstruction rel isFinalPage isDecisionPage pageNum in
  try_catch
    (requestBeat (selectedGenre g) prompt pageNum isDecisionPage isFinalPage)
    (beatFailure pageNum).

(** *** Persona synthesizer *)

(** The [catch] block of [generatePersona], which throws the error again. *)
Definition personaFailure (e : string) : M Persona :=
  (if isAuthMessage e then handleAPIError e
   else emit (EvConsole ("Persona Gen Failed " +:+ e)));;
  throw e.

Definition generatePersona (description : string) : M Persona :=
  genre ← gets (fun s => selectedGenre (settings s));
  let style := if String.eqb genre "Custom"
               then "Modern American comic book art" else genre +:+ " comic" in
  addLog ("Synthesizing character design: " +:+ description +:+ "...");;
  try_catch
    (p ← generateContent TagPersona
           {| q_model := MODEL_IMAGE_GEN_NAME;
              q_parts := [TextPart ("STYLE: Masterpiece " +:+ style +:+
                " character sheet, detailed ink, neutral background. FULL BODY. Character: " +:+
                description)];
              q_json := false; q_aspectRatio := Some "1:1" |};
     res ← withTimeout p 45000;
     let part :=
       match r_candidates res with
       | Some (c :: _) => find_inline (c_parts c)
       | _ => None
       end in
     match inline_payload part with
     | Some (i, d) =>
         addLog "Character materialized successfully.";;
         mret {| base64 := d; desc := description;
                 mimeType := opt_or (i_mimeType i) "image/jpeg" |}
     | None => throw (Error_ "Failed")
     end)
    personaFailure.

(** *** Image renderer *)

Definition image_label (t : FaceType) (pageNum : Z) : string :=
  match t with
  | cover => "Cover"
  | back_cover => "Back Cover"
  | story => "Page " +:+ pretty pageNum
  end.

(** [beat.scene || ...]. *)
Definition originalScene (g : Settings) (beat : Beat) : string :=
  Str.or_else (scene beat) ("A scene featuring the " +:+ selectedGenre g +:+ " style").

Definition buildPrompt (g : Settings) (i : Issue) (beat : Beat) (t : FaceType)
    (retryLevel : Z) : string :=
  let styleEra := if String.eqb (selectedGenre g) "Custom"
                  then "Modern American" else selectedGenre g in
  "STYLE: " +:+ styleEra +:+ " comic book art. Fictional Character Art. " +:+
  (if 0 <? retryLevel then SAFE_MODE else "") +:+
  match t with
  | cover =>
      let langName := langName_of (selectedLanguage g) in
      let title := if isFinale i then "THE FINALE"
                   else "ISSUE #" +:+ pretty (issueNumber i) in
      "TYPE: Comic Book Cover. TITLE: " +:+ quoted ("INFINITE HEROES " +:+ title) +:+
      " (OR LOCALIZED TRANSLATION IN " +:+ Str.toUpperCase langName +:+ "). " +:+
      (if 0 <? retryLevel
       then "Main visual: Character Portrait of [HERO]. Standing Pose. Masterpiece."
       else "Main visual: Dynamic action shot of [HERO].")
  | back_cover =>
      let nextText := if isFinale i then "THE END" else "NEXT ISSUE SOON" in
      "TYPE: Comic Back Cover. FULL PAGE VERTICAL ART. Dramatic teaser. Text: " +:+
      quoted nextText +:+ "."
  | story =>
      "TYPE: Vertical comic panel. " +:+
      (if retryLevel =? 2
       then "SCENE: " +:+ softenScene (originalScene g beat) +:+ ". "
       else
         let sceneToUse := if retryLevel =? 1
                           then softenScene (originalScene g beat)
                           else originalScene g beat in
         "SCENE: " +:+ sceneToUse +:+ ". ") +:+
      "INSTRUCTIONS: Create a fictional comic book illustration. Artistic interpretation. " +:+
      (if opt_truthy (caption beat)
       then " INCLUDE CAPTION BOX: " +:+ quoted (show_opt (caption beat)) else "") +:+
      (if opt_truthy (dialogue beat)
       then " INCLUDE SPEECH BUBBLE: " +:+ quoted (show_opt (dialogue beat)) else "")
  end.

(** The parts a persona with a truthy [base64] contributes. *)
Definition reference_parts (title : string) (p : option Persona) : list ReqPart :=
  match p with
  | Some x =>
      if Str.nonempty (base64 x)
      then [TextPart title; ImagePart (mimeType x) (base64 x)] else []
  | None => []
  end.

Definition usageInstruction (g : Settings) (retryLevel : Z) : string :=
  (if refStrength g =? 3 then
     " (Use these REFERENCES strictly. Maintain character consistency and facial features as much as possible while applying the comic style)."
   else if refStrength g =? 1 then
     " (Loosely inspired by the references. Create a new character with similar costume vibes but unique features)."
   else
     " (Use these COSTUME REFERENCES to design the fictional characters. Do NOT generate a photorealistic replica. Stylize heavily).") +:+
  (if 0 <? retryLevel
   then " TRANSFORM THE CHARACTER: Alter features slightly to fit the artistic style. Fictionalize the identity."
   else "").

Definition persona_desc (label : string) (p : option Persona) : string :=
  match p with
  | Some x => if Str.nonempty (desc x) then " " +:+ label +:+ ": " +:+ desc x +:+ "." else ""
  | None => ""
  end.

(** The request [executeGen] sends. *)
Definition imageRequest (g : Settings) (i : Issue) (beat : Beat) (t : FaceType)
    (useRefs : bool) (retryLevel : Z) : Request :=
  let shouldIncludeRefs := useRefs && (retryLevel <? 3) in
  {| q_model := MODEL_IMAGE_GEN_NAME;
     q_parts :=
       if shouldIncludeRefs then
         reference_parts "REFERENCE CHARACTER 1 (HERO) - FICTIONAL CHARACTER SHEET:" (hero g) ++
         reference_parts "REFERENCE CHARACTER 2 (CO-STAR) - FICTIONAL CHARACTER SHEET:" (friend g) ++
         [TextPart (buildPrompt g i beat t retryLevel +:+ usageInstruction g retryLevel)]
       else
         [TextPart (buildPrompt g i beat t retryLevel +:+
                    persona_desc "HERO" (hero g) +:+ persona_desc "CO-STAR" (friend g) +:+
                    " Fictional characters. Generic superhero features. High contrast comic art.")];
     q_json := false;
     q_aspectRatio := Some "2:3" |}.

Definition executeGen (beat : Beat) (t : FaceType) (useRefs : bool) (retryLevel : Z)
  : M Response :=
  g ← gets settings;
  i ← gets issue;
  p ← generateContent (TagImage retryLevel) (imageRequest g i beat t useRefs retryLevel);
  withTimeout p API_TIMEOUT_MS.

Definition isSafetyBlock (e : string) : bool :=
  let msg := e in
  Str.includes msg "Safety Block" || Str.includes msg "Refused" ||
  Str.includes msg "SAFETY" || Str.includes msg "OTHER".

(** [!!heroRef.current?.base64]. *)
Definition heroHasImage : M bool :=
  gets (fun s => match hero (settings s) with
                 | Some x => Str.nonempty (base64 x)
                 | None => false
                 end).

(** One guarded attempt of the ladder: the call, then the test for an empty
    candidate list. *)
Definition attempt (beat : Beat) (t : FaceType) (retryLevel : Z) : M Response :=
  useRefs ← heroHasImage;
  res ← executeGen beat t useRefs retryLevel;
  if no_candidates res then throw (Error_ "Safety Block: Content Filtered")
  else mret res.

(** The nested [try]/[catch] of the four attempts. *)
Definition ladder (beat : Beat) (t : FaceType) : M Response :=
  try_catch (attempt beat t 0) (fun e =>
    if isSafetyBlock e then
      emit (EvConsole ("Retrying with safe prompt (Level 1)... " +:+ e));;
      addLog "Scene intense. Softening visuals...";;
      try_catch (attempt beat t 1) (fun e2 =>
        if isSafetyBlock e2 then
          emit (EvConsole ("Retrying with stylized prompt (Level 2)... " +:+ e2));;
          addLog "Retrying with stronger styling...";;
          try_catch (attempt beat t 2) (fun e3 =>
            if isSafetyBlock e3 then
              emit (EvConsole ("Retrying without references (Level 3)... " +:+ e3));;
              addLog "Visual link unstable. Using textual reconstruction...";;
              executeGen beat t false 3
            else throw e3)
        else throw e2)
    else throw e).

(** The inspection of the response the ladder ended with. *)
Definition inspect (res : Response) : Result string :=
  match r_candidates res with
  | None | Some [] => Throw (Error_ "Safety Block: Content Filtered")
  | Some (c :: _) =>
      match inline_payload (find_inline (c_parts c)) with
      | Some (i, d) => Ok ("data:" +:+ show_opt (i_mimeType i) +:+ ";base64," +:+ d)
      | None =>
          match find_text (c_parts c) with
          | Some txt => Throw (Error_ ("Model Refused: " +:+ Str.slice0 100 txt +:+ "..."))
          | None =>
              if opt_truthy (c_finishReason c) &&
                 negb (String.eqb (show_opt (c_finishReason c)) "STOP")
              then Throw (Error_ ("Generation stopped: " +:+ show_opt (c_finishReason c)))
              else Throw (Error_ "No image data returned from API (Unknown Structure)")
          end
      end
  end.

(** The [catch] block of [generateImage]. *)
Definition imageFailure (label : string) (e : string) : M string :=
  let msg := e in
  if isAuthMessage msg then
    emit (EvConsole ("Critical Auth Error " +:+ e));;
    handleAPIError e;;
    mret (createPlaceholderImage "AUTH ERROR")
  else if Str.includes msg "Safety Block" || Str.includes msg "Refused" ||
          Str.includes msg "SAFETY" then
    emit (EvConsole ("Safety/Filter triggered for " +:+ label +:+ ": " +:+ msg));;
    addLog ("!! Content Filtered for " +:+ label);;
    mret (createPlaceholderImage "CONTENT FILTERED")
  else
    emit (EvConsole ("Image Gen Error " +:+ e));;
    addLog ("!! Image Gen Failed for " +:+ label +:+ ": " +:+ Str.slice0 30 msg +:+ "...");;
    mret (createPlaceholderImage "IMAGE GEN FAILED").

Definition generateImage (beat : Beat) (t : FaceType) (pageNum : Z) : M string :=
  let label := image_label t pageNum in
  addLog ("Rendering visual assets for " +:+ label +:+ "...");;
  try_catch
    (res ← ladder beat t;
     url ← lift (inspect res);
     addLog (label +:+ " successfully inked.");;
     mret url)
    (imageFailure label).

(** *** Page orchestrator *)

(** [historyRef.current[idx] = { ...historyRef.current[idx], ...updates }]
    for the first entry of that id, in place. *)
Definition update_history (i : string) (u : FaceUpdate) (p : Pages) : Pages :=
  let arr := default [] (arrays p !! historyRef p) in
  match findIndex i arr with
  | Some idx =>
      match arr !! idx with
      | Some f => set_arrays (<[historyRef p := <[idx := merge_face f u]> arr]> (arrays p)) p
      | None => p
      end
  | None => p
  end.

Definition updateFaceState (i : string) (u : FaceUpdate) : M unit :=
  emit (EvCommit i u);;
  modify (with_pages (fun p =>
    set_comicFaces
      (List.map (fun f => if String.eqb (id f) i then merge_face f u else f) (comicFaces p)) p));;
  modify (with_pages (update_history i u)).

Definition beat_update (beat : Beat) (isDecision : bool) : FaceUpdate :=
  {| u_narrative := Some beat; u_choices := Some (choices beat);
     u_isDecisionPage := Some isDecision; u_imageUrl := None; u_isLoading := None;
     u_resolvedChoice := None |}.

Definition image_update (url : string) : FaceUpdate :=
  {| u_narrative := None; u_choices := None; u_isDecisionPage := None;
     u_imageUrl := Some url; u_isLoading := Some false; u_resolvedChoice := None |}.

(** The beat a page starts from: the stub of the cover, the stub of the back
    cover, or what the beat generator returns. *)
Definition page_beat (pageNum : Z) (t : FaceType) (isDecision : bool) : M Beat :=
  match t with
  | cover => mret (stub_beat "")
  | back_cover => mret (stub_beat "Thematic teaser image")
  | story =>
      h ← gets (fun s => historyRef (pages s));
      generateBeat h (Z.rem pageNum 2 =? 0) pageNum isDecision
  end.

(** The lazy synthesis of a missing co-star. *)
Definition backfill_persona (beat : Beat) (t : FaceType) : M Beat :=
  g ← gets settings;
  if String.eqb (focus_char beat) "friend" && negb (opt_set (friend g))
     && is_story t
  then
    try_catch
      (newSidekick ← generatePersona
         (if String.eqb (selectedGenre g) "Custom"
          then "A fitting sidekick for this story"
          else "Sidekick for " +:+ selectedGenre g +:+ " story.");
       modify (with_settings (set_friend (Some newSidekick)));;
       mret beat)
      (fun _ => mret (set_focus "other" beat))
  else mret beat.

Definition generateSinglePage (faceId : string) (pageNum : Z) (t : FaceType) : M unit :=
  let isDecision := bool_decide (pageNum ∈ DECISION_PAGES) in
  beat0 ← page_beat pageNum t isDecision;
  beat ← backfill_persona beat0 t;
  updateFaceState faceId (beat_update beat isDecision);;
  url ← generateImage beat t pageNum;
  updateFaceState faceId (image_update url).

(** *** Batch and issue scheduler *)

Definition page_type (pageNum : Z) : FaceType :=
  if pageNum =? BACK_COVER_PAGE then back_cover else story.

(** The pages a batch schedules: the loop over [i] from [0] below [count]. *)
Definition pagesToGen (guard : gset Z) (startPage count : Z) : list Z :=
  List.filter (fun p => (p <=? TOTAL_PAGES) && negb (bool_decide (p ∈ guard)))
    (seqZ startPage count).

(** [newFaces.forEach(f => { if (!history.find(h => h.id === f.id))
    history.push(f) })], on the array itself. *)
Fixpoint push_missing (fs arr : list ComicFace) : list ComicFace :=
  match fs with
  | [] => arr
  | f :: fs' =>
      push_missing fs'
        (if opt_set (findIndex (id f) arr) then arr else arr ++ [f])
  end.

(** The synchronous head of [generateBatch]: the guard entries and the empty
    faces, placed before the first suspension point. *)
Definition scheduleBatch (toGen : list Z) : M unit :=
  modify (with_pages (fun p =>
    set_generatingPages (list_to_set toGen ∪ generatingPages p) p));;
  let newFaces := List.map (fun n => new_face (page_id n) (page_type n) n) toGen in
  modify (with_pages (fun p =>
    set_comicFaces
      (comicFaces p ++
       List.filter (fun f =>
         negb (bool_decide (id f ∈ List.map id (comicFaces p)))) newFaces) p));;
  modify (with_pages (fun p =>
    set_arrays
      (<[historyRef p := push_missing newFaces (default [] (arrays p !! historyRef p))]>
         (arrays p)) p)).

Definition guard_delete (n : Z) : M unit :=
  modify (with_pages (fun p => set_generatingPages (generatingPages p ∖ {[n]}) p)).

(** The body of the page loop. *)
Definition batchStep (pageNum : Z) : M unit :=
  generateSinglePage (page_id pageNum) pageNum (page_type pageNum);;
  guard_delete pageNum;;
  emit (EvDelay 1000).

(** The [try]/[catch]/[finally] statement of [generateBatch]: the pages one
    after the other, an error logged, the guard entries removed at the end. *)
Definition runBatch (toGen : list Z) : M unit :=
  finally
    (try_catch (for_each toGen batchStep)
       (fun e => emit (EvConsole ("Batch generation error " +:+ e))))
    (for_each toGen guard_delete).

Definition generateBatch (startPage count : Z) : M unit :=
  guard ← gets (fun s => generatingPages (pages s));
  let toGen := pagesToGen guard startPage count in
  match toGen with
  | [] => mret tt
  | _ :: _ =>
      scheduleBatch toGen;;
      runBatch toGen
  end.

Definition coverFace : ComicFace := new_face "cover" cover 0.

(** [historyRef.current = arr]: the reference now points to a new array. *)
Definition set_history (arr : list ComicFace) (p : Pages) : Pages :=
  let r := fresh (dom (arrays p)) in
  set_historyRef r (set_arrays (<[r := arr]> (arrays p)) p).

(** The callback [startIssueGeneration] hands to [setTimeout]; its last
    batch is started without being awaited and is run here to its end. *)
Definition afterTransition : M unit :=
  modify (with_ui (set_isStarted true));;
  modify (with_ui (set_showSetup false));;
  modify (with_ui (set_isTransitioning false));;
  addLog "Inking initial story sequence...";;
  generateBatch 1 INITIAL_PAGES;;
  modify (with_ui (set_isLaunching false));;
  addLog "Ready to read!";;
  generateBatch 3 3.

Definition startIssueGeneration (isNewIssue : bool) : M unit :=
  modify (with_ui (set_isLaunching true));;
  (if negb isNewIssue then
     modify (with_ui (set_logs []));;
     addLog "Initializing Multiverse Core..."
   else
     n ← gets (fun s => issueNumber (issue s));
     addLog ("Preparing Issue #" +:+ pretty n +:+ "..."));;
  modify (with_pages (set_comicFaces [coverFace]));;
  modify (with_pages (set_history [coverFace]));;
  modify (with_pages (fun p => set_generatingPages ({[0]} ∪ generatingPages p) p));;
  finally (generateSinglePage "cover" 0 cover) (guard_delete 0);;
  addLog "Engaging Hyper-Transition...";;
  modify (with_ui (set_isTransitioning true));;
  emit (EvDelay 1100);;
  afterTransition.

Definition availableTones (genre : string) : list string :=
  if String.eqb genre "Teen Drama / Slice of Life" || String.eqb genre "Lighthearted Comedy"
  then List.filter (fun t => Str.includes t "CASUAL" || Str.includes t "WHOLESOME" ||
                             Str.includes t "QUIPPY") TONES
  else if String.eqb genre "Classic Horror"
  then List.filter (fun t => Str.includes t "INNER-MONOLOGUE" ||
                             Str.includes t "OPERATIC") TONES
  else TONES.

Definition launchStory : M unit :=
  n ← tick;
  dialog ← gets (fun s => showApiKeyDialog (ui s));
  let '(hasKey, dialog') := validateApiKey n dialog in
  modify (with_ui (set_showApiKeyDialog dialog'));;
  if negb hasKey then mret tt else
  g ← gets settings;
  if negb (opt_set (hero g)) then mret tt else
  if String.eqb (selectedGenre g) "Custom" && negb (Str.nonempty (Str.trim (customPremise g)))
  then emit (EvAlert "Please enter a custom story premise.")
  else
    addLog ("Setting Genre: " +:+ Str.toUpperCase (selectedGenre g));;
    k ← tick;
    let tone := pick (random k) (availableTones (selectedGenre g)) in
    modify (with_settings (set_storyTone tone));;
    match tone with
    | None => throw (TypeError_ "Cannot read properties of undefined (reading 'split')")
    | Some t =>
        addLog ("Harmonizing Tone: " +:+ Str.first_word t);;
        modify (with_issue (set_issueNumber 1));;
        modify (with_issue (set_isFinale false));;
        modify (with_issue (set_previousSummary ""));;
        startIssueGeneration false
    end.

(** [handleNextIssue] up to its hard reset, that is before the relaunch. *)
Definition rollover (finale : bool) : M unit :=
  h ← gets history;
  summary ← generateSummary h;
  modify (with_issue (fun i =>
    set_previousSummary
      (previousSummary i +:+ Str.newline +:+ "[Issue " +:+ pretty (issueNumber i) +:+
       " Summary]: " +:+ summary) i));;
  addLog "Issue archived.";;
  modify (with_issue (fun i => set_issueNumber (issueNumber i + 1) i));;
  modify (with_issue (set_isFinale finale));;
  modify (with_pages (set_comicFaces []));;
  modify (with_ui (set_currentSheetIndex 0));;
  modify (with_pages (set_history []));;
  modify (with_pages (set_generatingPages ∅)).

Definition handleNextIssue (finale : bool) : M unit :=
  rollover finale;;
  startIssueGeneration true.

(** [Math.max(...history.map(f => f.pageIndex || 0))], when there is a page. *)
Definition maxPage (hist : list ComicFace) : option Z :=
  match hist with
  | [] => None
  | f :: l => Some (List.fold_right Z.max (pageIndexOr0 f) (List.map pageIndexOr0 l))
  end.

Definition choice_update (choice : string) : FaceUpdate :=
  {| u_narrative := None; u_choices := None; u_isDecisionPage := None;
     u_imageUrl := None; u_isLoading := None; u_resolvedChoice := Some choice |}.

(** A choice is made on a displayed page, so the history holds a page; with
    none the source computes with an infinite page number, which the
    transitions below exclude. *)
Definition handleChoice (pageNum : Z) (choice : string) : M unit :=
  addLog ("User made a choice: " +:+ choice +:+ ". Branching timeline...");;
  updateFaceState (page_id pageNum) (choice_update choice);;
  h ← gets history;
  match maxPage h with
  | Some m => if m + 1 <=? TOTAL_PAGES then generateBatch (m + 1) BATCH_SIZE else mret tt
  | None => mret tt
  end.

Definition resetApp : M unit :=
  modify (with_ui (set_isStarted false));;
  modify (with_ui (set_showSetup true));;
  modify (with_ui (set_isLaunching false));;
  modify (with_pages (set_comicFaces []));;
  modify (with_ui (set_currentSheetIndex 0));;
  modify (with_pages (set_history []));;
  modify (with_ui (set_logs []));;
  modify (with_pages (set_generatingPages ∅));;
  modify (with_settings (set_hero None));;
  modify (with_settings (set_friend None));;
  modify (with_ui (set_apiStatus idle));;
  modify (with_issue (set_issueNumber 1));;
  modify (with_issue (set_isFinale false));;
  modify (with_issue (set_previousSummary "")).

(** *** The session as a transition system *)

(** What the user interface asks of the pipeline. *)
Inductive Command :=
| CmdHeroUpload (p : Persona)
| CmdFriendUpload (p : Persona)
| CmdConfigure (genre language premise : string) (rich : bool) (strength : Z)
| CmdLaunch
| CmdChoice (pageNum : Z) (choice : string)
| CmdNextIssue (finale : bool)
| CmdReset.

Definition configure (genre language premise : string) (rich : bool) (strength : Z)
    (g : Settings) : Settings :=
  {| hero := hero g; friend := friend g; selectedGenre := genre;
     selectedLanguage := language; customPremise := premise;
     storyTone := storyTone g; richMode := rich; refStrength := strength |}.

Definition run_command (c : Command) : M unit :=
  match c with
  | CmdHeroUpload p => modify (with_settings (set_hero (Some p)));; addLog "Hero identity confirmed."
  | CmdFriendUpload p =>
      modify (with_settings (set_friend (Some p)));;
      addLog "Sidekick/Rival identity confirmed."
  | CmdConfigure genre language premise rich strength =>
      modify (with_settings (configure genre language premise rich strength))
  | CmdLaunch => launchStory
  | CmdChoice n choice => handleChoice n choice
  | CmdNextIssue finale => handleNextIssue finale
  | CmdReset => resetApp
  end.

(** The state of a freshly mounted [App], for the settings it starts with. *)
Definition initialState (g : Settings) : AppState :=
  {| settings := g;
     issue := {| issueNumber := 1; isFinale := false; previousSummary := "" |};
     ui := {| apiStatus := idle; apiErrorMessage := None; logs := [];
              showApiKeyDialog := false; currentSheetIndex := 0; isStarted := false;
              showSetup := true; isTransitioning := false; isLaunching := false |};
     pages := {| comicFaces := []; generatingPages := ∅;
                 arrays := {[ O := [] ]}; historyRef := O |};
     clock := O |}.

(** The states a session reaches, each command being run to its end. *)
Inductive reachable : AppState -> Prop :=
| reach_init g : reachable (initialState g)
| reach_step s c :
    reachable s ->
    (forall n ch, c = CmdChoice n ch -> history s <> []) ->
    reachable (state_of (run_command c s)).


(** *** Export *)

(** What [downloadPDF] asks of the document it builds ([doc.addPage],
    [doc.addImage], [doc.save]); the document starts with one page. *)
Inductive PdfOp :=
| AddPage (width height : Z)
| AddImage (url : string) (width height : Z)
| Save (name : string).

(** [face.imageUrl && !face.isLoading]. *)
Definition printable (face : ComicFace) : bool :=
  opt_truthy (imageUrl face) && negb (isLoading face).

(** [comicFaces.filter(...).sort(...)]: the sort works on the array the filter
    made. *)
Definition pagesToPrint (faces : list ComicFace) : list ComicFace :=
  sort_faces (List.filter printable faces).

(** The body of [pagesToPrint.forEach((face, index) => ...)], from [index]
    on. *)
Fixpoint printPages (index : nat) (l : list ComicFace) : list PdfOp :=
  match l with
  | [] => []
  | face :: l' =>
      (if Nat.ltb 0 index then [AddPage 480 720] else []) ++
      (if opt_truthy (imageUrl face)
       then [AddImage (show_opt (imageUrl face)) 480 720] else []) ++
      printPages (S index) l'
  end.


(** ** Reading the events *)

(** The levels of the image attempts, in the order they were made, each with
    how the call settled. *)
Fixpoint image_attempts (evs : list Event) : list (Z * Outcome) :=
  match evs with
  | [] => []
  | EvCall (TagImage l) _ o :: evs' => (l, o) :: image_attempts evs'
  | _ :: evs' => image_attempts evs'
  end.

(** The requests of the image attempts. *)
Fixpoint image_requests (evs : list Event) : list (Z * Request) :=
  match evs with
  | [] => []
  | EvCall (TagImage l) q _ :: evs' => (l, q) :: image_requests evs'
  | _ :: evs' => image_requests evs'
  end.

Definition is_call (e : Event) : bool :=
  match e with EvCall _ _ _ => true | _ => false end.

(** The commits and the waits, which order the work of a batch. *)
Definition is_sched (e : Event) : bool :=
  match e with EvCommit _ _ | EvDelay _ => true | _ => false end.

Definition sched_events (evs : list Event) : list Event := List.filter is_sched evs.

Definition is_image_part (p : ReqPart) : bool :=
  match p with ImagePart _ _ => true | TextPart _ => false end.

(** How the ladder reads the outcome of an attempt below level 3: it goes on
    to the next level, or it stops here. *)
Definition timeoutError : string := Error_ ("Timeout after " +:+ pretty API_TIMEOUT_MS +:+ "ms").

Definition escalates (o : Outcome) : bool :=
  match o with
  | Resolves r => no_candidates r
  | Rejects e => isSafetyBlock e
  | Pending => isSafetyBlock timeoutError
  end.

(** ** Vocabulary of the properties *)

(** What only the generators' bookkeeping (log feed, error status, oracle
    counter) leaves alone. *)
Definition data (s : AppState) : Settings * Issue * Pages :=
  (settings s, issue s, pages s).

(** The error status and the credential dialog. *)
Definition alarm (s : AppState) : ApiStatus * option string * bool :=
  (apiStatus (ui s), apiErrorMessage (ui s), showApiKeyDialog (ui s)).

(** The model calls among the events. *)
Definition calls (evs : list Event) : list Event := List.filter is_call evs.

(** What the [try] block of [generateBeat] yields for the outcome of its
    call. *)
Definition beat_outcome (genre : string) (isDecisionPage isFinalPage : bool) (o : Outcome)
  : Result Beat :=
  match o with
  | Resolves res =>
      parsed ← JSON_parse (rawText res);
      repairBeat genre isDecisionPage isFinalPage parsed
  | Rejects e => Throw e
  | Pending => Throw (Error_ ("Timeout after " +:+ pretty 30000 +:+ "ms"))
  end.

(** The request [generateBeat] sends for a prompt. *)
Definition beatRequest (prompt : string) : Request :=
  {| q_model := MODEL_TEXT_NAME; q_parts := [TextPart prompt];
     q_json := true; q_aspectRatio := None |}.

(** The recap [generateSummary] returns for a history when its call, if it
    makes one, settles as [o]. *)
Definition recap_of (hist : list ComicFace) (o : Outcome) : string :=
  if Str.nonempty (summary_text hist) then
    match o with
    | Resolves res => opt_or (r_text res) "To be continued..."
    | Rejects _ | Pending => "The story continues..."
    end
  else "The story begins.".

(** What a commit of [updateFaceState] does to the pages. *)
Definition commit_pages (i : string) (u : FaceUpdate) (p : Pages) : Pages :=
  update_history i u
    (set_comicFaces
       (List.map (fun f => if String.eqb (id f) i then merge_face f u else f)
          (comicFaces p)) p).

(** The history array of a record of pages. *)
Definition history_of (p : Pages) : list ComicFace :=
  default [] (arrays p !! historyRef p).

(** A face is in order: it has the id [cover] exactly when it is the cover,
    and an attached beat has the empty scene on the cover and a non-empty
    scene on every other page. *)
Definition face_ok (f : ComicFace) : Prop :=
  (id f = "cover" <-> type f = cover) /\
  (forall b, narrative f = Some b ->
     (type f = cover -> scene b = "") /\ (type f <> cover -> scene b <> "")).

Definition faces_ok (l : list ComicFace) : Prop := Forall face_ok l.

(** The invariant of the pages: the history reference points to an array,
    and the page collection and the history are in order. *)
Definition pages_ok (p : Pages) : Prop :=
  is_Some (arrays p !! historyRef p) /\
  faces_ok (comicFaces p) /\ faces_ok (history_of p).

(** A commit fit for the face of id [i]: a beat it attaches has the empty
    scene exactly when [i] is the id of the cover. *)
Definition update_ok (i : string) (u : FaceUpdate) : Prop :=
  forall b, u_narrative u = Some b ->
    (i = "cover" -> scene b = "") /\ (i <> "cover" -> scene b <> "").

(** The computations that keep the invariant of the pages. *)
Definition preserves {A} (m : M A) : Prop :=
  forall s, pages_ok (pages s) -> pages_ok (pages (state_of (m s))).

(** The commits and the wait of one page of a batch, for the beat and the
    image it ended with. *)
Definition page_block (n : Z) (done : Beat * string) : list Event :=
  [ EvCommit (page_id n) (beat_update done.1 (bool_decide (n ∈ DECISION_PAGES)));
    EvCommit (page_id n) (image_update done.2);
    EvDelay 1000 ].

(** The narrative context of page [pageNum] over a history. *)
Definition relevant (hist : list ComicFace) (pageNum : Z) : list ComicFace :=
  sort_faces (List.filter (is_relevant pageNum) hist).

(** [p'] has the page collection, the guard and the history reference of
    [p], and every array of [p] as it was; arrays may have been allocated. *)
Definition pages_grow (p p' : Pages) : Prop :=
  comicFaces p' = comicFaces p /\
  generatingPages p' = generatingPages p /\
  historyRef p' = historyRef p /\
  forall r, is_Some (arrays p !! r) -> arrays p' !! r = arrays p !! r.

(** [s'] has the settings and the issue of [s], and its pages have only
    grown by arrays. *)
Definition keeps_pages (s s' : AppState) : Prop :=
  settings s' = settings s /\ issue s' = issue s /\ pages_grow (pages s) (pages s').


(** What a guarded attempt of the ladder yields for the outcome of its call. *)
Definition attempt_result (o : Outcome) : Result Response :=
  match o with
  | Resolves r =>
      if no_candidates r then Throw (Error_ "Safety Block: Content Filtered") else Ok r
  | Rejects e => Throw e
  | Pending => Throw (Error_ ("Timeout after " +:+ pretty API_TIMEOUT_MS +:+ "ms"))
  end.

(** The attempts the ladder makes when its calls settle as [o0], [o1], [o2]
    and [o3], were they made. *)
Definition ladder_trace (escalate : Outcome -> bool) (o0 o1 o2 o3 : Outcome)
  : list (Z * Outcome) :=
  (0, o0) ::
  if escalate o0 then
    (1, o1) ::
    if escalate o1 then
      (2, o2) :: if escalate o2 then [(3, o3)] else []
    else []
  else [].

(** [!!heroRef.current?.base64], read off a state. *)
Definition useRefs_of (s : AppState) : bool :=
  match hero (settings s) with
  | Some x => Str.nonempty (base64 x)
  | None => false
  end.

(** What [generateImage] makes of the outcome of the last attempt: the data
    URI of the inspection, or the error that reaches its [catch]. *)
Definition verdict (o : Outcome) : Result string :=
  match o with
  | Resolves r => inspect r
  | Rejects e => Throw e
  | Pending => Throw timeoutError
  end.

Definition last_outcome (att : list (Z * Outcome)) : option Outcome :=
  snd <$> last att.

(** The text written on the placeholder for an error caught by
    [generateImage]. *)
Definition placeholderLabel (e : string) : string :=
  if isAuthMessage e then "AUTH ERROR"
  else if Str.includes e "Safety Block" || Str.includes e "Refused" ||
          Str.includes e "SAFETY" then "CONTENT FILTERED"
  else "IMAGE GEN FAILED".

(** The prompt of a story panel, by the qualifier put after the style and
    the scene text put into it (what [buildPrompt] builds at each level is
    stated against this). *)
Definition storyPrompt (g : Settings) (beat : Beat) (qualifier sceneText : string) : string :=
  "STYLE: " +:+
  (if String.eqb (selectedGenre g) "Custom" then "Modern American" else selectedGenre g) +:+
  " comic book art. Fictional Character Art. " +:+ qualifier +:+
  "TYPE: Vertical comic panel. " +:+ "SCENE: " +:+ sceneText +:+ ". " +:+
  "INSTRUCTIONS: Create a fictional comic book illustration. Artistic interpretation. " +:+
  (if opt_truthy (caption beat)
   then " INCLUDE CAPTION BOX: " +:+ quoted (show_opt (caption beat)) else "") +:+
  (if opt_truthy (dialogue beat)
   then " INCLUDE SPEECH BUBBLE: " +:+ quoted (show_opt (dialogue beat)) else "").

(** No end of [x] that is not empty is, ignoring case, a beginning of [rep],
    and [x] is not longer than [rep]: a text that ends where [rep] starts
    cannot run on into [rep] to make up [x]. *)
Fixpoint no_bridge (rep x : string) : bool :=
  match x with
  | EmptyString => true
  | String _ x' =>
      negb (Str.prefix_ci x rep) &&
      Nat.leb (String.length x) (String.length rep) &&
      no_bridge rep x'
  end.

(** The computations that keep a property of the session. *)
Definition keeps {A} (I : AppState -> Prop) (m : M A) : Prop :=
  forall s, I s -> I (state_of (m s)).

(** The empty faces [generateBatch] makes for the pages it schedules. *)
Definition newFaces (toGen : list Z) : list ComicFace :=
  List.map (fun n => new_face (page_id n) (page_type n) n) toGen.

(** What the synchronous head of [generateBatch] does to the pages. *)
Definition schedule_pages (toGen : list Z) (p : Pages) : Pages :=
  let p1 := set_generatingPages (list_to_set toGen ∪ generatingPages p) p in
  let p2 :=
    set_comicFaces
      (comicFaces p1 ++
       List.filter (fun f => negb (bool_decide (id f ∈ List.map id (comicFaces p1))))
         (newFaces toGen)) p1 in
  set_arrays
    (<[historyRef p2 := push_missing (newFaces toGen) (default [] (arrays p2 !! historyRef p2))]>
       (arrays p2)) p2.

(** What the reset of [startIssueGeneration] does to the pages: the page
    collection and a new history array hold the empty cover. *)
Definition restart_pages (p : Pages) : Pages :=
  set_history [coverFace] (set_comicFaces [coverFace] p).

(** What the hard reset of [handleNextIssue] and of [resetApp] does to the
    page collection and the history. *)
Definition clear_pages (p : Pages) : Pages :=
  set_history [] (set_comicFaces [] p).

(** The page collection and the history agree: the history reference points
    to an array, that array holds the faces of the page collection in the
    same order, and no id occurs twice. *)
Definition pages_sync (p : Pages) : Prop :=
  is_Some (arrays p !! historyRef p) /\
  history_of p = comicFaces p /\
  NoDup (List.map id (comicFaces p)).

(** A page is finished: it has its beat and its image and is not loading. *)
Definition finished (f : ComicFace) : Prop :=
  is_Some (narrative f) /\ is_Some (imageUrl f) /\ isLoading f = false.



(** The pages [generateSinglePage] is called for: the cover under the id
    [cover], or a page under the id and the type [generateBatch] gives it. *)
Definition page_call (faceId : string) (pageNum : Z) (t : FaceType) : Prop :=
  (faceId = "cover" /\ pageNum = 0 /\ t = cover) \/
  (faceId = page_id pageNum /\ t = page_type pageNum).

(** A face is the cover, of index 0, or the page of an index from 1 to
    [TOTAL_PAGES], with the id and the type of that page. *)
Definition face_wf (f : ComicFace) : Prop :=
  (id f = "cover" /\ type f = cover /\ pageIndex f = Some 0) \/
  (exists n, 1 <= n <= TOTAL_PAGES /\
     id f = page_id n /\ type f = page_type n /\ pageIndex f = Some n).

(** The stages of a face: it stops loading when its image is attached; an
    image is attached after a beat; before the beat the face has no choices
    and no decision flag, with the beat it has the choices of the beat and
    the decision flag of its index; and only a story page of a decision
    index has anything but the empty list of choices. *)
Definition face_staged (f : ComicFace) : Prop :=
  (isLoading f = false <-> is_Some (imageUrl f)) /\
  (is_Some (imageUrl f) -> is_Some (narrative f)) /\
  (narrative f = None -> face_choices f = JArr [] /\ isDecisionPage f = None) /\
  (forall b, narrative f = Some b ->
     face_choices f = choices b /\
     isDecisionPage f = Some (bool_decide (pageIndexOr0 f ∈ DECISION_PAGES))) /\
  (face_choices f <> JArr [] -> type f = story /\ pageIndexOr0 f ∈ DECISION_PAGES).

(** The invariant of the page collection and the history: they agree, and
    every face is well formed and staged. *)
Definition faces_inv (s : AppState) : Prop :=
  pages_sync (pages s) /\
  Forall (fun f => face_wf f /\ face_staged f) (comicFaces (pages s)).

(** The computations that make at most [k] model calls, from whatever
    state they start. *)
Definition calls_le {A} (k : nat) (m : M A) : Prop :=
  forall s, (length (calls (events_of (m s))) <= k)%nat.

(** ** Sample data for the concrete runs *)

Definition demo_time (n : nat) : string := "12:00:00".

Definition demo_canvas (text : string) : string :=
  "data:image/jpeg;base64,PLACEHOLDER " +:+ text.

Definition demo_languages : list (string * string) := [("en-US", "English")].

Definition demo_hero : Persona :=
  {| base64 := "aGVybw=="; mimeType := "image/jpeg"; desc := "The Main Hero" |}.

Definition demo_settings : Settings :=
  {| hero := Some demo_hero; friend := None; selectedGenre := "Superhero Action";
     selectedLanguage := "en-US"; customPremise := ""; storyTone := Some "ACTION-HEAVY";
     richMode := true; refStrength := 2 |}.

Definition demo_beat (sc : string) : Beat :=
  {| caption := Some "Meanwhile..."; dialogue := None; scene := sc;
     focus_char := "hero"; choices := JArr [] |}.

(** A response whose only candidate has no content and the given finish
    reason. *)
Definition stopped_response (reason : string) : Response :=
  {| r_candidates := Some [{| c_parts := None; c_finishReason := Some reason |}];
     r_text := None |}.

(** A response with one inline image. *)
Definition image_response (payload : string) : Response :=
  {| r_candidates :=
       Some [{| c_parts := Some [{| p_inlineData :=
                                      Some {| i_data := Some payload;
                                              i_mimeType := Some "image/png" |};
                                    p_text := None |}];
                c_finishReason := Some "STOP" |}];
     r_text := None |}.

Definition empty_response : Response := {| r_candidates := Some []; r_text := None |}.

Definition demo_random (n : nat) : float := 0.5%float.

(** A stand-in for the comparison the runtime makes after converting its
    operand, and the layout constants of the published application. *)
Definition demo_coerce (v : jsval) : Result bool := Ok false.
Definition demo_max_pages : Z := 10.

Definition text_response (t : string) : Response :=
  {| r_candidates := None; r_text := Some t |}.

(** The text of a response whose [dialogue] is the number 5, and of a
    response with a scene, a focus and a single choice. *)
Definition dialogue5_text : string := "{" +:+ quoted "dialogue" +:+ ": 5}".

Definition one_choice_text : string :=
  "{" +:+ quoted "scene" +:+ ": " +:+ quoted "HERO on a roof" +:+ ", " +:+
  quoted "focus_char" +:+ ": " +:+ quoted "villain" +:+ ", " +:+
  quoted "choices" +:+ ": [" +:+ quoted "Stay" +:+ "]}".

(** [JSON.parse] on the three texts used in the concrete runs; every other
    text is refused here. *)
Definition demo_JSON_parse (t : string) : Result jsval :=
  if String.eqb t "{}" then Ok (JObj [])
  else if String.eqb t dialogue5_text then Ok (JObj [("dialogue", JNum 5)])
  else if String.eqb t one_choice_text then
    Ok (JObj [("scene", JStr "HERO on a roof"); ("focus_char", JStr "villain");
              ("choices", JArr [JStr "Stay"])])
  else Throw "SyntaxError: Unexpected token".

Definition with_beat (f : ComicFace) (sc : string) : ComicFace :=
  merge_face f
    {| u_narrative := Some (demo_beat sc); u_choices := None; u_isDecisionPage := None;
       u_imageUrl := None; u_isLoading := None; u_resolvedChoice := None |}.

(** A history out of order: the cover, page 2 and page 1 with their beats,
    page 3 still without a beat, and page 5 committed by a later batch. *)
Definition demo_history : list ComicFace :=
  [ with_beat (new_face "cover" cover 0) "";
    with_beat (new_face "page-2" story 2) "HERO climbs";
    with_beat (new_face "page-1" story 1) "HERO wakes";
    new_face "page-3" story 3;
    with_beat (new_face "page-5" story 5) "HERO falls" ].


(** ** Facts about strings *)

Lemma prefix_app_same (s b : string) : String.prefix s (s +:+ b) = true.
Proof.
  induction s as [|c s IH]; simpl.
  - destruct b; reflexivity.
  - destruct (ascii_dec c c); [exact IH | congruence].
Qed.

Lemma includes_app_l (s b : string) : Str.includes (s +:+ b) s = true.
Proof.
  destruct s as [|c s]; simpl.
  - destruct b; reflexivity.
  - destruct (ascii_dec c c); [|congruence].
    rewrite prefix_app_same. reflexivity.
Qed.

Lemma includes_app_r (a t s : string) :
  Str.includes t s = true -> Str.includes (a +:+ t) s = true.
Proof.
  intros H. induction a as [|c a IH]; simpl; [exact H|].
  rewrite IH. apply orb_true_r.
Qed.


Lemma append_cons (x : ascii) (a b : string) : String x a +:+ b = String x (a +:+ b).
Proof. reflexivity. Qed.

Lemma append_nil_l (b : string) : "" +:+ b = b.
Proof. reflexivity. Qed.

Lemma append_assoc (a b c : string) : (a +:+ b) +:+ c = a +:+ (b +:+ c).
Proof. induction a as [|x a IH]; [done|]. rewrite !append_cons. by f_equal. Qed.

Lemma append_nil_r (a : string) : a +:+ "" = a.
Proof. induction a as [|x a IH]; [done|]. rewrite append_cons. by f_equal. Qed.

Lemma nonempty_true (s : string) : Str.nonempty s = true <-> s <> "".
Proof. destruct s; simpl; split; congruence. Qed.

Lemma or_else_nonempty (a b : string) : b <> "" -> Str.or_else a b <> "".
Proof. intros H. unfold Str.or_else. destruct a; simpl; [exact H | congruence]. Qed.

Lemma app_nonempty_l (a b : string) : a <> "" -> a +:+ b <> "".
Proof. intros H. destruct a; simpl; [congruence | discriminate]. Qed.





Lemma buildPrompt_story_0 g i beat :
  buildPrompt g i beat story 0 = storyPrompt g beat "" (originalScene g beat).
Proof. unfold buildPrompt, storyPrompt. simpl. by rewrite !append_assoc. Qed.

Lemma buildPrompt_story_1 g i beat :
  buildPrompt g i beat story 1 = storyPrompt g beat SAFE_MODE (softenScene (originalScene g beat)).
Proof. unfold buildPrompt, storyPrompt. simpl. by rewrite !append_assoc. Qed.

Lemma buildPrompt_story_2 g i beat :
  buildPrompt g i beat story 2 = storyPrompt g beat SAFE_MODE (softenScene (originalScene g beat)).
Proof. unfold buildPrompt, storyPrompt. simpl. by rewrite !append_assoc. Qed.

Lemma buildPrompt_story_3 g i beat :
  buildPrompt g i beat story 3 = storyPrompt g beat SAFE_MODE (originalScene g beat).
Proof. unfold buildPrompt, storyPrompt. simpl. by rewrite !append_assoc. Qed.

Lemma storyPrompt_includes_scene g beat q sc :
  Str.includes (storyPrompt g beat q sc) sc = true.
Proof.
  unfold storyPrompt.
  do 6 apply includes_app_r. apply includes_app_l.
Qed.

(** Claim C8, as amended.  For a story page the prompt of level 0 holds the
    original scene text unchanged and no qualifier; the prompt of level 1
    has the fictional, no-photorealism qualifier and, as its scene, the
    original text with the violent-action vocabulary replaced by
    [confrontation]; the prompt of level 2 is the prompt of level 1.  The
    scene text put into a prompt is part of it, and the original scene is the
    scene of the beat whenever that is not empty. *)
Theorem C8_scene_by_level g i beat :
  let orig := originalScene g beat in
  buildPrompt g i beat story 0 = storyPrompt g beat "" orig /\
  buildPrompt g i beat story 1 = storyPrompt g beat SAFE_MODE (softenScene orig) /\
  buildPrompt g i beat story 2 = buildPrompt g i beat story 1 /\
  Str.includes (buildPrompt g i beat story 0) orig = true /\
  Str.includes (buildPrompt g i beat story 1) (softenScene orig) = true /\
  Str.includes (buildPrompt g i beat story 1) SAFE_MODE = true /\
  (scene beat <> "" -> orig = scene beat).
Proof.
  cbv zeta.
  rewrite buildPrompt_story_0, buildPrompt_story_1, buildPrompt_story_2.
  repeat split; try apply storyPrompt_includes_scene.
  - unfold storyPrompt. do 3 apply includes_app_r. apply includes_app_l.
  - intros H. unfold originalScene, Str.or_else.
    apply nonempty_true in H. by rewrite H.
Qed.

Lemma image_attempts_app a b :
  image_attempts (a ++ b) = image_attempts a ++ image_attempts b.
Proof.
  induction a as [|e a IH]; [done|].
  destruct e as [[| | |l] q o| | | | |]; simpl; rewrite ?IH; reflexivity.
Qed.

Lemma image_requests_app a b :
  image_requests (a ++ b) = image_requests a ++ image_requests b.
Proof.
  induction a as [|e a IH]; [done|].
  destruct e as [[| | |l] q o| | | | |]; simpl; rewrite ?IH; reflexivity.
Qed.

Lemma sched_events_app a b : sched_events (a ++ b) = sched_events a ++ sched_events b.
Proof. apply List.filter_app. Qed.

Lemma ladder_trace_last esc o0 o1 o2 o3 :
  exists o, last_outcome (ladder_trace esc o0 o1 o2 o3) = Some o.
Proof.
  unfold ladder_trace.
  destruct (esc o0), (esc o1), (esc o2); eexists; reflexivity.
Qed.

Lemma addLog_run msg s :
  addLog msg s = (Ok tt, logged msg s, [EvLog msg]).
Proof. reflexivity. Qed.

Lemma handleAPIError_run e s :
  handleAPIError e s =
  (Ok tt, api_failed e s,
   [EvConsole ("API Error: " +:+ e);
    EvLog ("!! CRITICAL ERROR: " +:+ Str.slice0 40 e +:+ "...")]).
Proof.
  unfold handleAPIError, api_failed. msimpl. rewrite addLog_run.
  destruct (wantsKeyDialog e); reflexivity.
Qed.

Lemma generateContent_run tag q s :
  generateContent tag q s =
  (Ok (tag, api (clock s)), with_clock S s, [EvCall tag q (api (clock s))]).
Proof. reflexivity. Qed.

Lemma data_logged msg s : data (logged msg s) = data s.
Proof. reflexivity. Qed.

Lemma data_with_clock f s : data (with_clock f s) = data s.
Proof. reflexivity. Qed.

Lemma data_api_failed e s : data (api_failed e s) = data s.
Proof. unfold api_failed. destruct (wantsKeyDialog e); reflexivity. Qed.

Lemma alarm_logged msg s : alarm (logged msg s) = alarm s.
Proof. reflexivity. Qed.

Lemma alarm_with_clock f s : alarm (with_clock f s) = alarm s.
Proof. reflexivity. Qed.

Lemma alarm_api_failed e s :
  alarm (api_failed e s) = (error, Some e, wantsKeyDialog e || showApiKeyDialog (ui s)).
Proof. unfold api_failed. destruct (wantsKeyDialog e); reflexivity. Qed.

(** *** The image renderer *)

Lemma executeGen_run beat t useRefs l s :
  executeGen beat t useRefs l s =
  (match api (clock s) with
   | Resolves r => Ok r
   | Rejects e => Throw e
   | Pending => Throw (Error_ ("Timeout after " +:+ pretty API_TIMEOUT_MS +:+ "ms"))
   end,
   with_clock S s,
   [EvCall (TagImage l) (imageRequest (settings s) (issue s) beat t useRefs l)
      (api (clock s))]).
Proof.
  unfold executeGen. msimpl. rewrite generateContent_run. unfold withTimeout. msimpl.
  destruct (api (clock s)); reflexivity.
Qed.

Lemma attempt_run beat t l s :
  attempt beat t l s =
  (attempt_result (api (clock s)), with_clock S s,
   [EvCall (TagImage l) (imageRequest (settings s) (issue s) beat t (useRefs_of s) l)
      (api (clock s))]).
Proof.
  unfold attempt, heroHasImage. msimpl. rewrite executeGen_run.
  unfold attempt_result, useRefs_of.
  destruct (api (clock s)) as [r|e|]; try reflexivity.
  destruct (no_candidates r); reflexivity.
Qed.

Lemma escalates_spec o :
  escalates o = match attempt_result o with Ok _ => false | Throw e => isSafetyBlock e end.
Proof.
  destruct o as [r|e|]; simpl; try reflexivity.
  unfold attempt_result. destruct (no_candidates r); reflexivity.
Qed.

Lemma level_run beat t l (next : M Response) c1 c2 s :
  try_catch (attempt beat t l)
    (fun e => if isSafetyBlock e
              then emit (EvConsole (c1 +:+ e));; addLog c2;; next
              else throw e) s =
  let o := api (clock s) in
  let ev := EvCall (TagImage l)
              (imageRequest (settings s) (issue s) beat t (useRefs_of s) l) o in
  if escalates o then
    match attempt_result o with
    | Ok r => (Ok r, with_clock S s, [ev])
    | Throw e =>
        match next (logged c2 (with_clock S s)) with
        | (r, s2, ev2) => (r, s2, [ev] ++ [EvConsole (c1 +:+ e); EvLog c2] ++ ev2)
        end
    end
  else (attempt_result o, with_clock S s, [ev]).
Proof.
  cbv zeta. rewrite escalates_spec. msimpl. rewrite attempt_run.
  destruct (attempt_result (api (clock s))) as [r|e]; [reflexivity|].
  destruct (isSafetyBlock e); [|reflexivity].
  msimpl. rewrite addLog_run.
  destruct (next _) as [[r s2] ev2]. reflexivity.
Qed.

Lemma attempt_verdict o :
  escalates o = false ->
  match attempt_result o with Ok r => inspect r | Throw e => Throw e end = verdict o.
Proof.
  destruct o as [r|e|]; simpl; try reflexivity.
  intros H. unfold attempt_result. rewrite H. reflexivity.
Qed.

Lemma escalates_throws o :
  escalates o = true -> exists e, attempt_result o = Throw e.
Proof.
  rewrite escalates_spec. destruct (attempt_result o) as [r|e]; [discriminate|eauto].
Qed.

Lemma ladder_run beat t s :
  let c := clock s in
  exists lr s' evs,
    ladder beat t s = (lr, s', evs) /\
    image_attempts evs =
      ladder_trace escalates (api c) (api (S c)) (api (S (S c))) (api (S (S (S c)))) /\
    (forall o, last_outcome (image_attempts evs) = Some o ->
       match lr with Ok r => inspect r | Throw e => Throw e end = verdict o) /\
    data s' = data s /\ alarm s' = alarm s /\ sched_events evs = [] /\
    (forall q, (3, q) ∈ image_requests evs ->
       q = imageRequest (settings s) (issue s) beat t false 3).
Proof.
  cbv zeta. unfold ladder, ladder_trace.
  rewrite level_run. cbv zeta.
  destruct (escalates (api (clock s))) eqn:E0.
  2:{ do 3 eexists. split; [reflexivity|]. repeat split; try reflexivity.
      - intros o [= <-]. by apply attempt_verdict.
      - intros q Hq. elem_cases Hq. }
  destruct (escalates_throws _ E0) as [e0 ->].
  rewrite level_run. cbv zeta.
  change (clock (logged _ (with_clock S s))) with (S (clock s)).
  destruct (escalates (api (S (clock s)))) eqn:E1.
  2:{ do 3 eexists. split; [reflexivity|]. repeat split; try reflexivity.
      - intros o [= <-]. by apply attempt_verdict.
      - intros q Hq. elem_cases Hq. }
  destruct (escalates_throws _ E1) as [e1 ->].
  rewrite level_run. cbv zeta.
  change (clock (logged _ (with_clock S (logged _ (with_clock S s)))))
    with (S (S (clock s))).
  destruct (escalates (api (S (S (clock s))))) eqn:E2.
  2:{ do 3 eexists. split; [reflexivity|]. repeat split; try reflexivity.
      - intros o [= <-]. by apply attempt_verdict.
      - intros q Hq. elem_cases Hq. }
  destruct (escalates_throws _ E2) as [e2 ->].
  rewrite executeGen_run.
  change (clock (logged _ (with_clock S (logged _ (with_clock S (logged _ (with_clock S s)))))))
    with (S (S (S (clock s)))).
  do 3 eexists. split; [reflexivity|]. repeat split; try reflexivity.
  - intros o [= <-]. destruct (api (S (S (S (clock s))))); reflexivity.
  - intros q Hq. elem_cases Hq. by injection Hq.
Qed.

Lemma imageFailure_run label e s :
  exists s' evs,
    imageFailure label e s =
      (Ok (createPlaceholderImage (placeholderLabel e)), s', evs) /\
    data s' = data s /\
    alarm s' = (if isAuthMessage e
                then (error, Some e, wantsKeyDialog e || showApiKeyDialog (ui s))
                else alarm s) /\
    sched_events evs = [] /\ image_attempts evs = [] /\ image_requests evs = [].
Proof.
  unfold imageFailure, placeholderLabel.
  destruct (isAuthMessage e).
  - msimpl. rewrite handleAPIError_run. do 2 eexists. split; [reflexivity|].
    rewrite data_api_failed, alarm_api_failed. repeat split; reflexivity.
  - destruct (Str.includes e "Safety Block" || Str.includes e "Refused" ||
              Str.includes e "SAFETY");
      msimpl; rewrite addLog_run; do 2 eexists; (split; [reflexivity|]);
      repeat split; reflexivity.
Qed.

Lemma generateImage_run beat t n s :
  let c := clock s in
  exists s' evs o,
    generateImage beat t n s =
      (Ok (match verdict o with
           | Ok url => url
           | Throw e => createPlaceholderImage (placeholderLabel e)
           end), s', evs) /\
    image_attempts evs =
      ladder_trace escalates (api c) (api (S c)) (api (S (S c))) (api (S (S (S c)))) /\
    last_outcome (image_attempts evs) = Some o /\
    data s' = data s /\
    alarm s' =
      match verdict o with
      | Throw e =>
          if isAuthMessage e
          then (error, Some e, wantsKeyDialog e || showApiKeyDialog (ui s))
          else alarm s
      | Ok _ => alarm s
      end /\
    sched_events evs = [] /\
    (forall q, (3, q) ∈ image_requests evs ->
       q = imageRequest (settings s) (issue s) beat t false 3).
Proof.
  cbv zeta. unfold generateImage. msimpl. rewrite addLog_run.
  destruct (ladder_run beat t (logged ("Rendering visual assets for " +:+ image_label t n +:+ "...") s))
    as (lr & s1 & ev1 & Hl & Hatt & Hver & Hd & Ha & Hs & Hq).
  cbv zeta in Hatt. rewrite Hl.
  change (clock (logged _ s)) with (clock s) in Hatt.
  destruct (ladder_trace_last escalates (api (clock s)) (api (S (clock s)))
              (api (S (S (clock s)))) (api (S (S (S (clock s)))))) as [o Ho].
  rewrite <- Hatt in Ho. specialize (Hver o Ho).
  assert (Hfail : forall e, verdict o = Throw e ->
    exists s' evs,
      (let '(r, s3, ev3) := imageFailure (image_label t n) e s1 in
       (r, s3, ev3)) =
      (Ok (createPlaceholderImage (placeholderLabel e)), s', evs) /\
      data s' = data s /\
      alarm s' = (if isAuthMessage e
                  then (error, Some e, wantsKeyDialog e || showApiKeyDialog (ui s))
                  else alarm s) /\
      sched_events evs = [] /\ image_attempts evs = [] /\ image_requests evs = []).
  { intros e _.
    destruct (imageFailure_run (image_label t n) e s1) as (s' & evs & -> & H1 & H2 & H3).
    exists s', evs. split; [reflexivity|]. rewrite H1, H2, Hd.
    assert (showApiKeyDialog (ui s1) = showApiKeyDialog (ui s)) as -> by (by injection Ha).
    rewrite Ha. done. }
  destruct lr as [r|e].
  - destruct (inspect r) as [url|e] eqn:Hi.
    + msimpl. rewrite addLog_run.
      exists (logged (image_label t n +:+ " successfully inked.") s1).
      eexists. exists o. split; [rewrite <- Hver; reflexivity|].
      rewrite <- Hver.
      rewrite !image_attempts_app, !image_requests_app, !sched_events_app, Hs.
      simpl. rewrite !app_nil_r.
      repeat split; done.
    + msimpl.
      destruct (Hfail e (eq_sym Hver)) as (s' & evs & Heq & H1 & H2 & H3 & H4 & H5).
      destruct (imageFailure _ e s1) as [[r' s3] ev3].
      injection Heq as -> -> ->.
      exists s', ([EvLog ("Rendering visual assets for " +:+ image_label t n +:+ "...")] ++ (ev1 ++ []) ++ evs), o.
      rewrite <- Hver. split; [reflexivity|].
      rewrite !image_attempts_app, !image_requests_app, !sched_events_app, Hs, H3, H4, H5.
      simpl. rewrite !app_nil_r. repeat split; done.
  - msimpl.
    destruct (Hfail e (eq_sym Hver)) as (s' & evs & Heq & H1 & H2 & H3 & H4 & H5).
    destruct (imageFailure _ e s1) as [[r' s3] ev3].
    injection Heq as -> -> ->.
    exists s', ([EvLog ("Rendering visual assets for " +:+ image_label t n +:+ "...")] ++ ev1 ++ evs), o.
    rewrite <- Hver. split; [reflexivity|].
    rewrite !image_attempts_app, !image_requests_app, !sched_events_app, Hs, H3, H4, H5.
    simpl. rewrite !app_nil_r. repeat split; done.
Qed.

Lemma inspect_Ok_candidates r url : inspect r = Ok url -> no_candidates r = false.
Proof.
  unfold inspect, no_candidates. destruct (r_candidates r) as [[|c l]|]; [discriminate|done|discriminate].
Qed.

Lemma timeout_not_safety : isSafetyBlock timeoutError = false.
Proof. vm_compute. reflexivity. Qed.

Lemma escalates_inv o :
  escalates o = true ->
  (exists r, o = Resolves r /\ no_candidates r = true) \/
  (exists e, o = Rejects e /\ isSafetyBlock e = true).
Proof.
  destruct o as [r|e|]; simpl; intros H; [left|right|]; eauto.
  rewrite timeout_not_safety in H. discriminate.
Qed.

Lemma refused_is_safety x : isSafetyBlock (Error_ ("Model Refused: " +:+ x)) = true.
Proof.
  unfold isSafetyBlock, Error_.
  assert (H : Str.includes ("Error: " +:+ "Model Refused: " +:+ x) "Refused" = true).
  { change ("Error: " +:+ "Model Refused: " +:+ x)
      with ("Error: Model " +:+ "Refused" +:+ ": " +:+ x).
    apply includes_app_r, includes_app_l. }
  rewrite H. by rewrite orb_true_r.
Qed.

Lemma stopped_includes fr pat :
  pat ∈ ["Safety Block"; "Refused"; "SAFETY"; "OTHER"; "API_KEY"; "403"; "Permission denied"] ->
  Str.includes (Error_ ("Generation stopped: " +:+ fr)) pat = Str.includes fr pat.
Proof.
  intros H. unfold Error_.
  change ("Error: " +:+ "Generation stopped: " +:+ fr)
    with ("Error: Generation stopped: " +:+ fr).
  elem_cases H; subst pat; rewrite !append_cons, append_nil_l; simpl; reflexivity.
Qed.

Lemma stopped_safety fr :
  isSafetyBlock (Error_ ("Generation stopped: " +:+ fr)) = isSafetyBlock fr.
Proof.
  unfold isSafetyBlock.
  rewrite !stopped_includes by (repeat first [left | right]). reflexivity.
Qed.

Lemma ladder_trace_levels (o0 o1 o2 o3 : Outcome) :
  exists k : nat, (1 <= k <= 4)%nat /\
    (ladder_trace escalates o0 o1 o2 o3).*1 = seqZ 0 (Z.of_nat k).
Proof.
  unfold ladder_trace.
  destruct (escalates o0); [destruct (escalates o1); [destruct (escalates o2)|]|].
  - exists 4%nat. split; [lia|reflexivity].
  - exists 3%nat. split; [lia|reflexivity].
  - exists 2%nat. split; [lia|reflexivity].
  - exists 1%nat. split; [lia|reflexivity].
Qed.

Lemma ladder_trace_next (o0 o1 o2 o3 : Outcome) i l o :
  let att := ladder_trace escalates o0 o1 o2 o3 in
  att !! i = Some (l, o) ->
  (is_Some (att !! S i) <-> escalates o = true /\ l < 3).
Proof.
  cbv zeta. unfold ladder_trace.
  destruct (escalates o0) eqn:E0; [destruct (escalates o1) eqn:E1;
    [destruct (escalates o2) eqn:E2|]|].
  - destruct i as [|[|[|[|i]]]]; intros H; simpl in H; try discriminate;
      injection H as <- <-; simpl; rewrite ?E0, ?E1, ?E2; solve_next.
  - destruct i as [|[|[|i]]]; intros H; simpl in H; try discriminate;
      injection H as <- <-; simpl; rewrite ?E0, ?E1, ?E2; solve_next.
  - destruct i as [|[|i]]; intros H; simpl in H; try discriminate;
      injection H as <- <-; simpl; rewrite ?E0, ?E1, ?E2; solve_next.
  - destruct i as [|i]; intros H; simpl in H; try discriminate;
      injection H as <- <-; simpl; rewrite ?E0, ?E1, ?E2; solve_next.
Qed.

Lemma ladder_trace_stop (o0 o1 o2 o3 : Outcome) i l o :
  let att := ladder_trace escalates o0 o1 o2 o3 in
  att !! i = Some (l, o) -> att !! S i = None -> last_outcome att = Some o.
Proof.
  cbv zeta. unfold ladder_trace.
  destruct (escalates o0); [destruct (escalates o1); [destruct (escalates o2)|]|].
  - destruct i as [|[|[|[|i]]]]; intros H; simpl in H; try discriminate;
      injection H as <- <-; simpl; intros H2; first [discriminate H2 | reflexivity].
  - destruct i as [|[|[|i]]]; intros H; simpl in H; try discriminate;
      injection H as <- <-; simpl; intros H2; first [discriminate H2 | reflexivity].
  - destruct i as [|[|i]]; intros H; simpl in H; try discriminate;
      injection H as <- <-; simpl; intros H2; first [discriminate H2 | reflexivity].
  - destruct i as [|i]; intros H; simpl in H; try discriminate;
      injection H as <- <-; simpl; intros H2; first [discriminate H2 | reflexivity].
Qed.

(** Claim C1.  For every image-generation request the attempts of the
    renderer are levels 0, 1, 2, 3 in this order, without a gap and without a
    repetition (between one and four of them); the attempt after level [l] is
    made exactly when [l] is below 3 and the attempt at [l] either rejected
    with an error that [isSafetyBlock] classifies as a safety block or
    resolved with no candidate; so an error that is no safety block, and a
    timeout, end the ladder at once; the ladder stops at the first level whose
    response holds inline image data, which is returned as the data URI; and
    the request of level 3 carries no reference image, only the prompt with
    the textual descriptions of the characters. *)
Theorem C1_fallback_ladder beat t pageNum s :
  let run := generateImage beat t pageNum s in
  let att := image_attempts (events_of run) in
  (exists k : nat, (1 <= k <= 4)%nat /\ att.*1 = seqZ 0 (Z.of_nat k)) /\
  (forall i l o, att !! i = Some (l, o) ->
     (is_Some (att !! S i) <->
      l < 3 /\ ((exists r, o = Resolves r /\ no_candidates r = true) \/
                (exists e, o = Rejects e /\ isSafetyBlock e = true)))) /\
  (forall i l e, att !! i = Some (l, Rejects e) -> isSafetyBlock e = false ->
     att !! S i = None) /\
  (forall i l, att !! i = Some (l, Pending) -> att !! S i = None) /\
  (forall i l r url, att !! i = Some (l, Resolves r) -> inspect r = Ok url ->
     att !! S i = None /\ result_of run = Ok url) /\
  (forall q, (3, q) ∈ image_requests (events_of run) ->
     q_parts q =
       [TextPart (buildPrompt (settings s) (issue s) beat t 3 +:+
                  persona_desc "HERO" (hero (settings s)) +:+
                  persona_desc "CO-STAR" (friend (settings s)) +:+
                  " Fictional characters. Generic superhero features. High contrast comic art.")]).
Proof.
  cbv zeta.
  destruct (generateImage_run beat t pageNum s) as (s' & evs & o & Hrun & Hatt & Hlast & _ & _ & _ & Hq).
  cbv zeta in Hatt. rewrite Hrun. unfold events_of, result_of. cbn [fst snd].
  rewrite Hatt in *.
  set (o0 := api (clock s)) in *. set (o1 := api (S (clock s))) in *.
  set (o2 := api (S (S (clock s)))) in *. set (o3 := api (S (S (S (clock s))))) in *.
  assert (Hnone : forall i l o', ladder_trace escalates o0 o1 o2 o3 !! i = Some (l, o') ->
            escalates o' = false -> ladder_trace escalates o0 o1 o2 o3 !! S i = None).
  { intros i l o' Hi He. apply eq_None_not_Some. intros Hs.
    apply (ladder_trace_next o0 o1 o2 o3 i l o' Hi) in Hs as [Hs _]. congruence. }
  split; [apply ladder_trace_levels|].
  split.
  { intros i l o' Hi. rewrite (ladder_trace_next o0 o1 o2 o3 i l o' Hi). split.
    - intros [He Hl]. split; [done|]. by apply escalates_inv.
    - intros [Hl [(r & -> & Hr)|(e & -> & He)]]; split; done. }
  split; [intros i l e Hi He; by apply (Hnone i l (Rejects e))|].
  split; [intros i l Hi; apply (Hnone i l Pending Hi); apply timeout_not_safety|].
  split.
  { intros i l r url Hi Hurl.
    assert (Hn : ladder_trace escalates o0 o1 o2 o3 !! S i = None).
    { apply (Hnone i l (Resolves r) Hi). simpl. by apply inspect_Ok_candidates in Hurl. }
    split; [exact Hn|].
    pose proof (ladder_trace_stop o0 o1 o2 o3 i l (Resolves r) Hi Hn) as Hl.
    rewrite Hl in Hlast. injection Hlast as <-. simpl. by rewrite Hurl. }
  intros q Hq3. rewrite (Hq q Hq3). reflexivity.
Qed.

(** Claim C2, as amended.  The response the ladder ended with is inspected
    in this order: (1) when the first part of the first candidate that has
    inline data has a non-empty payload, the data URI is returned; (2)
    otherwise, when a part has a non-empty text, the error
    [Model Refused: ...] is raised, which [isSafetyBlock] classifies as a
    safety block; (3) otherwise, when the finish reason is present and is not
    [STOP], the error [Generation stopped: reason] is raised, which is a
    safety block exactly when the reason itself holds one of the four marks
    of [isSafetyBlock]; (4) otherwise the error of the unknown structure is
    raised, which is no safety block.  The inspection comes after the ladder:
    an attempt whose response has a candidate is the last one, whatever the
    inspection makes of it, and an inspection error becomes a placeholder. *)
Theorem C2_inspection_order (c : Candidate) (rest : list Candidate) (txt0 : option string) :
  let res := {| r_candidates := Some (c :: rest); r_text := txt0 |} in
  (forall i d, inline_payload (find_inline (c_parts c)) = Some (i, d) ->
     inspect res = Ok ("data:" +:+ show_opt (i_mimeType i) +:+ ";base64," +:+ d)) /\
  (forall txt, inline_payload (find_inline (c_parts c)) = None ->
     find_text (c_parts c) = Some txt ->
     inspect res = Throw (Error_ ("Model Refused: " +:+ Str.slice0 100 txt +:+ "...")) /\
     isSafetyBlock (Error_ ("Model Refused: " +:+ Str.slice0 100 txt +:+ "...")) = true) /\
  (forall fr, inline_payload (find_inline (c_parts c)) = None ->
     find_text (c_parts c) = None ->
     c_finishReason c = Some fr -> fr <> "" -> fr <> "STOP" ->
     inspect res = Throw (Error_ ("Generation stopped: " +:+ fr)) /\
     isSafetyBlock (Error_ ("Generation stopped: " +:+ fr)) = isSafetyBlock fr) /\
  (inline_payload (find_inline (c_parts c)) = None ->
     find_text (c_parts c) = None ->
     c_finishReason c = None \/ c_finishReason c = Some "" \/ c_finishReason c = Some "STOP" ->
     inspect res = Throw (Error_ "No image data returned from API (Unknown Structure)") /\
     isSafetyBlock (Error_ "No image data returned from API (Unknown Structure)") = false) /\
  (forall beat t pageNum s i l r,
     let run := generateImage beat t pageNum s in
     image_attempts (events_of run) !! i = Some (l, Resolves r) ->
     no_candidates r = false ->
     image_attempts (events_of run) !! S i = None /\
     result_of run =
       Ok (match inspect r with
           | Ok url => url
           | Throw e => createPlaceholderImage (placeholderLabel e)
           end)).
Proof.
  cbv zeta. unfold inspect. cbn [r_candidates].
  split; [intros i d ->; reflexivity|].
  split; [intros txt -> ->; split; [reflexivity | apply refused_is_safety]|].
  split.
  { intros fr -> -> -> Hne Hstop. split; [|apply stopped_safety].
    cbn [opt_truthy show_opt]. apply nonempty_true in Hne. rewrite Hne.
    destruct (String.eqb_spec fr "STOP") as [->|_]; [done|reflexivity]. }
  split.
  { intros -> -> Hfr. split; [|reflexivity].
    destruct Hfr as [->|[->| ->]]; reflexivity. }
  intros beat t pageNum s i l r Hi Hc.
  destruct (generateImage_run beat t pageNum s)
    as (s' & evs & o & Hrun & Hatt & Hlast & _).
  cbv zeta in Hatt. rewrite Hrun in *. unfold events_of, result_of in *. cbn [fst snd] in *.
  rewrite Hatt in *.
  assert (Hn : ladder_trace escalates (api (clock s)) (api (S (clock s)))
                 (api (S (S (clock s)))) (api (S (S (S (clock s))))) !! S i = None).
  { apply eq_None_not_Some. intros Hs.
    apply (ladder_trace_next _ _ _ _ i l (Resolves r) Hi) in Hs as [Hs _].
    simpl in Hs. congruence. }
  split; [exact Hn|].
  rewrite (ladder_trace_stop _ _ _ _ i l (Resolves r) Hi Hn) in Hlast.
  injection Hlast as <-. reflexivity.
Qed.

(** Claim C3, as amended.  [generateImage] always returns a string and never
    throws: the data URI the inspection of the last attempt yields, or else
    the placeholder drawn for the error of the last attempt, whose text is
    one of three different labels; an exhausted ladder (a response without
    candidates) gives the content-filtered placeholder.  An error whose
    message holds [API_KEY], [403] or [Permission denied] gives the auth
    placeholder and is handed to [handleAPIError], which records the error
    status and the message and opens the credential dialog only when the
    message passes its own test [wantsKeyDialog]; any other outcome leaves
    the status and the dialog as they were. *)
Theorem C3_generateImage_total beat t pageNum s :
  let run := generateImage beat t pageNum s in
  exists o url,
    last_outcome (image_attempts (events_of run)) = Some o /\
    result_of run = Ok url /\
    (forall u, verdict o = Ok u -> url = u /\ alarm (state_of run) = alarm s) /\
    (forall e, verdict o = Throw e ->
       url = createPlaceholderImage (placeholderLabel e) /\
       placeholderLabel e ∈ ["AUTH ERROR"; "CONTENT FILTERED"; "IMAGE GEN FAILED"] /\
       (isAuthMessage e = true ->
          placeholderLabel e = "AUTH ERROR" /\
          alarm (state_of run) =
            (error, Some e, wantsKeyDialog e || showApiKeyDialog (ui s))) /\
       (isAuthMessage e = false -> alarm (state_of run) = alarm s)) /\
    (forall r, o = Resolves r -> no_candidates r = true ->
       url = createPlaceholderImage "CONTENT FILTERED") /\
    NoDup (Str.toUpperCase <$> ["AUTH ERROR"; "CONTENT FILTERED"; "IMAGE GEN FAILED"]).
Proof.
  cbv zeta.
  destruct (generateImage_run beat t pageNum s)
    as (s' & evs & o & Hrun & Hatt & Hlast & _ & Ha & _).
  rewrite Hrun. unfold events_of, result_of, state_of. cbn [fst snd].
  exists o. eexists. split; [exact Hlast|]. split; [reflexivity|].
  split; [intros u Hu; rewrite Hu in *; done|].
  split.
  { intros e He. rewrite He in *. split; [reflexivity|]. split.
    - unfold placeholderLabel. destruct (isAuthMessage e); [by left|].
      destruct (_ || _); [right; by left | right; right; by left].
    - split; intros Hauth; rewrite Hauth in Ha; [|exact Ha].
      split; [|exact Ha]. unfold placeholderLabel. by rewrite Hauth. }
  split.
  { intros r -> Hr. simpl. unfold inspect, no_candidates in *.
    destruct (r_candidates r) as [[|c l]|]; try discriminate; reflexivity. }
  vm_compute. repeat constructor; intros H; elem_cases H.
Qed.

(** ** The beat generator *)

(** *** The narrative context: filter, then stable sort *)







(** *** The array store *)

Lemma array_at_insert_eq s r l (f : gmap nat (list ComicFace) -> gmap nat (list ComicFace)) :
  (forall m, f m !! r = Some l) ->
  array_at (with_pages (fun p => set_arrays (f (arrays p)) p) s) r = l.
Proof. intros H. unfold array_at. simpl. by rewrite H. Qed.

Lemma relevantHistory_run h n s :
  exists s',
    relevantHistory h n s = (Ok (fresh (dom (arrays (pages s)))), s', []) /\
    array_at s' (fresh (dom (arrays (pages s)))) = relevant (array_at s h) n /\
    keeps_pages s s' /\ ui s' = ui s /\ clock s' = clock s.
Proof.
  unfold relevantHistory, array_filter, array_sort. msimpl.
  eexists. split; [reflexivity|].
  set (r := fresh (dom (arrays (pages s)))).
  assert (Hr : arrays (pages s) !! r = None).
  { apply not_elem_of_dom. apply is_fresh. }
  split.
  { unfold array_at at 1. simpl. rewrite lookup_insert_eq. simpl.
    unfold relevant. f_equal. unfold array_at at 1. simpl. by rewrite lookup_insert_eq. }
  split; [|done].
  repeat split; try reflexivity.
  intros r0 [l Hl]. simpl.
  assert (r <> r0) by congruence.
  by rewrite !lookup_insert_ne.
Qed.

Lemma pages_grow_refl p : pages_grow p p.
Proof. repeat split; done. Qed.

Lemma pages_grow_trans p1 p2 p3 :
  pages_grow p1 p2 -> pages_grow p2 p3 -> pages_grow p1 p3.
Proof.
  intros (A3 & A4 & A5 & A6) (B3 & B4 & B5 & B6).
  repeat split; try congruence.
  intros r Hr. rewrite B6, A6; [done|done|]. rewrite A6; done.
Qed.

Lemma keeps_pages_refl s : keeps_pages s s.
Proof. repeat split; done. Qed.

Lemma keeps_pages_trans s1 s2 s3 :
  keeps_pages s1 s2 -> keeps_pages s2 s3 -> keeps_pages s1 s3.
Proof.
  intros (A1 & A2 & A3) (B1 & B2 & B3).
  split; [congruence|]. split; [congruence|]. eapply pages_grow_trans; eauto.
Qed.

Lemma keeps_pages_data s s' : data s' = data s -> keeps_pages s s'.
Proof.
  unfold data. intros [= H1 H2 H3]. unfold keeps_pages. rewrite H1, H2, H3.
  repeat split; done.
Qed.

Lemma pages_grow_history p p' :
  is_Some (arrays p !! historyRef p) -> pages_grow p p' -> history_of p' = history_of p.
Proof.
  intros Hs (_ & _ & Hr & Ha). unfold history_of. rewrite Hr, Ha; done.
Qed.

(** *** The repair of the parsed response *)

Lemma defaultScene_nonempty genre : defaultScene genre <> "".
Proof. unfold defaultScene. by apply app_nonempty_l. Qed.

Lemma repair_text_inv field clean v r :
  repair_text field clean v = Ok r ->
  r = None \/ exists s, v = JStr s /\ r = Some (clean s).
Proof.
  unfold repair_text. destruct (truthy v); [|intros [= <-]; by left].
  destruct v; try discriminate. intros [= <-]. right. eauto.
Qed.

Lemma repairBeat_wf genre d fin parsed b :
  repairBeat genre d fin parsed = Ok b ->
  let supplied := lookup_key "choices" (props_of parsed) in
  scene b <> "" /\
  focus_char b ∈ focusChars /\
  (focus_char b = "hero" \/ lookup_key "focus_char" (props_of parsed) = JStr (focus_char b)) /\
  (d = false -> choices b = JArr []) /\
  (d = true -> fin = false ->
     (choices b = defaultChoices \/ choices b = supplied) /\
     (truthy supplied = false -> choices b = defaultChoices) /\
     (forall l, supplied = JArr l -> (length l < 2)%nat -> choices b = defaultChoices) /\
     (forall l, supplied = JArr l -> (2 <= length l)%nat -> choices b = JArr l) /\
     (forall l, choices b = JArr l -> (2 <= length l)%nat)).
Proof.
  unfold repairBeat.
  destruct parsed as [| | | | |l|kvs]; try discriminate.
  all: set (kvs' := props_of _); cbv zeta.
  all: destruct (repair_text "dialogue" cleanDialogue _) as [dl|]; [|discriminate].
  all: destruct (repair_text "caption" cleanCaption _) as [cp|]; [|discriminate].
  all: cbn [mbind Result_bind].
  all: set (sc := match lookup_key "scene" kvs' with
                  | JStr s => if Str.nonempty s then s else defaultScene genre
                  | _ => defaultScene genre end).
  all: assert (Hsc : sc <> "") by
    (unfold sc; destruct (lookup_key "scene" kvs') as [| | | |s| |];
     try apply defaultScene_nonempty;
     destruct (Str.nonempty s) eqn:E; [by apply nonempty_true | apply defaultScene_nonempty]).
  all: set (fc := match lookup_key "focus_char" kvs' with
                  | JStr s => if bool_decide (s ∈ focusChars) then s else "hero"
                  | _ => "hero" end).
  all: assert (Hfc : fc ∈ focusChars /\ (fc = "hero" \/ lookup_key "focus_char" kvs' = JStr fc)) by
    (unfold fc; destruct (lookup_key "focus_char" kvs') as [| | | |s| |];
     try (split; [by left | by left]);
     case_bool_decide; [split; [done | by right] | split; [by left | by left]]).
  all: destruct d, fin; cbn [andb negb].
  all: try (intros [= <-]; cbn [scene focus_char choices];
            repeat split; try done; try (intros; discriminate); apply Hfc).
  all: destruct (truthy (lookup_key "choices" kvs')) eqn:Ht; cbn [negb].
  all: try (intros [= <-]; cbn [scene focus_char choices];
            repeat split; try done; try apply Hfc; try (by left);
            try (intros l0 Hl0; rewrite Hl0 in Ht; discriminate);
            try (intros l0 [= <-]; simpl; lia)).
  all: destruct (length_lt2 (lookup_key "choices" kvs')) as [[|]|] eqn:Hlen; [| |discriminate].
  all: intros [= <-]; cbn [scene focus_char choices].
  all: repeat split; try done; try apply Hfc; try (by left); try (by right);
       try congruence.
  all: try (intros l0 Hl0 Hlt; rewrite Hl0 in Hlen; simpl in Hlen;
            injection Hlen as Hlen; first [apply Nat.ltb_lt in Hlen | apply Nat.ltb_ge in Hlen]; lia).
  all: try (intros l0 [= <-]; simpl; lia).
  all: try (intros l0 Hl0; rewrite Hl0 in Hlen; simpl in Hlen;
            injection Hlen as Hlen; apply Nat.ltb_ge in Hlen; lia).
Qed.

(** *** Running the beat generator *)

Lemma calls_app a b : calls (a ++ b) = calls a ++ calls b.
Proof. apply List.filter_app. Qed.

Lemma coStarInstruction_run co lf s :
  exists fi s',
    coStarInstruction co lf s = (Ok fi, s', []) /\
    data s' = data s /\ ui s' = ui s /\ (clock s' = clock s \/ clock s' = S (clock s)).
Proof.
  unfold coStarInstruction.
  destruct (opt_set co); [destruct (negb (lf =? "friend")%string)|]; msimpl;
    do 2 eexists; (split; [reflexivity|]); repeat split; auto.
Qed.

Lemma requestBeat_run genre prompt n d fin s :
  exists s' evs,
    requestBeat genre prompt n d fin s =
      (beat_outcome genre d fin (api (clock s)), s', evs) /\
    data s' = data s /\ alarm s' = alarm s /\ sched_events evs = [] /\
    calls evs = [EvCall (TagBeat n) (beatRequest prompt) (api (clock s))].
Proof.
  unfold requestBeat, beat_outcome. msimpl. rewrite generateContent_run.
  unfold withTimeout. cbn [fst snd].
  destruct (api (clock s)) as [res|e|]; msimpl;
    try (do 2 eexists; split; [reflexivity|]; repeat split; reflexivity).
  destruct (JSON_parse (rawText res)) as [parsed|e]; msimpl;
    try (do 2 eexists; split; [reflexivity|]; repeat split; reflexivity).
  cbn [mbind Result_bind].
  destruct (repairBeat genre d fin parsed) as [b|e]; msimpl;
    do 2 eexists; (split; [reflexivity|]); repeat split; reflexivity.
Qed.

Lemma beatFailure_run n e s :
  exists s' evs,
    beatFailure n e s = (Ok (fallbackBeat n), s', evs) /\
    data s' = data s /\ sched_events evs = [] /\ calls evs = [].
Proof.
  unfold beatFailure. msimpl. destruct (isAuthMessage e).
  - rewrite handleAPIError_run. do 2 eexists. split; [reflexivity|].
    rewrite data_api_failed. repeat split; reflexivity.
  - rewrite addLog_run. do 2 eexists. split; [reflexivity|]. repeat split; reflexivity.
Qed.

Lemma generateBeat_no_hero h r n d s :
  hero (settings s) = None ->
  generateBeat h r n d s = (Throw (Error_ "No Hero"), s, []).
Proof. intros H. unfold generateBeat. msimpl. rewrite H. reflexivity. Qed.

Lemma generateBeat_run h r n d s :
  hero (settings s) <> None ->
  exists s' evs fi o,
    generateBeat h r n d s =
      (Ok (match beat_outcome (selectedGenre (settings s)) d
                   (n =? MAX_STORY_PAGES) o with
           | Ok b => b
           | Throw _ => fallbackBeat n
           end), s', evs) /\
    keeps_pages s s' /\
    sched_events evs = [] /\
    calls evs =
      [EvCall (TagBeat n)
         (beatRequest
            (beatPrompt (settings s) (issue s) (langName_of (selectedLanguage (settings s)))
               fi (relevant (array_at s h) n) (n =? MAX_STORY_PAGES) d n)) o].
Proof.
  intros Hh. unfold generateBeat. msimpl.
  destruct (hero (settings s)) as [p|]; [|done]. cbn [opt_set negb].
  rewrite addLog_run.
  destruct (relevantHistory_run h n (logged ("Drafting narrative arc for Page " +:+ pretty n +:+ "...") s))
    as (s1 & Hrel & Harr & Hk1 & Hui1 & Hc1).
  rewrite Hrel. cbn [fst snd].
  change (array_at (logged _ s) h) with (array_at s h) in Harr.
  change (arrays (pages (logged _ s))) with (arrays (pages s)) in *.
  rewrite Harr.
  destruct (coStarInstruction_run (friend (settings s)) (lastFocus_of (relevant (array_at s h) n)) s1)
    as (fi & s2 & Hco & Hd2 & Hui2 & Hc2).
  change (settings (logged _ s)) with (settings s).
  change (issue (logged _ s)) with (issue s).
  rewrite Hco.
  set (prompt := beatPrompt _ _ _ _ _ _ _ _).
  destruct (requestBeat_run (selectedGenre (settings s)) prompt n d (n =? MAX_STORY_PAGES) s2)
    as (s3 & ev3 & Hreq & Hd3 & _ & Hs3 & Hcalls3).
  rewrite Hreq.
  assert (Hk2 : keeps_pages s s2).
  { eapply keeps_pages_trans; [|apply keeps_pages_data, Hd2].
    eapply keeps_pages_trans; [|exact Hk1]. by apply keeps_pages_data. }
  destruct (beat_outcome _ _ _ (api (clock s2))) as [b|e] eqn:Hout.
  - exists s3, ([EvLog ("Drafting narrative arc for Page " +:+ pretty n +:+ "...")] ++ [] ++ [] ++ ev3),
      fi, (api (clock s2)).
    rewrite Hout. split; [reflexivity|].
    split; [eapply keeps_pages_trans; [exact Hk2 | by apply keeps_pages_data]|].
    rewrite !sched_events_app, !calls_app, Hs3, Hcalls3. split; reflexivity.
  - destruct (beatFailure_run n e s3) as (s4 & ev4 & Hf & Hd4 & Hs4 & Hc4).
    rewrite Hf.
    exists s4, ([EvLog ("Drafting narrative arc for Page " +:+ pretty n +:+ "...")] ++ [] ++ [] ++ ev3 ++ ev4),
      fi, (api (clock s2)).
    rewrite Hout. split; [reflexivity|].
    split.
    { eapply keeps_pages_trans; [exact Hk2|].
      eapply keeps_pages_trans; by apply keeps_pages_data. }
    rewrite !sched_events_app, !calls_app, Hs3, Hs4, Hcalls3, Hc4. split; reflexivity.
Qed.

Lemma elem_of_calls e evs : e ∈ evs -> is_call e = true -> e ∈ calls evs.
Proof.
  intros He Hc. unfold calls. apply list_elem_of_In, List.filter_In.
  split; [by apply list_elem_of_In | exact Hc].
Qed.







(** ** The page orchestrator *)

Lemma updateFaceState_run i u s :
  updateFaceState i u s = (Ok tt, with_pages (commit_pages i u) s, [EvCommit i u]).
Proof. reflexivity. Qed.

Lemma personaFailure_run e s :
  exists s' evs,
    personaFailure e s = (Throw e, s', evs) /\ data s' = data s /\ sched_events evs = [].
Proof.
  unfold personaFailure. msimpl. destruct (isAuthMessage e).
  - rewrite handleAPIError_run. do 2 eexists. split; [reflexivity|].
    rewrite data_api_failed. split; reflexivity.
  - do 2 eexists. split; [reflexivity|]. split; reflexivity.
Qed.

Lemma generatePersona_run description s :
  exists r s' evs,
    generatePersona description s = (r, s', evs) /\
    data s' = data s /\ sched_events evs = [].
Proof.
  unfold generatePersona. msimpl. rewrite addLog_run, generateContent_run.
  unfold withTimeout. cbn [fst snd].
  change (clock (logged _ s)) with (clock s).
  destruct (api (clock s)) as [res|e|]; msimpl;
    [destruct (inline_payload _) as [[i d]|]; msimpl;
       [rewrite addLog_run; do 3 eexists; split; [reflexivity|]; split; reflexivity|]
    | | ];
    match goal with
    | |- context [personaFailure ?e ?s1] =>
        destruct (personaFailure_run e s1) as (s2 & ev2 & Heq & Hd2 & Hs2); rewrite Heq
    end;
    do 3 eexists; (split; [reflexivity|]); (split; [exact Hd2|]);
    rewrite !sched_events_app, Hs2; reflexivity.
Qed.

Lemma backfill_persona_run beat t s :
  exists b' s' evs,
    backfill_persona beat t s = (Ok b', s', evs) /\
    scene b' = scene beat /\ sched_events evs = [] /\
    hero (settings s') = hero (settings s) /\ issue s' = issue s /\ pages s' = pages s.
Proof.
  unfold backfill_persona. msimpl.
  destruct (_ && _ && _); msimpl.
  2:{ do 3 eexists. split; [reflexivity|]. repeat split; reflexivity. }
  match goal with
  | |- context [generatePersona ?d ?s1] =>
      destruct (generatePersona_run d s1) as (r & s2 & ev2 & Heq & Hd & Hs); rewrite Heq
  end.
  injection Hd as Hset Hiss Hpg.
  destruct r as [p|e]; msimpl; do 3 eexists; (split; [reflexivity|]);
    rewrite ?sched_events_app, Hs; ssimpl; rewrite ?Hset, ?Hiss, ?Hpg;
    repeat split; reflexivity.
Qed.

Lemma beat_result_scene genre d fin o n :
  scene (match beat_outcome genre d fin o with
         | Ok b => b
         | Throw _ => fallbackBeat n
         end) <> "".
Proof.
  destruct (beat_outcome genre d fin o) as [b|e] eqn:Hout; [|discriminate].
  unfold beat_outcome in Hout. destruct o as [res|e|]; try discriminate.
  destruct (JSON_parse (rawText res)) as [parsed|e]; [|discriminate].
  cbn [mbind Result_bind] in Hout.
  by destruct (repairBeat_wf _ _ _ _ _ Hout) as (Hs & _).
Qed.

Lemma page_beat_run n t dec s :
  (t = story /\ hero (settings s) = None /\
   page_beat n t dec s = (Throw (Error_ "No Hero"), s, [])) \/
  (exists beat s' evs,
     page_beat n t dec s = (Ok beat, s', evs) /\
     keeps_pages s s' /\ sched_events evs = [] /\
     (t = cover -> scene beat = "") /\ (t <> cover -> scene beat <> "")).
Proof.
  unfold page_beat. destruct t.
  - right. do 3 eexists. split; [reflexivity|].
    split; [apply keeps_pages_refl|]. repeat split; done.
  - msimpl. destruct (hero (settings s)) as [h|] eqn:Hh.
    + right.
      assert (Hne : hero (settings s) <> None) by congruence.
      destruct (generateBeat_run (historyRef (pages s)) (Z.rem n 2 =? 0) n dec s Hne)
        as (s' & evs & fi & o & Heq & Hk & Hs & _).
      rewrite Heq. do 3 eexists. split; [reflexivity|].
      split; [exact Hk|]. split; [exact Hs|]. split; [discriminate|].
      intros _. apply beat_result_scene.
    + left. split; [reflexivity|]. split; [reflexivity|].
      by rewrite generateBeat_no_hero.
  - right. do 3 eexists. split; [reflexivity|].
    split; [apply keeps_pages_refl|]. repeat split; done.
Qed.

Lemma generateSinglePage_run fid n t s :
  (t = story /\ hero (settings s) = None /\
   generateSinglePage fid n t s = (Throw (Error_ "No Hero"), s, [])) \/
  (exists beat url p1 s' evs,
     generateSinglePage fid n t s = (Ok tt, s', evs) /\
     sched_events evs =
       [EvCommit fid (beat_update beat (bool_decide (n ∈ DECISION_PAGES)));
        EvCommit fid (image_update url)] /\
     pages_grow (pages s) p1 /\
     pages s' =
       commit_pages fid (image_update url)
         (commit_pages fid (beat_update beat (bool_decide (n ∈ DECISION_PAGES))) p1) /\
     hero (settings s') = hero (settings s) /\ issue s' = issue s /\
     (t = cover -> scene beat = "") /\ (t <> cover -> scene beat <> "")).
Proof.
  unfold generateSinglePage. msimpl.
  destruct (page_beat_run n t (bool_decide (n ∈ DECISION_PAGES)) s)
    as [(Ht & Hh & Heq)|(beat0 & s1 & ev1 & Heq & Hk1 & Hs1 & Hc & Hnc)]; rewrite Heq.
  { left. done. }
  right.
  destruct (backfill_persona_run beat0 t s1)
    as (beat & s2 & ev2 & Heq2 & Hsc & Hs2 & Hh2 & Hi2 & Hp2).
  rewrite Heq2, updateFaceState_run.
  match goal with
  | |- context [generateImage ?b ?t ?n ?s3] =>
      destruct (generateImage_run b t n s3) as (s4 & ev4 & o & Heq4 & _ & _ & Hd4 & _ & Hs4 & _);
      rewrite Heq4
  end.
  rewrite updateFaceState_run.
  injection Hd4 as Hset4 Hiss4 Hpg4.
  destruct Hk1 as (Hset1 & Hiss1 & Hg1).
  do 5 eexists. split; [reflexivity|].
  rewrite !sched_events_app, Hs1, Hs2, Hs4. ssimpl.
  split; [reflexivity|].
  split; [exact Hg1|].
  split; [by rewrite Hpg4; ssimpl; rewrite Hp2|].
  split; [by rewrite Hset4; ssimpl; rewrite Hh2, Hset1|].
  split; [by rewrite Hiss4; ssimpl; rewrite Hi2, Hiss1|].
  rewrite Hsc. split; assumption.
Qed.

(** ** The batch and issue scheduler *)

(** *** Issue rollover *)

Lemma generateSummary_run hist s :
  exists s' evs,
    generateSummary hist s = (Ok (recap_of hist (api (clock s))), s', evs) /\
    data s' = data s /\ alarm s' = alarm s /\ sched_events evs = [] /\
    (forall q o, EvCall TagSummary q o ∈ calls evs ->
       o = api (clock s) /\ Str.nonempty (summary_text hist) = true).
Proof.
  unfold generateSummary, recap_of. msimpl. rewrite addLog_run.
  destruct (Str.nonempty (summary_text hist)); cbn [negb].
  2:{ do 2 eexists. split; [reflexivity|]. repeat split; try reflexivity;
      elem_cases H. }
  msimpl. rewrite generateContent_run. unfold withTimeout. cbn [fst snd].
  change (clock (logged _ s)) with (clock s).
  destruct (api (clock s)) as [res|e|]; msimpl;
    do 2 eexists; (split; [reflexivity|]); repeat split; try reflexivity;
    elem_cases H; by injection H.
Qed.

Lemma recap_nonempty hist o : recap_of hist o <> "".
Proof.
  unfold recap_of. destruct (Str.nonempty (summary_text hist)); [|discriminate].
  destruct o as [res| |]; try discriminate.
  unfold opt_or. destruct (r_text res) as [t|]; [|discriminate].
  by apply or_else_nonempty.
Qed.

Lemma history_set_history arr s :
  history (with_pages (set_history arr) s) = arr.
Proof.
  unfold history, array_at, set_history. simpl. by rewrite lookup_insert_eq.
Qed.

(** Claim C7.  The rollover of [handleNextIssue] never fails; it appends to
    the carried summary, which it keeps, a recap that is not empty whatever
    the summary call does, and that is the [story continues] stub when the
    call rejects or times out; it adds exactly 1 to the issue counter and sets
    the finale flag to its argument; and it leaves the page collection, the
    history and the in-flight guard empty.  The relaunch of
    [handleNextIssue] starts from that state. *)
Theorem C7_issue_rollover finale s :
  let run := rollover finale s in
  exists recap,
    result_of run = Ok tt /\
    recap <> "" /\
    previousSummary (issue (state_of run)) =
      previousSummary (issue s) +:+ Str.newline +:+ "[Issue " +:+
      pretty (issueNumber (issue s)) +:+ " Summary]: " +:+ recap /\
    (forall q o, EvCall TagSummary q o ∈ events_of run ->
       (forall res, o <> Resolves res) -> recap = "The story continues...") /\
    issueNumber (issue (state_of run)) = issueNumber (issue s) + 1 /\
    isFinale (issue (state_of run)) = finale /\
    comicFaces (pages (state_of run)) = [] /\
    history (state_of run) = [] /\
    generatingPages (pages (state_of run)) = ∅ /\
    handleNextIssue finale s =
      (let '(r, s1, ev1) := startIssueGeneration true (state_of run) in
       (r, s1, events_of run ++ ev1)).
Proof.
  cbv zeta.
  assert (Hnext : handleNextIssue finale s =
    (let '(r, s1, ev1) := startIssueGeneration true (state_of (rollover finale s)) in
     (r, s1, events_of (rollover finale s) ++ ev1))).
  { unfold handleNextIssue. msimpl.
    assert (Hok : exists s1 ev1, rollover finale s = (Ok tt, s1, ev1)).
    { unfold rollover. msimpl.
      destruct (generateSummary_run (history s) s) as (s1 & ev1 & -> & _).
      rewrite addLog_run. do 2 eexists. reflexivity. }
    destruct Hok as (s1 & ev1 & ->). reflexivity. }
  rewrite Hnext. clear Hnext.
  unfold rollover. msimpl.
  destruct (generateSummary_run (history s) s) as (s1 & ev1 & -> & Hd & _ & _ & Hcall).
  rewrite addLog_run. cbn [fst snd].
  injection Hd as Hset Hiss Hpg.
  exists (recap_of (history s) (api (clock s))).
  split; [reflexivity|]. split; [apply recap_nonempty|].
  split; [cbn; by rewrite Hiss|].
  split.
  { intros q o Hin Hno.
    apply elem_of_calls in Hin; [|reflexivity].
    rewrite !calls_app in Hin. cbn in Hin. rewrite !app_nil_r in Hin.
    apply Hcall in Hin as [-> Hne]. unfold recap_of. rewrite Hne.
    destruct (api (clock s)) as [res| |]; [by destruct (Hno res)|done|done]. }
  repeat split; try (cbn; by rewrite ?Hiss).
  apply history_set_history.
Qed.

(** *** Launch *)

(** Claim C9.  Without a hero persona, or with the genre [Custom] and a
    premise that is empty or white space only, [launchStory] returns before
    any generation starts: it makes no model call and commits nothing, and
    it leaves the settings, the issue counter, the finale flag, the carried
    summary, the page collection, the history and the in-flight guard as they
    were. *)
Theorem C9_launch_guard s :
  hero (settings s) = None \/
  (selectedGenre (settings s) = "Custom" /\ Str.trim (customPremise (settings s)) = "") ->
  let run := launchStory s in
  result_of run = Ok tt /\
  calls (events_of run) = [] /\
  sched_events (events_of run) = [] /\
  settings (state_of run) = settings s /\
  issue (state_of run) = issue s /\
  pages (state_of run) = pages s.
Proof.
  intros H. cbv zeta. unfold launchStory. msimpl. ssimpl.
  destruct (validateApiKey (clock s) (showApiKeyDialog (ui s))) as [hasKey dialog'].
  destruct hasKey; cbn [negb]; ssimpl; [|repeat split].
  destruct (hero (settings s)) as [h|] eqn:Hh; cbn [opt_set negb]; [|repeat split].
  destruct H as [H|[Hg Hp]]; [discriminate|].
  rewrite Hg, Hp. cbn. repeat split.
Qed.

(** *** The batch *)

Lemma pagesToGen_spec guard startPage count p :
  p ∈ pagesToGen guard startPage count <->
  startPage <= p < startPage + count /\ p <= TOTAL_PAGES /\ p ∉ guard.
Proof.
  unfold pagesToGen.
  rewrite list_elem_of_In, filter_In, <- list_elem_of_In, elem_of_seqZ.
  rewrite andb_true_iff, negb_true_iff, bool_decide_eq_false, Z.leb_le.
  tauto.
Qed.

Lemma seqZ_sorted m n : StronglySorted Z.lt (seqZ m n).
Proof.
  remember (Z.to_nat n) as k eqn:Hk. revert m n Hk.
  induction k as [|k IH]; intros m n Hk.
  - rewrite seqZ_nil by lia. constructor.
  - rewrite seqZ_cons by lia. constructor.
    + apply IH. lia.
    + apply Forall_forall. intros x Hx. apply elem_of_seqZ in Hx. lia.
Qed.

Lemma filter_sorted {A} (R : A -> A -> Prop) (f : A -> bool) l :
  StronglySorted R l -> StronglySorted R (List.filter f l).
Proof.
  induction 1 as [|a l Hl IH Ha]; simpl; [constructor|].
  destruct (f a); [|exact IH]. constructor; [exact IH|].
  apply Forall_forall. intros x Hx.
  apply list_elem_of_In, filter_In in Hx as [Hx _].
  rewrite Forall_forall in Ha. apply Ha. by apply list_elem_of_In.
Qed.

Lemma pagesToGen_sorted guard startPage count :
  StronglySorted Z.lt (pagesToGen guard startPage count).
Proof. apply filter_sorted, seqZ_sorted. Qed.

Lemma page_type_not_cover n : page_type n <> cover.
Proof. unfold page_type. by destruct (n =? BACK_COVER_PAGE). Qed.

Lemma page_id_not_cover n : page_id n <> "cover".
Proof. unfold page_id. rewrite append_cons. discriminate. Qed.

Lemma guard_delete_run n s :
  guard_delete n s =
  (Ok tt, with_pages (fun p => set_generatingPages (generatingPages p ∖ {[n]}) p) s, []).
Proof. reflexivity. Qed.

Lemma batchStep_run n s :
  (page_type n = story /\ hero (settings s) = None /\
   batchStep n s = (Throw (Error_ "No Hero"), s, [])) \/
  (exists beat url s' evs,
     batchStep n s = (Ok tt, s', evs) /\
     sched_events evs = page_block n (beat, url) /\
     hero (settings s') = hero (settings s) /\
     scene beat <> "").
Proof.
  unfold batchStep. msimpl.
  destruct (generateSinglePage_run (page_id n) n (page_type n) s)
    as [(Ht & Hh & Heq)|(beat & url & p1 & s1 & ev1 & Heq & Hs & _ & _ & Hh & _ & _ & Hsc)];
    rewrite Heq.
  { left. done. }
  right. exists beat, url. do 2 eexists. split; [reflexivity|].
  rewrite !sched_events_app, Hs. split; [reflexivity|].
  split; [exact Hh|]. apply Hsc, page_type_not_cover.
Qed.

(** The loop over the scheduled pages: the pages are taken in the order of the
    list, each with its two commits and its wait, up to the first page that
    fails; with a hero set no page fails. *)
Lemma batch_loop_run toGen s :
  exists done r s' evs,
    for_each toGen batchStep s = (r, s', evs) /\
    (length done <= length toGen)%nat /\
    sched_events evs = concat (zip_with page_block toGen done) /\
    Forall (fun d => scene d.1 <> "") done /\
    (hero (settings s) <> None -> r = Ok tt /\ length done = length toGen).
Proof.
  revert s. induction toGen as [|n l IH]; intros s.
  - exists []. do 3 eexists. split; [reflexivity|].
    split; [simpl; lia|]. split; [reflexivity|]. split; [constructor|]. done.
  - cbn [for_each]. msimpl.
    destruct (batchStep_run n s)
      as [(_ & Hh & Heq)|(beat & url & s1 & ev1 & Heq & Hs & Hh & Hsc)]; rewrite Heq.
    + exists []. do 3 eexists. split; [reflexivity|].
      split; [simpl; lia|]. split; [reflexivity|]. split; [constructor|]. done.
    + destruct (IH s1) as (done & r & s2 & ev2 & Heq2 & Hlen & Hs2 & Hall & Hfull).
      rewrite Heq2. exists ((beat, url) :: done). do 3 eexists.
      split; [reflexivity|].
      split; [simpl; lia|].
      split; [by rewrite sched_events_app, Hs, Hs2|].
      split; [by constructor|].
      intros Hne. rewrite <- Hh in Hne. destruct (Hfull Hne) as [-> Hl].
      split; [reflexivity|]. simpl. by rewrite Hl.
Qed.

Lemma guard_loop_run toGen s :
  exists s', for_each toGen guard_delete s = (Ok tt, s', []).
Proof.
  revert s. induction toGen as [|n l IH]; intros s.
  - eexists. reflexivity.
  - cbn [for_each]. msimpl. rewrite guard_delete_run.
    destruct (IH (with_pages (fun p => set_generatingPages (generatingPages p ∖ {[n]}) p) s))
      as (s' & ->).
    eexists. reflexivity.
Qed.

Lemma runBatch_run toGen s :
  exists done s' evs,
    runBatch toGen s = (Ok tt, s', evs) /\
    (length done <= length toGen)%nat /\
    sched_events evs = concat (zip_with page_block toGen done) /\
    Forall (fun d => scene d.1 <> "") done /\
    (hero (settings s) <> None -> length done = length toGen).
Proof.
  unfold runBatch. msimpl.
  destruct (batch_loop_run toGen s) as (done & r & s1 & ev1 & Heq & Hlen & Hs & Hall & Hfull).
  rewrite Heq. exists done.
  destruct r as [[]|e].
  - destruct (guard_loop_run toGen s1) as (s2 & ->).
    do 2 eexists. split; [reflexivity|]. split; [exact Hlen|].
    split; [by rewrite app_nil_r|]. split; [exact Hall|].
    intros Hne. by destruct (Hfull Hne).
  - destruct (guard_loop_run toGen s1) as (s2 & ->).
    do 2 eexists. split; [reflexivity|]. split; [exact Hlen|].
    split; [by rewrite app_nil_r, sched_events_app, Hs, app_nil_r|].
    split; [exact Hall|].
    intros Hne. by destruct (Hfull Hne).
Qed.

Lemma scheduleBatch_run toGen s :
  exists s',
    scheduleBatch toGen s = (Ok tt, s', []) /\
    settings s' = settings s /\ issue s' = issue s /\
    generatingPages (pages s') = list_to_set toGen ∪ generatingPages (pages s).
Proof. eexists. split; [reflexivity|]. repeat split. Qed.

(** Claim C6.  For every call [generateBatch startPage count]: the pages it
    schedules are exactly the page numbers from [startPage] up to, and without,
    [startPage + count] that are at most [TOTAL_PAGES] and not in the in-flight
    guard, in ascending order; with no such page nothing happens; otherwise
    all of them enter the guard in the synchronous head of the call, which
    emits nothing, and the page loop starts from there; the call never fails;
    and the commits and waits of the call are, page after page in the order
    of the list, the commit of the beat, the commit of the image and the wait
    of 1000 ms of that page, for all the scheduled pages when a hero is set
    (without one the loop ends at the first story page). *)
Theorem C6_generateBatch_schedule startPage count s :
  let guard := generatingPages (pages s) in
  let toGen := pagesToGen guard startPage count in
  let head := scheduleBatch toGen s in
  let run := generateBatch startPage count s in
  (forall p, p ∈ toGen <->
     startPage <= p < startPage + count /\ p <= TOTAL_PAGES /\ p ∉ guard) /\
  StronglySorted Z.lt toGen /\
  (toGen = [] -> run = (Ok tt, s, [])) /\
  (toGen <> [] ->
     events_of head = [] /\
     generatingPages (pages (state_of head)) = list_to_set toGen ∪ guard /\
     run = runBatch toGen (state_of head)) /\
  result_of run = Ok tt /\
  exists done : list (Beat * string),
    (length done <= length toGen)%nat /\
    (hero (settings s) <> None -> length done = length toGen) /\
    sched_events (events_of run) = concat (zip_with page_block toGen done).
Proof.
  cbv zeta.
  split; [apply pagesToGen_spec|]. split; [apply pagesToGen_sorted|].
  unfold generateBatch. msimpl.
  destruct (pagesToGen (generatingPages (pages s)) startPage count) as [|n l] eqn:Hgen.
  { split; [done|]. split; [done|]. split; [reflexivity|].
    exists []. split; [simpl; lia|]. split; [done|]. reflexivity. }
  split; [discriminate|].
  destruct (scheduleBatch_run (n :: l) s) as (s1 & Hhead & Hset & _ & Hguard).
  rewrite Hhead. cbn [fst snd].
  destruct (runBatch_run (n :: l) s1) as (done & s2 & evs & Hrun & Hlen & Hs & _ & Hfull).
  rewrite Hrun. cbn [app].
  split; [intros _; split; [reflexivity|]; split; [exact Hguard | reflexivity]|].
  split; [reflexivity|].
  exists done. split; [exact Hlen|]. split; [by rewrite <- Hset | exact Hs].
Qed.

(** ** The invariant of the pages *)

(** *** Faces *)

Lemma face_ok_new n : face_ok (new_face (page_id n) (page_type n) n).
Proof.
  split; [|discriminate]. cbn. split; intros H.
  - by destruct (page_id_not_cover n).
  - by destruct (page_type_not_cover n).
Qed.

Lemma face_ok_cover : face_ok coverFace.
Proof. split; [done|discriminate]. Qed.

Lemma face_ok_merge f u : update_ok (id f) u -> face_ok f -> face_ok (merge_face f u).
Proof.
  intros Hu [Hid Hn]. split; [exact Hid|]. cbn. intros b Hb.
  destruct (u_narrative u) as [b'|] eqn:Hb'; [|by apply Hn].
  injection Hb as <-. destruct (Hu b' Hb') as [Hc Hnc].
  split; intros Ht.
  - by apply Hc, Hid.
  - apply Hnc. intros Hi. by apply Ht, Hid.
Qed.

Lemma faces_ok_commit i u l :
  update_ok i u -> faces_ok l ->
  faces_ok (List.map (fun f => if String.eqb (id f) i then merge_face f u else f) l).
Proof.
  intros Hu. induction 1 as [|f l Hf Hl IH]; simpl; constructor; [|exact IH].
  destruct (String.eqb_spec (id f) i) as [<-|_]; [by apply face_ok_merge | exact Hf].
Qed.

Lemma faces_ok_new toGen :
  faces_ok (List.map (fun n => new_face (page_id n) (page_type n) n) toGen).
Proof. induction toGen; simpl; constructor; [apply face_ok_new | done]. Qed.

Lemma faces_ok_filter (f : ComicFace -> bool) l : faces_ok l -> faces_ok (List.filter f l).
Proof.
  induction 1 as [|x l Hx Hl IH]; simpl; [constructor|].
  destruct (f x); [by constructor | exact IH].
Qed.

Lemma faces_ok_push fs arr : faces_ok fs -> faces_ok arr -> faces_ok (push_missing fs arr).
Proof.
  intros Hfs. revert arr. induction Hfs as [|f fs Hf Hfs IH]; intros arr Harr; [exact Harr|].
  simpl. apply IH. destruct (opt_set _); [exact Harr|].
  apply Forall_app. split; [exact Harr | by constructor].
Qed.

Lemma findIndex_lookup i l idx f :
  findIndex i l = Some idx -> l !! idx = Some f -> id f = i.
Proof.
  revert idx. induction l as [|g l IH]; intros idx; simpl; [discriminate|].
  destruct (String.eqb_spec (id g) i) as [Heq|Hne].
  - intros [= <-]. simpl. by intros [= <-].
  - destruct (findIndex i l) as [k|]; [|discriminate]. simpl. intros [= <-]. simpl.
    by apply IH.
Qed.

(** *** Pages *)

Lemma commit_pages_ok i u p : update_ok i u -> pages_ok p -> pages_ok (commit_pages i u p).
Proof.
  intros Hu (Hsome & Hc & Hh).
  assert (Hc' := faces_ok_commit i u _ Hu Hc).
  unfold commit_pages, update_history, pages_ok, history_of in *.
  cbn [arrays historyRef comicFaces set_comicFaces].
  destruct (findIndex i (default [] (arrays p !! historyRef p))) as [idx|] eqn:Hidx;
    [|by cbn].
  destruct (default [] (arrays p !! historyRef p) !! idx) as [f|] eqn:Hf; [|by cbn].
  cbn. rewrite lookup_insert_eq. split; [by eexists|]. split; [exact Hc'|].
  cbn. apply Forall_insert; [exact Hh|].
  apply face_ok_merge.
  - by rewrite (findIndex_lookup _ _ _ _ Hidx Hf).
  - exact (Forall_lookup_1 _ _ _ _ Hh Hf).
Qed.

Lemma pages_grow_ok p p' : pages_grow p p' -> pages_ok p -> pages_ok p'.
Proof.
  intros Hg (Hsome & Hc & Hh).
  assert (Hhist := pages_grow_history _ _ Hsome Hg).
  destruct Hg as (Hf & _ & Hr & Ha).
  split; [by rewrite Hr, Ha|]. split; [by rewrite Hf | by rewrite Hhist].
Qed.

Lemma set_generatingPages_ok g p : pages_ok p -> pages_ok (set_generatingPages g p).
Proof. done. Qed.

Lemma set_history_ok arr p :
  faces_ok arr -> faces_ok (comicFaces p) -> pages_ok (set_history arr p).
Proof.
  intros Harr Hc. unfold pages_ok, history_of, set_history. cbn.
  rewrite lookup_insert_eq. split; [by eexists|]. by split.
Qed.

Lemma update_ok_image i url : update_ok i (image_update url).
Proof. intros b. discriminate. Qed.

Lemma update_ok_choice i choice : update_ok i (choice_update choice).
Proof. intros b. discriminate. Qed.

(** *** Computations that keep the invariant *)

Lemma preserves_ret {A} (a : A) : preserves (mret a).
Proof. intros s Hs. exact Hs. Qed.

Lemma preserves_throw {A} e : preserves (throw (A:=A) e).
Proof. intros s Hs. exact Hs. Qed.

Lemma preserves_gets {A} (f : AppState -> A) : preserves (gets f).
Proof. intros s Hs. exact Hs. Qed.

Lemma preserves_emit e : preserves (emit e).
Proof. intros s Hs. exact Hs. Qed.

Lemma preserves_tick : preserves tick.
Proof. intros s Hs. exact Hs. Qed.

Lemma preserves_bind {A B} (m : M A) (k : A -> M B) :
  preserves m -> (forall a, preserves (k a)) -> preserves (m ≫= k).
Proof.
  intros Hm Hk s Hs. specialize (Hm s Hs). unfold state_of in *. msimpl.
  destruct (m s) as [[[a|e] s1] ev1]; [|exact Hm].
  specialize (Hk a s1 Hm). unfold state_of in Hk.
  by destruct (k a s1) as [[r s2] ev2].
Qed.

Lemma preserves_try_catch {A} (m : M A) h :
  preserves m -> (forall e, preserves (h e)) -> preserves (try_catch m h).
Proof.
  intros Hm Hh s Hs. specialize (Hm s Hs). unfold state_of in *. msimpl.
  destruct (m s) as [[[a|e] s1] ev1]; [exact Hm|].
  specialize (Hh e s1 Hm). unfold state_of in Hh.
  by destruct (h e s1) as [[r s2] ev2].
Qed.

Lemma preserves_finally {A} (m : M A) f :
  preserves m -> preserves f -> preserves (finally m f).
Proof.
  intros Hm Hf s Hs. specialize (Hm s Hs). unfold state_of in *. msimpl.
  destruct (m s) as [[r s1] ev1].
  specialize (Hf s1 Hm). unfold state_of in Hf.
  by destruct (f s1) as [[r2 s2] ev2].
Qed.

Lemma preserves_for_each {A} (l : list A) body :
  (forall x, preserves (body x)) -> preserves (for_each l body).
Proof.
  intros Hb. induction l as [|x l IH]; [apply (preserves_ret tt)|].
  exact (preserves_bind (body x) (fun _ => for_each l body) (Hb x) (fun _ => IH)).
Qed.

Lemma preserves_pages (g : Pages -> Pages) :
  (forall p, pages_ok p -> pages_ok (g p)) -> preserves (modify (with_pages g)).
Proof. intros Hg s Hs. by apply Hg. Qed.

Lemma preserves_ui f : preserves (modify (with_ui f)).
Proof. intros s Hs. exact Hs. Qed.

Lemma preserves_settings f : preserves (modify (with_settings f)).
Proof. intros s Hs. exact Hs. Qed.

Lemma preserves_issue f : preserves (modify (with_issue f)).
Proof. intros s Hs. exact Hs. Qed.

Lemma preserves_addLog msg : preserves (addLog msg).
Proof. intros s Hs. exact Hs. Qed.

Lemma preserves_updateFaceState i u : update_ok i u -> preserves (updateFaceState i u).
Proof. intros Hu s Hs. rewrite updateFaceState_run. by apply commit_pages_ok. Qed.

Lemma preserves_generateSummary hist : preserves (generateSummary hist).
Proof.
  intros s Hs. destruct (generateSummary_run hist s) as (s' & evs & -> & Hd & _).
  injection Hd as _ _ Hp. unfold state_of. cbn. by rewrite Hp.
Qed.

Lemma preserves_generateSinglePage fid n t :
  (fid = "cover" <-> t = cover) -> preserves (generateSinglePage fid n t).
Proof.
  intros Hfid s Hs.
  destruct (generateSinglePage_run fid n t s)
    as [(_ & _ & ->)|(beat & url & p1 & s' & evs & -> & _ & Hg & Hp & _ & _ & Hc & Hnc)];
    [exact Hs|].
  unfold state_of. cbn. rewrite Hp.
  apply commit_pages_ok; [apply update_ok_image|].
  apply commit_pages_ok; [|by eapply pages_grow_ok].
  intros b [= <-]. split; intros H.
  - by apply Hc, Hfid.
  - apply Hnc. intros Ht. by apply H, Hfid.
Qed.

Ltac pres :=
  repeat match goal with
  | |- preserves (mbind _ _) => apply preserves_bind; [|intros ?]
  | |- preserves (mret _) => apply preserves_ret
  | |- preserves (throw _) => apply preserves_throw
  | |- preserves (gets _) => apply preserves_gets
  | |- preserves (emit _) => apply preserves_emit
  | |- preserves tick => apply preserves_tick
  | |- preserves (addLog _) => apply preserves_addLog
  | |- preserves (modify (with_ui _)) => apply preserves_ui
  | |- preserves (modify (with_settings _)) => apply preserves_settings
  | |- preserves (modify (with_issue _)) => apply preserves_issue
  | |- preserves (modify (with_pages _)) => apply preserves_pages; intros ? ?
  | |- preserves (try_catch _ _) => apply preserves_try_catch; [|intros ?]
  | |- preserves (finally _ _) => apply preserves_finally
  | |- preserves (for_each _ _) => apply preserves_for_each; intros ?
  | |- preserves (if ?b then _ else _) => destruct b
  end.

Lemma preserves_guard_delete n : preserves (guard_delete n).
Proof. unfold guard_delete. pres. done. Qed.

Lemma preserves_scheduleBatch toGen : preserves (scheduleBatch toGen).
Proof.
  unfold scheduleBatch. pres.
  - done.
  - destruct H as (Hsome & Hc & Hh). split; [exact Hsome|]. split; [|exact Hh].
    cbn. apply Forall_app. split; [exact Hc|]. apply faces_ok_filter, faces_ok_new.
  - destruct H as (Hsome & Hc & Hh). unfold pages_ok, history_of. cbn.
    rewrite lookup_insert_eq. split; [by eexists|]. split; [exact Hc|].
    cbn. apply faces_ok_push; [apply faces_ok_new | exact Hh].
Qed.

Lemma preserves_batchStep n : preserves (batchStep n).
Proof.
  unfold batchStep. pres.
  - apply preserves_generateSinglePage. split; intros H.
    + by destruct (page_id_not_cover n).
    + by destruct (page_type_not_cover n).
  - apply preserves_guard_delete.
Qed.

Lemma preserves_runBatch toGen : preserves (runBatch toGen).
Proof.
  unfold runBatch. pres; [apply preserves_batchStep | apply preserves_guard_delete].
Qed.

Lemma preserves_generateBatch startPage count : preserves (generateBatch startPage count).
Proof.
  unfold generateBatch. pres;
    [apply preserves_scheduleBatch | apply preserves_runBatch].
Qed.

Lemma preserves_afterTransition : preserves afterTransition.
Proof. unfold afterTransition. pres; apply preserves_generateBatch. Qed.

Lemma preserves_startIssueGeneration isNewIssue : preserves (startIssueGeneration isNewIssue).
Proof.
  unfold startIssueGeneration. pres; cbn [negb]; pres.
  - destruct H as (Hsome & _ & Hh). split; [exact Hsome|]. split; [|exact Hh].
    constructor; [apply face_ok_cover | constructor].
  - apply set_history_ok; [constructor; [apply face_ok_cover | constructor]|].
    by destruct H as (_ & Hc & _).
  - done.
  - by apply preserves_generateSinglePage.
  - apply preserves_guard_delete.
  - apply preserves_afterTransition.
Qed.

Lemma preserves_launchStory : preserves launchStory.
Proof.
  unfold launchStory. pres.
  destruct (validateApiKey _ _) as [hasKey dialog']. pres.
  destruct (pick _ _) as [t|]; pres. apply preserves_startIssueGeneration.
Qed.

Lemma preserves_rollover finale : preserves (rollover finale).
Proof.
  unfold rollover. pres.
  - apply preserves_generateSummary.
  - destruct H as (Hsome & _ & Hh). split; [exact Hsome|]. split; [constructor | exact Hh].
  - apply set_history_ok; [constructor|]. by destruct H as (_ & Hc & _).
  - done.
Qed.

Lemma preserves_handleNextIssue finale : preserves (handleNextIssue finale).
Proof.
  unfold handleNextIssue. pres;
    [apply preserves_rollover | apply preserves_startIssueGeneration].
Qed.

Lemma preserves_handleChoice n choice : preserves (handleChoice n choice).
Proof.
  unfold handleChoice. pres.
  - apply preserves_updateFaceState, update_ok_choice.
  - destruct (maxPage _) as [m|]; pres. apply preserves_generateBatch.
Qed.

Lemma preserves_resetApp : preserves resetApp.
Proof.
  unfold resetApp. pres.
  - destruct H as (Hsome & _ & Hh). split; [exact Hsome|]. split; [constructor | exact Hh].
  - apply set_history_ok; [constructor|]. by destruct H as (_ & Hc & _).
  - done.
Qed.

Lemma preserves_run_command c : preserves (run_command c).
Proof.
  destruct c; cbn [run_command]; pres.
  - apply preserves_launchStory.
  - apply preserves_handleChoice.
  - apply preserves_handleNextIssue.
  - apply preserves_resetApp.
Qed.

Lemma reachable_pages_ok s : reachable s -> pages_ok (pages s).
Proof.
  induction 1 as [g|s c Hr IH Hc].
  - split; [by eexists|]. split; constructor.
  - by apply preserves_run_command.
Qed.

(** Claim C5.  In every state a session reaches, a page of the page
    collection or of the history that has a beat attached is in one of two
    cases: it is the cover, and the scene of its beat, the fixed stub, is the
    empty string; or it is a story page or the back cover, and the scene of
    its beat is a non-empty string. *)
Theorem C5_page_scenes s f b :
  reachable s ->
  f ∈ comicFaces (pages s) \/ f ∈ history s ->
  narrative f = Some b ->
  (type f = cover -> scene b = "") /\ (type f <> cover -> scene b <> "").
Proof.
  intros Hr Hin Hb. destruct (reachable_pages_ok s Hr) as (_ & Hc & Hh).
  unfold faces_ok in Hc, Hh. rewrite Forall_forall in Hc, Hh.
  destruct Hin as [Hin|Hin]; [by apply (Hc f Hin)|by apply (Hh f Hin)].
Qed.

(** ** Properties kept through a session *)

Lemma state_bind_ok {A B} (m : M A) (k : A -> M B) s a s1 ev :
  m s = (Ok a, s1, ev) -> state_of ((m ≫= k) s) = state_of (k a s1).
Proof.
  intros H. unfold state_of. msimpl. rewrite H. by destruct (k a s1) as [[r s2] ev2].
Qed.

Section Keeps.

Context (I : AppState -> Prop).
Hypothesis I_pages : forall s s', pages s' = pages s -> I s -> I s'.

Lemma keeps_ret {A} (a : A) : keeps I (mret a).
Proof. intros s Hs. exact Hs. Qed.

Lemma keeps_throw {A} e : keeps I (throw (A:=A) e).
Proof. intros s Hs. exact Hs. Qed.

Lemma keeps_gets {A} (f : AppState -> A) : keeps I (gets f).
Proof. intros s Hs. exact Hs. Qed.

Lemma keeps_emit e : keeps I (emit e).
Proof. intros s Hs. exact Hs. Qed.

Lemma keeps_bind {A B} (m : M A) (k : A -> M B) :
  keeps I m -> (forall a, keeps I (k a)) -> keeps I (m ≫= k).
Proof.
  intros Hm Hk s Hs. specialize (Hm s Hs). unfold state_of in *. msimpl.
  destruct (m s) as [[[a|e] s1] ev1]; [|exact Hm].
  specialize (Hk a s1 Hm). unfold state_of in Hk.
  by destruct (k a s1) as [[r s2] ev2].
Qed.

Lemma keeps_from {A B} (m : M A) (k : A -> M B) s :
  I (state_of (m s)) -> (forall a, keeps I (k a)) -> I (state_of ((m ≫= k) s)).
Proof.
  intros Hm Hk. unfold state_of in *. msimpl.
  destruct (m s) as [[[a|e] s1] ev1]; [|exact Hm].
  specialize (Hk a s1 Hm). unfold state_of in Hk.
  by destruct (k a s1) as [[r s2] ev2].
Qed.

Lemma keeps_try_catch {A} (m : M A) h :
  keeps I m -> (forall e, keeps I (h e)) -> keeps I (try_catch m h).
Proof.
  intros Hm Hh s Hs. specialize (Hm s Hs). unfold state_of in *. msimpl.
  destruct (m s) as [[[a|e] s1] ev1]; [exact Hm|].
  specialize (Hh e s1 Hm). unfold state_of in Hh.
  by destruct (h e s1) as [[r s2] ev2].
Qed.

Lemma keeps_finally {A} (m : M A) f :
  keeps I m -> keeps I f -> keeps I (finally m f).
Proof.
  intros Hm Hf s Hs. specialize (Hm s Hs). unfold state_of in *. msimpl.
  destruct (m s) as [[r s1] ev1].
  specialize (Hf s1 Hm). unfold state_of in Hf.
  by destruct (f s1) as [[r2 s2] ev2].
Qed.

Lemma keeps_for_each {A} (l : list A) body :
  (forall x, keeps I (body x)) -> keeps I (for_each l body).
Proof.
  intros Hb. induction l as [|x l IH]; [apply (keeps_ret tt)|].
  exact (keeps_bind (body x) (fun _ => for_each l body) (Hb x) (fun _ => IH)).
Qed.

Lemma keeps_tick : keeps I tick.
Proof. intros s Hs. by apply (I_pages s). Qed.

Lemma keeps_ui f : keeps I (modify (with_ui f)).
Proof. intros s Hs. by apply (I_pages s). Qed.

Lemma keeps_settings f : keeps I (modify (with_settings f)).
Proof. intros s Hs. by apply (I_pages s). Qed.

Lemma keeps_issue f : keeps I (modify (with_issue f)).
Proof. intros s Hs. by apply (I_pages s). Qed.

Lemma keeps_addLog msg : keeps I (addLog msg).
Proof. intros s Hs. by apply (I_pages s). Qed.

Lemma keeps_generateSummary hist : keeps I (generateSummary hist).
Proof.
  intros s Hs. destruct (generateSummary_run hist s) as (s' & evs & -> & Hd & _).
  injection Hd as _ _ Hp. by apply (I_pages s).
Qed.

End Keeps.

Ltac kp Hp :=
  repeat match goal with
  | |- keeps _ (mbind _ _) => apply keeps_bind; [|intros ?]
  | |- keeps _ (mret _) => apply keeps_ret
  | |- keeps _ (throw _) => apply keeps_throw
  | |- keeps _ (gets _) => apply keeps_gets
  | |- keeps _ (emit _) => apply keeps_emit
  | |- keeps _ tick => apply (keeps_tick _ Hp)
  | |- keeps _ (addLog _) => apply (keeps_addLog _ Hp)
  | |- keeps _ (modify (with_ui _)) => apply (keeps_ui _ Hp)
  | |- keeps _ (modify (with_settings _)) => apply (keeps_settings _ Hp)
  | |- keeps _ (modify (with_issue _)) => apply (keeps_issue _ Hp)
  | |- keeps _ (generateSummary _) => apply (keeps_generateSummary _ Hp)
  | |- keeps _ (try_catch _ _) => apply keeps_try_catch; [|intros ?]
  | |- keeps _ (finally _ _) => apply keeps_finally
  | |- keeps _ (for_each _ _) => apply keeps_for_each; intros ?
  | |- keeps _ (if ?b then _ else _) => destruct b
  end.

(** A choice keeps what the commit of a choice and the batches keep. *)
Lemma keeps_handleChoice (I : AppState -> Prop) :
  (forall s s', pages s' = pages s -> I s -> I s') ->
  (forall i choice, keeps I (updateFaceState i (choice_update choice))) ->
  (forall startPage count, keeps I (generateBatch startPage count)) ->
  forall n choice, keeps I (handleChoice n choice).
Proof.
  intros I_pages K_commit K_batch n choice.
  unfold handleChoice. kp I_pages.
  - apply K_commit.
  - destruct (maxPage _) as [m|]; kp I_pages. apply K_batch.
Qed.

(** A property of the pages that a choice, the batches from page 1 on, the
    generation of the cover and the hard reset keep holds after every
    command. *)
Section Session.

Context (I : AppState -> Prop).
Hypothesis I_pages : forall s s', pages s' = pages s -> I s -> I s'.
Hypothesis K_choice : forall n choice, keeps I (handleChoice n choice).
Hypothesis K_batch : forall startPage count,
  1 <= startPage -> keeps I (generateBatch startPage count).
Hypothesis K_cover : forall s,
  I s ->
  I (state_of
       (finally (generateSinglePage "cover" 0 cover) (guard_delete 0)
          (with_pages (fun p =>
             set_generatingPages ({[0]} ∪ generatingPages p) (restart_pages p)) s))).
Hypothesis K_clear : forall s,
  I s -> I (with_pages (fun p => set_generatingPages ∅ (clear_pages p)) s).

Lemma session_afterTransition : keeps I afterTransition.
Proof. unfold afterTransition. kp I_pages; apply K_batch; lia. Qed.

Lemma session_startIssueGeneration isNewIssue : keeps I (startIssueGeneration isNewIssue).
Proof.
  intros s Hs. unfold startIssueGeneration.
  erewrite state_bind_ok by reflexivity.
  assert (Hpre : exists s0, pages s0 = pages s /\
            forall k : unit -> M unit,
              state_of (((if negb isNewIssue
                          then modify (with_ui (set_logs []));;
                               addLog "Initializing Multiverse Core..."
                          else n ← gets (fun s => issueNumber (issue s));
                               addLog ("Preparing Issue #" +:+ pretty n +:+ "..."))
                         ≫= k) (with_ui (set_isLaunching true) s)) =
              state_of (k tt s0)).
  { destruct isNewIssue; cbn [negb]; eexists; (split; [|intros k;
      erewrite state_bind_ok by reflexivity; reflexivity]); reflexivity. }
  destruct Hpre as (s0 & Hp0 & ->).
  do 3 erewrite state_bind_ok by reflexivity.
  apply keeps_from.
  - apply (K_cover s0). by apply (I_pages s).
  - intros _. kp I_pages. apply session_afterTransition.
Qed.

Lemma session_launchStory : keeps I launchStory.
Proof.
  unfold launchStory. kp I_pages.
  destruct (validateApiKey _ _) as [hasKey dialog']. kp I_pages.
  destruct (pick _ _) as [t|]; kp I_pages. apply session_startIssueGeneration.
Qed.

Lemma session_rollover finale : keeps I (rollover finale).
Proof.
  unfold rollover. apply keeps_bind; [apply keeps_gets|]. intros h.
  apply keeps_bind; [apply (keeps_generateSummary _ I_pages)|]. intros summary s Hs.
  eapply I_pages; [|exact (K_clear s Hs)]. reflexivity.
Qed.

Lemma session_handleNextIssue finale : keeps I (handleNextIssue finale).
Proof.
  unfold handleNextIssue. kp I_pages;
    [apply session_rollover | apply session_startIssueGeneration].
Qed.

Lemma session_resetApp : keeps I resetApp.
Proof. intros s Hs. eapply I_pages; [|exact (K_clear s Hs)]. reflexivity. Qed.

Lemma session_run_command c : keeps I (run_command c).
Proof.
  destruct c; cbn [run_command]; kp I_pages.
  - apply session_launchStory.
  - apply K_choice.
  - apply session_handleNextIssue.
  - apply session_resetApp.
Qed.

Lemma session_invariant :
  (forall g, I (initialState g)) -> forall s, reachable s -> I s.
Proof.
  intros Hinit s. induction 1 as [g|s c Hr IH Hc]; [apply Hinit|].
  by apply session_run_command.
Qed.

End Session.

(** *** The page collection and the history agree *)

Lemma page_id_inj n m : page_id n = page_id m -> n = m.
Proof.
  unfold page_id. rewrite !append_cons, !append_nil_l. intros [= H].
  by apply (inj pretty).
Qed.

Lemma ids_commit i u l :
  List.map id (List.map (fun f => if String.eqb (id f) i then merge_face f u else f) l) =
  List.map id l.
Proof.
  induction l as [|f l IH]; simpl; [done|]. rewrite IH.
  by destruct (String.eqb (id f) i).
Qed.

Lemma commit_absent i u l :
  i ∉ List.map id l ->
  List.map (fun f => if String.eqb (id f) i then merge_face f u else f) l = l.
Proof.
  induction l as [|f l IH]; simpl; intros Hn; [done|].
  apply not_elem_of_cons in Hn as [Hne Hn]. rewrite IH by done.
  destruct (String.eqb_spec (id f) i); [congruence|done].
Qed.

Lemma findIndex_absent i l : i ∉ List.map id l -> findIndex i l = None.
Proof.
  induction l as [|f l IH]; simpl; intros Hn; [done|].
  apply not_elem_of_cons in Hn as [Hne Hn]. rewrite IH by done.
  destruct (String.eqb_spec (id f) i); [congruence|done].
Qed.

(** Without a repeated id, the map of [setComicFaces] and the update in
    place of the history do the same to a list. *)
Lemma commit_as_insert i u l :
  NoDup (List.map id l) ->
  List.map (fun f => if String.eqb (id f) i then merge_face f u else f) l =
  match findIndex i l with
  | Some idx =>
      match l !! idx with
      | Some f => <[idx := merge_face f u]> l
      | None => l
      end
  | None => l
  end.
Proof.
  induction l as [|f l IH]; simpl; intros Hnd; [done|].
  apply NoDup_cons in Hnd as [Hf Hnd].
  destruct (String.eqb_spec (id f) i) as [<-|Hne].
  - simpl. by rewrite commit_absent.
  - rewrite IH by done. destruct (findIndex i l) as [idx|]; simpl; [|done].
    by destruct (l !! idx).
Qed.

Lemma pages_sync_commit i u p : pages_sync p -> pages_sync (commit_pages i u p).
Proof.
  intros (Hsome & Heq & Hnd).
  assert (Hids := ids_commit i u (comicFaces p)).
  assert (Hins := commit_as_insert i u _ Hnd).
  unfold pages_sync, commit_pages, update_history, history_of in *.
  cbn [arrays historyRef comicFaces set_comicFaces]. rewrite Heq.
  destruct (findIndex i (comicFaces p)) as [idx|] eqn:Hidx.
  2:{ cbn. rewrite Hids, Hins, Heq. by rewrite Hins in Hids. }
  destruct (comicFaces p !! idx) as [f|] eqn:Hf.
  2:{ cbn. rewrite Hids, Hins, Heq. by rewrite Hins in Hids. }
  cbn. rewrite lookup_insert_eq, Hids, Hins. by split; [eexists|].
Qed.

Lemma pages_sync_grow p p' : pages_grow p p' -> pages_sync p -> pages_sync p'.
Proof.
  intros Hg (Hsome & Heq & Hnd).
  assert (Hhist := pages_grow_history _ _ Hsome Hg).
  destruct Hg as (Hf & _ & Hr & Ha).
  split; [by rewrite Hr, Ha|]. by rewrite Hhist, Hf.
Qed.

Lemma findIndex_set i l : opt_set (findIndex i l) = bool_decide (i ∈ List.map id l).
Proof.
  induction l as [|f l IH]; cbn [findIndex List.map].
  - symmetry. apply bool_decide_eq_false, not_elem_of_nil.
  - destruct (String.eqb_spec (id f) i) as [<-|Hne].
    + symmetry. apply bool_decide_eq_true. left.
    + transitivity (opt_set (findIndex i l)); [by destruct (findIndex i l)|].
      rewrite IH. apply bool_decide_ext. rewrite elem_of_cons.
      split; [by right|]. intros [?|?]; [congruence|done].
Qed.

(** For new faces without a repeated id, the pushes of the missing faces onto
    the history are the filter of [setComicFaces]. *)
Lemma push_missing_filter fs arr :
  NoDup (List.map id fs) ->
  push_missing fs arr =
  arr ++ List.filter (fun f => negb (bool_decide (id f ∈ List.map id arr))) fs.
Proof.
  revert arr. induction fs as [|f fs IH]; intros arr Hnd; simpl; [by rewrite app_nil_r|].
  apply NoDup_cons in Hnd as [Hf Hnd]. rewrite findIndex_set.
  destruct (bool_decide (id f ∈ List.map id arr)) eqn:Hin; simpl; [by apply IH|].
  rewrite IH by done. rewrite <- app_assoc. simpl. do 2 f_equal.
  apply filter_ext_in. intros g Hg. f_equal. apply bool_decide_ext.
  rewrite map_app, elem_of_app. split; [|by left].
  intros [?|Hgf]; [done|]. apply list_elem_of_singleton in Hgf.
  destruct Hf. rewrite <- Hgf. apply list_elem_of_In, in_map, Hg.
Qed.

Lemma newFaces_ids toGen : List.map id (newFaces toGen) = List.map page_id toGen.
Proof. unfold newFaces. induction toGen as [|n l IH]; simpl; [done|]. by rewrite IH. Qed.

Lemma sorted_NoDup l : StronglySorted Z.lt l -> NoDup l.
Proof.
  induction 1 as [|x l Hl IH Hx]; constructor; [|exact IH].
  intros Hin. rewrite Forall_forall in Hx. specialize (Hx x Hin). lia.
Qed.

Lemma NoDup_newFaces toGen :
  StronglySorted Z.lt toGen -> NoDup (List.map id (newFaces toGen)).
Proof.
  intros Hs. rewrite newFaces_ids. change (NoDup (page_id <$> toGen)).
  apply NoDup_fmap_2; [|by apply sorted_NoDup]. intros n m. apply page_id_inj.
Qed.

Lemma NoDup_ids_filter (P : ComicFace -> bool) l :
  NoDup (List.map id l) -> NoDup (List.map id (List.filter P l)).
Proof.
  induction l as [|f l IH]; simpl; intros Hnd; [done|].
  apply NoDup_cons in Hnd as [Hf Hnd]. destruct (P f); simpl; [|by apply IH].
  apply NoDup_cons. split; [|by apply IH]. intros Hin. apply Hf.
  apply list_elem_of_In, in_map_iff in Hin as (g & Hg & Hin).
  apply filter_In in Hin as [Hin _]. rewrite <- Hg. by apply list_elem_of_In, in_map.
Qed.

Lemma pages_sync_schedule toGen p :
  StronglySorted Z.lt toGen -> pages_sync p -> pages_sync (schedule_pages toGen p).
Proof.
  intros Hs (Hsome & Heq & Hnd). assert (Hnew := NoDup_newFaces toGen Hs).
  unfold pages_sync, schedule_pages, history_of in *. cbn.
  rewrite lookup_insert_eq. split; [by eexists|]. cbn. rewrite Heq.
  split; [by apply push_missing_filter|].
  rewrite map_app. apply NoDup_app. split; [exact Hnd|]. split; [|by apply NoDup_ids_filter].
  intros x Hx Hin.
  apply list_elem_of_In, in_map_iff in Hin as (g & Hg & Hin).
  apply filter_In in Hin as [_ Hin]. apply negb_true_iff, bool_decide_eq_false in Hin.
  by rewrite Hg in Hin.
Qed.

Lemma pages_sync_restart p : pages_sync (restart_pages p).
Proof.
  unfold pages_sync, restart_pages, set_history, history_of. cbn.
  rewrite lookup_insert_eq. split; [by eexists|]. split; [done|].
  apply NoDup_singleton.
Qed.

Lemma pages_sync_clear p : pages_sync (clear_pages p).
Proof.
  unfold pages_sync, clear_pages, set_history, history_of. cbn.
  rewrite lookup_insert_eq. split; [by eexists|]. split; [done|]. apply NoDup_nil_2.
Qed.

Lemma sync_pages s s' :
  pages s' = pages s -> pages_sync (pages s) -> pages_sync (pages s').
Proof. by intros ->. Qed.

Lemma sync_updateFaceState i u :
  keeps (fun s => pages_sync (pages s)) (updateFaceState i u).
Proof. intros s Hs. rewrite updateFaceState_run. by apply pages_sync_commit. Qed.

Lemma sync_generateSinglePage fid n t :
  keeps (fun s => pages_sync (pages s)) (generateSinglePage fid n t).
Proof.
  intros s Hs.
  destruct (generateSinglePage_run fid n t s)
    as [(_ & _ & ->)|(beat & url & p1 & s' & evs & -> & _ & Hg & Hp & _)]; [exact Hs|].
  unfold state_of. cbn. rewrite Hp.
  by apply pages_sync_commit, pages_sync_commit, (pages_sync_grow (pages s)).
Qed.

Lemma sync_guard_delete n : keeps (fun s => pages_sync (pages s)) (guard_delete n).
Proof. intros s Hs. exact Hs. Qed.

Lemma sync_generateBatch startPage count :
  keeps (fun s => pages_sync (pages s)) (generateBatch startPage count).
Proof.
  unfold generateBatch. apply keeps_bind; [apply keeps_gets|]. intros guard.
  assert (Hsorted := pagesToGen_sorted guard startPage count).
  destruct (pagesToGen guard startPage count) as [|n l]; [apply keeps_ret|].
  apply keeps_bind.
  - intros s Hs. by apply (pages_sync_schedule (n :: l)).
  - intros _. unfold runBatch, batchStep. kp sync_pages;
      first [apply sync_generateSinglePage | apply sync_guard_delete].
Qed.

Lemma reachable_sync s : reachable s -> pages_sync (pages s).
Proof.
  apply (session_invariant (fun s => pages_sync (pages s)) sync_pages).
  - apply (keeps_handleChoice _ sync_pages);
      [intros i choice; apply sync_updateFaceState | apply sync_generateBatch].
  - intros a c _. apply sync_generateBatch.
  - intros s0 _.
    apply (keeps_finally _ _ _ (sync_generateSinglePage "cover" 0 cover) (sync_guard_delete 0)).
    apply pages_sync_restart.
  - intros s0 _. apply pages_sync_clear.
  - intros g. split; [by eexists|]. split; [done|]. apply NoDup_nil_2.
Qed.

(** Property X1.  In every state a session reaches, the history array holds
    the faces of the page collection, in the same order, and no page id
    occurs twice in them. *)
Theorem X1_collection_matches_history s :
  reachable s ->
  history s = comicFaces (pages s) /\ NoDup (List.map id (comicFaces (pages s))).
Proof. intros Hr. by destruct (reachable_sync s Hr) as (_ & Heq & Hnd). Qed.

(** *** The in-flight guard *)

Set Warnings "-clear-no-such-hyp".

Lemma commit_pages_guard i u p :
  generatingPages (commit_pages i u p) = generatingPages p.
Proof.
  unfold commit_pages, update_history. cbn [arrays historyRef set_comicFaces].
  destruct (findIndex _ _) as [idx|]; [|done]. by destruct (_ !! idx).
Qed.


Lemma guard_generateSinglePage g fid n t :
  keeps (fun s => generatingPages (pages s) = g) (generateSinglePage fid n t).
Proof.
  intros s Hs.
  destruct (generateSinglePage_run fid n t s)
    as [(_ & _ & ->)|(beat & url & p1 & s' & evs & -> & _ & Hg & Hp & _)]; [exact Hs|].
  unfold state_of. cbn. rewrite Hp, !commit_pages_guard.
  destruct Hg as (_ & -> & _). exact Hs.
Qed.

Lemma batchStep_guard n s :
  (exists e, batchStep n s = (Throw e, s, [])) \/
  (exists s' evs,
     batchStep n s = (Ok tt, s', evs) /\
     generatingPages (pages s') = generatingPages (pages s) ∖ {[n]}).
Proof.
  assert (Hk := guard_generateSinglePage (generatingPages (pages s)) (page_id n) n
                  (page_type n) s eq_refl).
  unfold batchStep. msimpl.
  destruct (generateSinglePage_run (page_id n) n (page_type n) s)
    as [(_ & _ & Heq)|(beat & url & p1 & s1 & ev1 & Heq & _)]; rewrite Heq in *.
  - left. by eexists.
  - right. do 2 eexists. split; [reflexivity|]. cbn in *. by rewrite Hk.
Qed.

Lemma batch_loop_guard toGen s :
  exists D : gset Z,
    D ⊆ list_to_set toGen /\
    generatingPages (pages (state_of (for_each toGen batchStep s))) =
      generatingPages (pages s) ∖ D.
Proof.
  revert s. induction toGen as [|n l IH]; intros s.
  - exists ∅. split; [done|]. cbn. set_solver.
  - cbn [for_each]. unfold state_of. msimpl.
    destruct (batchStep_guard n s) as [(e & Heq)|(s1 & ev1 & Heq & Hg)]; rewrite Heq.
    + exists ∅. split; [set_solver|]. cbn. set_solver.
    + destruct (IH s1) as (D & HD & Hg1). unfold state_of in Hg1.
      destruct (for_each l batchStep s1) as [[r s2] ev2]. cbn in *.
      exists ({[n]} ∪ D). split; [set_solver|]. rewrite Hg1, Hg. set_solver.
Qed.

Lemma guard_loop_state toGen s :
  exists s',
    for_each toGen guard_delete s = (Ok tt, s', []) /\
    generatingPages (pages s') = generatingPages (pages s) ∖ list_to_set toGen /\
    comicFaces (pages s') = comicFaces (pages s) /\
    settings s' = settings s /\ issue s' = issue s.
Proof.
  revert s. induction toGen as [|n l IH]; intros s.
  - eexists. split; [reflexivity|]. split; [cbn; set_solver|done].
  - cbn [for_each]. msimpl. rewrite guard_delete_run.
    destruct (IH (with_pages (fun p => set_generatingPages (generatingPages p ∖ {[n]}) p) s))
      as (s' & -> & Hg & Hf & Hset & Hiss).
    eexists. split; [reflexivity|]. split; [rewrite Hg; cbn; set_solver|done].
Qed.

Lemma runBatch_guard toGen s :
  generatingPages (pages (state_of (runBatch toGen s))) =
  generatingPages (pages s) ∖ list_to_set toGen.
Proof.
  destruct (batch_loop_guard toGen s) as (D & HD & Hg).
  unfold runBatch, state_of in *. msimpl.
  destruct (for_each toGen batchStep s) as [[[[]|e] s1] ev1]; cbn in Hg;
    destruct (guard_loop_state toGen s1) as (s2 & -> & Hg2 & _); cbn; rewrite Hg2, Hg;
    set_solver.
Qed.

Lemma generateBatch_guard startPage count s :
  generatingPages (pages (state_of (generateBatch startPage count s))) =
  generatingPages (pages s).
Proof.
  assert (Hspec := pagesToGen_spec (generatingPages (pages s)) startPage count).
  unfold generateBatch, state_of. msimpl.
  destruct (pagesToGen (generatingPages (pages s)) startPage count) as [|n l]; [done|].
  destruct (scheduleBatch_run (n :: l) s) as (s1 & -> & _ & _ & Hg1).
  assert (Hg := runBatch_guard (n :: l) s1). unfold state_of in Hg.
  destruct (runBatch (n :: l) s1) as [[r s2] ev2]. cbn [fst snd] in *. rewrite Hg, Hg1.
  apply set_eq. intros p. specialize (Hspec p).
  rewrite elem_of_difference, elem_of_union, elem_of_list_to_set. tauto.
Qed.

(** Property X2.  A call of [generateBatch] leaves the in-flight guard as it
    found it, whatever was in it and whether the pages it schedules succeed
    or one of them fails: every entry it adds is removed when it returns. *)
Theorem X2_generateBatch_releases_guard startPage count s :
  generatingPages (pages (state_of (generateBatch startPage count s))) =
  generatingPages (pages s).
Proof. apply generateBatch_guard. Qed.



(** *** Pages that end finished *)

Lemma commit_pages_faces i u p :
  comicFaces (commit_pages i u p) =
  List.map (fun f => if String.eqb (id f) i then merge_face f u else f) (comicFaces p).
Proof.
  unfold commit_pages, update_history. cbn [arrays historyRef set_comicFaces].
  destruct (findIndex _ _) as [idx|]; [|done]. by destruct (_ !! idx).
Qed.

(** The two commits of a page finish the faces of its id and leave the other
    faces alone. *)
Lemma commits_finish i beat d url rest l :
  Forall (fun f => finished f \/ id f ∈ i :: rest) l ->
  Forall (fun f => finished f \/ id f ∈ rest)
    (List.map (fun f => if String.eqb (id f) i then merge_face f (image_update url) else f)
       (List.map (fun f => if String.eqb (id f) i then merge_face f (beat_update beat d) else f)
          l)).
Proof.
  induction 1 as [|f l Hf Hl IH]; simpl; constructor; [|exact IH].
  destruct (String.eqb_spec (id f) i) as [Heq|Hne].
  - cbn [id merge_face]. rewrite (proj2 (String.eqb_eq _ _) Heq). left.
    split; [by eexists|]. split; [by eexists | done].
  - rewrite (proj2 (String.eqb_neq _ _) Hne). destruct Hf as [Hf|Hf]; [by left|].
    right. apply elem_of_cons in Hf as [Hf|Hf]; [congruence|done].
Qed.

Lemma batchStep_pages n s :
  hero (settings s) <> None ->
  exists beat url s' evs,
    batchStep n s = (Ok tt, s', evs) /\
    comicFaces (pages s') =
      List.map (fun f => if String.eqb (id f) (page_id n)
                         then merge_face f (image_update url) else f)
        (List.map (fun f => if String.eqb (id f) (page_id n)
                            then merge_face f
                                   (beat_update beat (bool_decide (n ∈ DECISION_PAGES)))
                            else f)
           (comicFaces (pages s))) /\
    hero (settings s') = hero (settings s) /\ issue s' = issue s.
Proof.
  intros Hh. unfold batchStep. msimpl.
  destruct (generateSinglePage_run (page_id n) n (page_type n) s)
    as [(_ & Hnone & _)|(beat & url & p1 & s1 & ev1 & Heq & _ & Hg & Hp & Hh1 & Hi1 & _)];
    [done|].
  rewrite Heq. exists beat, url. do 2 eexists. split; [reflexivity|]. cbn.
  rewrite Hp, !commit_pages_faces. destruct Hg as (-> & _). done.
Qed.

Lemma batch_loop_complete toGen s :
  hero (settings s) <> None ->
  Forall (fun f => finished f \/ id f ∈ List.map page_id toGen) (comicFaces (pages s)) ->
  exists s' evs,
    for_each toGen batchStep s = (Ok tt, s', evs) /\
    Forall finished (comicFaces (pages s')) /\
    List.map id (comicFaces (pages s')) = List.map id (comicFaces (pages s)) /\
    hero (settings s') = hero (settings s) /\ issue s' = issue s.
Proof.
  revert s. induction toGen as [|n l IH]; intros s Hh Hall.
  - do 2 eexists. split; [reflexivity|]. split; [|done].
    eapply Forall_impl; [exact Hall|]. intros f [Hf|Hf]; [done|]. by apply elem_of_nil in Hf.
  - cbn [for_each]. msimpl.
    destruct (batchStep_pages n s Hh) as (beat & url & s1 & ev1 & -> & Hf1 & Hh1 & Hi1).
    destruct (IH s1) as (s2 & ev2 & -> & Hfin & Hids & Hh2 & Hi2).
    + by rewrite Hh1.
    + rewrite Hf1. by apply commits_finish.
    + do 2 eexists. split; [reflexivity|]. split; [exact Hfin|].
      split; [by rewrite Hids, Hf1, !ids_commit|]. split; congruence.
Qed.

Lemma generateBatch_complete startPage count s :
  hero (settings s) <> None ->
  Forall finished (comicFaces (pages s)) ->
  exists s' evs extra,
    generateBatch startPage count s = (Ok tt, s', evs) /\
    Forall finished (comicFaces (pages s')) /\
    List.map id (comicFaces (pages s')) = List.map id (comicFaces (pages s)) ++ extra /\
    (forall p, p ∈ pagesToGen (generatingPages (pages s)) startPage count ->
       page_id p ∈ List.map id (comicFaces (pages s'))) /\
    hero (settings s') = hero (settings s) /\ issue s' = issue s.
Proof.
  intros Hh Hall. unfold generateBatch. msimpl.
  destruct (pagesToGen (generatingPages (pages s)) startPage count) as [|n l] eqn:Hgen.
  { do 2 eexists. exists []. split; [reflexivity|]. split; [exact Hall|].
    split; [by rewrite app_nil_r|]. split; [|done]. intros p Hp. by apply elem_of_nil in Hp. }
  set (toGen := n :: l). clearbody toGen.
  change (scheduleBatch toGen s) with
    (@Ok unit tt, with_pages (schedule_pages toGen) s, @nil Event).
  cbn [fst snd]. unfold runBatch. msimpl.
  destruct (batch_loop_complete toGen (with_pages (schedule_pages toGen) s))
    as (s1 & ev1 & -> & Hfin & Hids & Hh1 & Hi1); [exact Hh| |].
  { cbn. apply Forall_app. split.
    - eapply Forall_impl; [exact Hall|]. by left.
    - apply Forall_forall. intros f Hf. right.
      apply list_elem_of_In, filter_In in Hf as [Hf _].
      rewrite <- newFaces_ids. by apply list_elem_of_In, in_map. }
  destruct (guard_loop_state toGen s1) as (s2 & -> & _ & Hf2 & Hset2 & Hiss2).
  do 3 eexists. split; [reflexivity|]. rewrite Hf2, Hset2, Hiss2.
  split; [exact Hfin|]. split; [rewrite Hids; cbn; by rewrite map_app|].
  split; [|done].
  intros p Hp. rewrite Hids. cbn. rewrite map_app, elem_of_app.
  destruct (decide (page_id p ∈ List.map id (comicFaces (pages s)))) as [Hin|Hnin];
    [by left|right].
  apply list_elem_of_In, in_map_iff. exists (new_face (page_id p) (page_type p) p).
  split; [done|]. apply filter_In. split.
  - unfold newFaces. apply in_map_iff. exists p. split; [done|]. by apply list_elem_of_In.
  - cbn. by apply negb_true_iff, bool_decide_eq_false.
Qed.

(** Property X4.  With a hero set and every page of the collection finished,
    [generateBatch] returns without an error with every page finished again
    (each has its beat and an image or placeholder, and is not loading), the
    pages it scheduled being among them; the pages that were there keep their
    places. *)
Theorem X4_generateBatch_finishes_pages startPage count s :
  hero (settings s) <> None ->
  Forall finished (comicFaces (pages s)) ->
  let run := generateBatch startPage count s in
  result_of run = Ok tt /\
  Forall finished (comicFaces (pages (state_of run))) /\
  (forall p, p ∈ pagesToGen (generatingPages (pages s)) startPage count ->
     page_id p ∈ List.map id (comicFaces (pages (state_of run)))) /\
  List.map id (comicFaces (pages s)) `prefix_of`
    List.map id (comicFaces (pages (state_of run))).
Proof.
  intros Hh Hall.
  destruct (generateBatch_complete startPage count s Hh Hall)
    as (s' & evs & extra & Heq & Hfin & Hids & Hsched & _).
  cbv zeta. rewrite Heq. split; [done|]. split; [exact Hfin|]. split; [exact Hsched|].
  by exists extra.
Qed.




(** ** The generators one by one *)

(** *** Issue summary *)

Lemma summary_line_nonempty h : summary_line h <> "".
Proof. unfold summary_line. rewrite append_cons. discriminate. Qed.

Lemma join_cons_nonempty sep x l : x <> "" -> Str.join sep (x :: l) <> "".
Proof. intros H. destruct l; simpl; [exact H|]. by apply app_nonempty_l. Qed.

Lemma summary_text_nonempty hist :
  Str.nonempty (summary_text hist) = existsb has_narrative hist.
Proof.
  unfold summary_text. induction hist as [|h l IH]; [done|].
  cbn [List.filter existsb]. destruct (has_narrative h); cbn [orb List.map]; [|exact IH].
  apply nonempty_true, join_cons_nonempty, summary_line_nonempty.
Qed.

(** Property X6.  [generateSummary] never fails, returns a recap that is not
    empty and leaves the settings, the issue record and the pages alone.  It
    makes one model call when a page of the history has a beat, and none when
    no page has one, in which case the recap is the fixed text of a story
    that begins. *)
Theorem X6_generateSummary_calls hist s :
  let run := generateSummary hist s in
  (exists recap, result_of run = Ok recap /\ recap <> "") /\
  data (state_of run) = data s /\
  (if existsb has_narrative hist
   then exists q, calls (events_of run) = [EvCall TagSummary q (api (clock s))]
   else calls (events_of run) = [] /\ result_of run = Ok "The story begins.").
Proof.
  cbv zeta. unfold generateSummary. msimpl. rewrite addLog_run.
  rewrite summary_text_nonempty. destruct (existsb has_narrative hist); cbn [negb].
  2:{ split; [by eexists|]. by split. }
  msimpl. rewrite generateContent_run. unfold withTimeout. cbn [fst snd].
  change (clock (logged _ s)) with (clock s).
  destruct (api (clock s)) as [res|e|]; msimpl;
    (split; [eexists; split; [reflexivity|]|split; [reflexivity|by eexists]]);
    try discriminate.
  unfold opt_or. destruct (r_text res) as [t|]; [|discriminate].
  by apply or_else_nonempty.
Qed.

(** *** Persona synthesizer *)

(** Property X7.  [generatePersona] makes exactly one model call and leaves
    the settings, the issue record and the pages alone.  A persona it returns
    carries the description it was asked for, a payload that is not empty
    and a media type that is not empty.  An error of the call is thrown again
    as it was, a call that does not settle in time throws the timeout error;
    and when the error names a credential problem the error status is
    raised. *)
Theorem X7_generatePersona_outcomes description s :
  let run := generatePersona description s in
  data (state_of run) = data s /\
  (exists q, calls (events_of run) = [EvCall TagPersona q (api (clock s))]) /\
  (forall p, result_of run = Ok p ->
     desc p = description /\ base64 p <> "" /\ mimeType p <> "") /\
  (forall e, api (clock s) = Rejects e -> result_of run = Throw e) /\
  (api (clock s) = Pending ->
   result_of run = Throw (Error_ ("Timeout after " +:+ pretty 45000 +:+ "ms"))) /\
  (forall e, result_of run = Throw e ->
     if isAuthMessage e
     then apiStatus (ui (state_of run)) = error /\
          apiErrorMessage (ui (state_of run)) = Some e
     else alarm (state_of run) = alarm s).
Proof.
  cbv zeta. unfold generatePersona, personaFailure. msimpl.
  rewrite addLog_run, generateContent_run. unfold withTimeout. cbn [fst snd].
  change (clock (logged _ s)) with (clock s).
  destruct (api (clock s)) as [res|e|]; msimpl.
  - destruct (inline_payload _) as [[i d]|] eqn:Hpay; msimpl.
    + rewrite addLog_run. cbn [fst snd]. split; [reflexivity|]. split; [by eexists|].
      split; [|by repeat split]. intros p [= <-]. cbn. split; [done|]. split.
      * unfold inline_payload in Hpay. destruct (match r_candidates res with
          | Some (c :: _) => find_inline (c_parts c) | _ => None end) as [x|];
          [|discriminate].
        destruct (i_data x) as [y|]; [|discriminate].
        destruct (Str.nonempty y) eqn:Hy; [|discriminate].
        injection Hpay as _ <-. by apply nonempty_true.
      * unfold opt_or. destruct (i_mimeType i); [by apply or_else_nonempty|discriminate].
    + destruct (isAuthMessage (Error_ "Failed")) eqn:Hauth; [discriminate|]. msimpl.
      split; [reflexivity|]. split; [by eexists|]. split; [discriminate|].
      split; [discriminate|]. split; [discriminate|].
      intros e [= <-]. by rewrite Hauth.
  - destruct (isAuthMessage e) eqn:Hauth; msimpl.
    + rewrite handleAPIError_run. cbn [fst snd].
      split; [by rewrite data_api_failed|]. split; [by eexists|]. split; [discriminate|].
      split; [by intros ? [= <-]|]. split; [discriminate|].
      intros e' [= <-]. rewrite Hauth.
      assert (Ha := alarm_api_failed e (with_clock S (logged
        ("Synthesizing character design: " +:+ description +:+ "...") s))).
      unfold alarm in Ha.
      split; [exact (f_equal (fun x => x.1.1) Ha) | exact (f_equal (fun x => x.1.2) Ha)].
    + split; [reflexivity|]. split; [by eexists|]. split; [discriminate|].
      split; [by intros ? [= <-]|]. split; [discriminate|].
      intros e' [= <-]. by rewrite Hauth.
  - destruct (isAuthMessage _) eqn:Hauth; msimpl.
    + rewrite handleAPIError_run. cbn [fst snd].
      split; [by rewrite data_api_failed|]. split; [by eexists|]. split; [discriminate|].
      split; [discriminate|]. split; [done|].
      intros e' [= <-]. rewrite Hauth.
      assert (Ha := alarm_api_failed (Error_ ("Timeout after " +:+ pretty 45000 +:+ "ms"))
        (with_clock S (logged
          ("Synthesizing character design: " +:+ description +:+ "...") s))).
      unfold alarm in Ha.
      split; [exact (f_equal (fun x => x.1.1) Ha) | exact (f_equal (fun x => x.1.2) Ha)].
    + split; [reflexivity|]. split; [by eexists|]. split; [discriminate|].
      split; [discriminate|]. split; [done|].
      intros e' [= <-]. by rewrite Hauth.
Qed.

(** *** The co-star of a page *)

Lemma backfill_friend beat s :
  exists b' s' evs,
    backfill_persona beat story s = (Ok b', s', evs) /\
    sched_events evs = [] /\
    (focus_char b' = "friend" -> friend (settings s') <> None) /\
    (friend (settings s) <> None -> settings s' = settings s).
Proof.
  unfold backfill_persona. msimpl.
  destruct (String.eqb_spec (focus_char beat) "friend") as [Hfc|Hfc];
    destruct (friend (settings s)) as [fr|] eqn:Hfr; cbn [opt_set negb andb is_story].
  - do 3 eexists. split; [reflexivity|]. split; [done|]. split; [|done].
    intros _. by rewrite Hfr.
  - match goal with
    | |- context [generatePersona ?d ?s1] =>
        destruct (generatePersona_run d s1) as (r & s2 & ev2 & Heq & Hd & Hs); rewrite Heq
    end.
    destruct r as [p|e]; msimpl; do 3 eexists; (split; [reflexivity|]);
      rewrite ?sched_events_app, Hs; (split; [done|]); (split; [|done]).
    + done.
    + cbn. discriminate.
  - do 3 eexists. split; [reflexivity|]. split; [done|]. split; [|done].
    intros _. by rewrite Hfr.
  - do 3 eexists. split; [reflexivity|]. split; [done|]. split; [|done]. done.
Qed.

(** Property X8.  A story page is generated with a co-star to show whenever
    its beat focuses on one: either there is no hero and the page fails
    before anything is committed, or the page returns with its two commits,
    and if the committed beat has the focus [friend] a co-star persona is set
    when it returns.  A co-star that was set is never replaced. *)
Theorem X8_friend_focus_has_persona fid n s :
  let run := generateSinglePage fid n story s in
  (hero (settings s) = None /\ run = (Throw (Error_ "No Hero"), s, [])) \/
  (exists beat url,
     result_of run = Ok tt /\
     sched_events (events_of run) =
       [EvCommit fid (beat_update beat (bool_decide (n ∈ DECISION_PAGES)));
        EvCommit fid (image_update url)] /\
     (focus_char beat = "friend" -> friend (settings (state_of run)) <> None) /\
     (friend (settings s) <> None ->
      friend (settings (state_of run)) = friend (settings s))).
Proof.
  cbv zeta. unfold generateSinglePage. msimpl.
  destruct (page_beat_run n story (bool_decide (n ∈ DECISION_PAGES)) s)
    as [(_ & Hh & Heq)|(beat0 & s1 & ev1 & Heq & Hk1 & Hs1 & _)]; rewrite Heq.
  { left. done. }
  right. destruct Hk1 as (Hset1 & _).
  destruct (backfill_friend beat0 s1) as (beat & s2 & ev2 & Heq2 & Hs2 & Hfocus & Hkeep).
  rewrite Heq2, updateFaceState_run.
  match goal with
  | |- context [generateImage ?b ?t ?n ?s3] =>
      destruct (generateImage_run b t n s3) as (s4 & ev4 & o & Heq4 & _ & _ & Hd4 & _ & Hs4 & _);
      rewrite Heq4
  end.
  rewrite updateFaceState_run. injection Hd4 as Hset4 _ _.
  exists beat. eexists. split; [reflexivity|]. cbn [events_of state_of fst snd].
  rewrite !sched_events_app, Hs1, Hs2, Hs4. split; [reflexivity|].
  ssimpl. rewrite Hset4. ssimpl. split; [exact Hfocus|].
  intros Hfr. rewrite Hkeep; [by rewrite Hset1|]. by rewrite Hset1.
Qed.

(** *** Commits *)

Lemma history_commit i u p :
  history_of (commit_pages i u p) =
  match findIndex i (history_of p) with
  | Some idx =>
      match history_of p !! idx with
      | Some f => <[idx := merge_face f u]> (history_of p)
      | None => history_of p
      end
  | None => history_of p
  end.
Proof.
  unfold commit_pages, update_history, history_of.
  cbn [arrays historyRef set_comicFaces].
  destruct (findIndex _ _) as [idx|]; [|done].
  destruct (_ !! idx) as [f|]; [|done]. cbn. by rewrite lookup_insert_eq.
Qed.

Lemma commit_keeps_field {A} (g : ComicFace -> A) i u l :
  (forall f, g (merge_face f u) = g f) ->
  List.map g (List.map (fun f => if String.eqb (id f) i then merge_face f u else f) l) =
  List.map g l.
Proof.
  intros Hg. induction l as [|f l IH]; simpl; [done|]. rewrite IH.
  by destruct (String.eqb (id f) i); rewrite ?Hg.
Qed.

Lemma insert_keeps_field {A} (g : ComicFace -> A) u (l : list ComicFace) idx f :
  (forall f, g (merge_face f u) = g f) ->
  l !! idx = Some f ->
  List.map g (<[idx := merge_face f u]> l) = List.map g l.
Proof.
  intros Hg Hf. change (g <$> <[idx := merge_face f u]> l = g <$> l).
  rewrite list_fmap_insert, Hg. apply list_insert_id. by rewrite list_lookup_fmap, Hf.
Qed.

(** Property X9.  A commit of [updateFaceState] changes no more than the
    faces of the id it names: the page collection and the history keep their
    ids, page types and page indices, so their lengths and order; a face of
    another id stays as it is; the guard, the settings and the issue record
    stay as they are; and a commit to an id that is neither in the page
    collection nor in the history changes nothing at all in the pages. *)
Theorem X9_updateFaceState_frame i u s :
  let p := pages s in
  let s' := state_of (updateFaceState i u s) in
  let p' := pages s' in
  List.map id (comicFaces p') = List.map id (comicFaces p) /\
  List.map type (comicFaces p') = List.map type (comicFaces p) /\
  List.map pageIndex (comicFaces p') = List.map pageIndex (comicFaces p) /\
  List.map id (history_of p') = List.map id (history_of p) /\
  List.map type (history_of p') = List.map type (history_of p) /\
  List.map pageIndex (history_of p') = List.map pageIndex (history_of p) /\
  (forall k f, comicFaces p !! k = Some f -> id f <> i -> comicFaces p' !! k = Some f) /\
  (forall k f, history_of p !! k = Some f -> id f <> i -> history_of p' !! k = Some f) /\
  generatingPages p' = generatingPages p /\
  settings s' = settings s /\ issue s' = issue s /\
  (i ∉ List.map id (comicFaces p) -> i ∉ List.map id (history_of p) -> p' = p).
Proof.
  cbv zeta. rewrite updateFaceState_run. cbn [state_of fst snd]. ssimpl.
  rewrite commit_pages_faces, history_commit, commit_pages_guard.
  rewrite !commit_keeps_field by done.
  do 3 (split; [reflexivity|]).
  assert (Hhist : forall A (g : ComicFace -> A),
            (forall f, g (merge_face f u) = g f) ->
            List.map g
              match findIndex i (history_of (pages s)) with
              | Some idx =>
                  match history_of (pages s) !! idx with
                  | Some f => <[idx := merge_face f u]> (history_of (pages s))
                  | None => history_of (pages s)
                  end
              | None => history_of (pages s)
              end = List.map g (history_of (pages s))).
  { intros A g Hg. destruct (findIndex _ _) as [idx|]; [|done].
    destruct (_ !! idx) as [f|] eqn:Hf; [|done]. by apply insert_keeps_field. }
  rewrite !Hhist by done. do 3 (split; [reflexivity|]).
  split.
  { intros k f Hk Hne.
    change (((fun f => if String.eqb (id f) i then merge_face f u else f) <$>
             comicFaces (pages s)) !! k = Some f).
    rewrite list_lookup_fmap, Hk. cbn.
    by rewrite (proj2 (String.eqb_neq _ _) Hne). }
  split.
  { intros k f Hk Hne. destruct (findIndex _ _) as [idx|] eqn:Hidx; [|done].
    destruct (_ !! idx) as [g|] eqn:Hg; [|done].
    rewrite list_lookup_insert_ne; [done|]. intros <-.
    rewrite Hk in Hg. injection Hg as <-.
    by rewrite (findIndex_lookup _ _ _ _ Hidx Hk) in Hne. }
  do 3 (split; [reflexivity|]).
  intros Hc Hh. unfold commit_pages, update_history.
  cbn [arrays historyRef set_comicFaces].
  change (default [] (arrays (pages s) !! historyRef (pages s)))
    with (history_of (pages s)).
  rewrite (findIndex_absent _ _ Hh), (commit_absent _ _ _ Hc).
  by destruct (pages s).
Qed.

(** *** The log feed *)


(** *** The cover and the back cover *)

(** Property X13.  The image renderer does not look at the beat of a cover or
    of a back cover: with any two beats it sends the same requests, logs the
    same lines and returns the same image. *)
Theorem X13_covers_ignore_beat beat1 beat2 pageNum s :
  generateImage beat1 cover pageNum s = generateImage beat2 cover pageNum s /\
  generateImage beat1 back_cover pageNum s = generateImage beat2 back_cover pageNum s.
Proof. split; reflexivity. Qed.

(** *** Export *)






(** *** The repair of the dialogue *)

Section Chars.

Context (P : ascii -> Prop).

Let all (s : string) : Prop := Forall P (list_ascii_of_string s).

Lemma all_drop k s : all s -> all (Str.drop k s).
Proof.
  revert s. induction k as [|k IH]; intros s Hs; [by destruct s|].
  destruct s as [|c s]; [exact Hs|]. apply IH. by inversion Hs.
Qed.

Lemma all_strip wl fuel s : all s -> all (Str.strip wl fuel s).
Proof.
  revert s. induction fuel as [|fuel IH]; intros s Hs; [exact Hs|].
  cbn [Str.strip]. destruct (wl s) as [k|]; [|exact Hs]. by apply IH, all_drop.
Qed.

Lemma all_rev_onto s acc : all s -> all acc -> all (Str.rev_onto s acc).
Proof.
  revert acc. induction s as [|c s IH]; intros acc Hs Hacc; [exact Hacc|].
  cbn [Str.rev_onto]. inversion Hs; subst. apply IH; [done|]. by constructor.
Qed.

Lemma all_trim s : all s -> all (Str.trim s).
Proof.
  intros Hs. unfold Str.trim, Str.trimEnd, Str.trimStart, Str.rev.
  apply all_rev_onto; [|constructor]. apply all_strip, all_rev_onto; [|constructor].
  by apply all_strip.
Qed.

End Chars.

Lemma filter_all (f : ascii -> bool) s :
  Forall (fun c => f c = true) (list_ascii_of_string (Str.filter f s)).
Proof.
  induction s as [|c s IH]; [constructor|]. cbn [Str.filter].
  destruct (f c) eqn:Hc; [by constructor | exact IH].
Qed.

Lemma cleanDialogue_no_quote s :
  Forall (fun c => is_quote c = false) (list_ascii_of_string (cleanDialogue s)).
Proof.
  unfold cleanDialogue. apply all_trim.
  eapply Forall_impl; [apply filter_all|]. intros c Hc. by apply negb_true_iff.
Qed.

(** Property X14.  A dialogue that the repair of the parsed response lets
    through holds neither a double nor a single quote, whatever the model
    sent. *)
Theorem X14_dialogue_without_quotes genre isDecisionPage isFinalPage parsed :
  match repairBeat genre isDecisionPage isFinalPage parsed with
  | Ok beat =>
      match dialogue beat with
      | Some t => Forall (fun c => is_quote c = false) (list_ascii_of_string t)
      | None => True
      end
  | Throw _ => True
  end.
Proof.
  destruct (repairBeat genre isDecisionPage isFinalPage parsed) as [beat|e] eqn:Hrep; [|done].
  destruct (dialogue beat) as [t|] eqn:Hd; [|done].
  assert (Hkvs : exists r,
            repair_text "dialogue" cleanDialogue (lookup_key "dialogue" (props_of parsed)) =
              Ok r /\ dialogue beat = r).
  { unfold repairBeat in Hrep. destruct parsed; try discriminate;
      (destruct (repair_text "dialogue" _ _) as [r|]; [|discriminate]);
      exists r; (split; [reflexivity|]);
      cbn [mbind Result_bind] in Hrep;
      (destruct (repair_text "caption" _ _) as [c|]; [|discriminate]);
      cbn [mbind Result_bind] in Hrep;
      match type of Hrep with
      | context [mbind _ ?m] => destruct m as [ch|]; [|discriminate]
      end; cbn [mbind Result_bind] in Hrep; by injection Hrep as <-. }
  destruct Hkvs as (r & Hr & Heq). rewrite Hd in Heq. subst r.
  apply repair_text_inv in Hr as [Hr|(x & _ & Hr)]; [discriminate|].
  injection Hr as ->. apply cleanDialogue_no_quote.
Qed.

(** *** A choice of the reader *)

(** The faces of id [i] carry the choice [choice], and there is one. *)
Lemma choice_kept_by_commit i choice j u l :
  u_resolvedChoice u = None ->
  Forall (fun f => id f = i -> resolvedChoice f = Some choice) l ->
  Forall (fun f => id f = i -> resolvedChoice f = Some choice)
    (List.map (fun f => if String.eqb (id f) j then merge_face f u else f) l).
Proof.
  intros Hu. induction 1 as [|f l Hf Hl IH]; simpl; constructor; [|exact IH].
  destruct (String.eqb (id f) j); [|exact Hf]. cbn. by rewrite Hu.
Qed.

Lemma choice_generateSinglePage i choice fid n t :
  keeps (fun s =>
    i ∈ List.map id (comicFaces (pages s)) /\
    Forall (fun f => id f = i -> resolvedChoice f = Some choice) (comicFaces (pages s)))
    (generateSinglePage fid n t).
Proof.
  intros s [Hin Hall].
  destruct (generateSinglePage_run fid n t s)
    as [(_ & _ & ->)|(beat & url & p1 & s' & evs & -> & _ & Hg & Hp & _)]; [done|].
  unfold state_of. cbn [fst snd]. rewrite Hp, !commit_pages_faces.
  destruct Hg as (-> & _). rewrite !ids_commit. split; [exact Hin|].
  by do 2 (apply choice_kept_by_commit; [done|]).
Qed.

Lemma choice_generateBatch i choice startPage count :
  keeps (fun s =>
    i ∈ List.map id (comicFaces (pages s)) /\
    Forall (fun f => id f = i -> resolvedChoice f = Some choice) (comicFaces (pages s)))
    (generateBatch startPage count).
Proof.
  unfold generateBatch. apply keeps_bind; [apply keeps_gets|]. intros guard.
  destruct (pagesToGen guard startPage count) as [|n l]; [apply keeps_ret|].
  apply keeps_bind.
  - intros s [Hin Hall].
    change (state_of (scheduleBatch (n :: l) s))
      with (with_pages (schedule_pages (n :: l)) s).
    unfold schedule_pages.
    cbn [pages with_pages comicFaces set_arrays set_comicFaces set_generatingPages].
    rewrite map_app. split; [apply elem_of_app; by left|].
    apply Forall_app. split; [exact Hall|]. apply Forall_forall. intros f Hf Hid.
    apply list_elem_of_In, filter_In in Hf as [_ Hf].
    apply negb_true_iff, bool_decide_eq_false in Hf. by rewrite Hid in Hf.
  - intros _. unfold runBatch, batchStep.
    apply keeps_finally; [apply keeps_try_catch|].
    + apply keeps_for_each. intros p.
      apply keeps_bind; [apply choice_generateSinglePage|]. intros _.
      apply keeps_bind; [by intros s Hs|]. intros _. apply keeps_emit.
    + intros e. apply keeps_emit.
    + apply keeps_for_each. by intros p s Hs.
Qed.

Lemma maxPage_keeps i u p :
  maxPage (history_of (commit_pages i u p)) = maxPage (history_of p).
Proof.
  assert (Hmap : List.map pageIndexOr0 (history_of (commit_pages i u p)) =
                 List.map pageIndexOr0 (history_of p)).
  { rewrite history_commit. destruct (findIndex _ _) as [idx|]; [|done].
    destruct (_ !! idx) as [f|] eqn:Hf; [|done]. by apply insert_keeps_field. }
  unfold maxPage. destruct (history_of (commit_pages i u p)) as [|f l],
    (history_of p) as [|g k]; try discriminate; [done|].
  cbn in Hmap. injection Hmap as -> ->. done.
Qed.

(** Property X10.  A choice made on a page of the collection is recorded on
    it: when [handleChoice] returns, in a session run so far by the commands,
    the page is still in the collection and every face of its id, in the
    collection and in the history, carries the choice, also after the batch
    that follows.  When the highest page index of the history is
    [TOTAL_PAGES] or more, no model call is made and nothing but the choice
    is committed. *)
Theorem X10_handleChoice_records_choice pageNum choice s :
  reachable s ->
  page_id pageNum ∈ List.map id (comicFaces (pages s)) ->
  let run := handleChoice pageNum choice s in
  page_id pageNum ∈ List.map id (comicFaces (pages (state_of run))) /\
  (forall f, f ∈ comicFaces (pages (state_of run)) \/ f ∈ history (state_of run) ->
     id f = page_id pageNum -> resolvedChoice f = Some choice) /\
  (forall m, maxPage (history s) = Some m -> TOTAL_PAGES < m + 1 ->
     result_of run = Ok tt /\ calls (events_of run) = [] /\
     sched_events (events_of run) = [EvCommit (page_id pageNum) (choice_update choice)]).
Proof.
  intros Hr Hin. cbv zeta.
  assert (Hne : history s <> []).
  { destruct (reachable_sync s Hr) as (_ & Heq & _). unfold history_of in Heq.
    unfold history, array_at. rewrite Heq. intros Hnil. rewrite Hnil in Hin.
    by apply elem_of_nil in Hin. }
  assert (Hr' : reachable (state_of (run_command (CmdChoice pageNum choice) s))).
  { apply reach_step; [exact Hr|]. by intros. }
  destruct (reachable_sync _ Hr') as (_ & Hsync & _). cbn [run_command] in Hsync.
  assert (Hrec :
    page_id pageNum ∈ List.map id (comicFaces (pages (state_of (handleChoice pageNum choice s))))
    /\ Forall (fun f => id f = page_id pageNum -> resolvedChoice f = Some choice)
         (comicFaces (pages (state_of (handleChoice pageNum choice s))))).
  { clear Hr Hne Hr' Hsync. revert s Hin.
    change (forall s,
      page_id pageNum ∈ List.map id (comicFaces (pages s)) ->
      (fun s => page_id pageNum ∈ List.map id (comicFaces (pages s)) /\
                Forall (fun f => id f = page_id pageNum -> resolvedChoice f = Some choice)
                  (comicFaces (pages s)))
        (state_of (handleChoice pageNum choice s))).
    intros s Hin. unfold handleChoice.
    erewrite state_bind_ok by reflexivity. erewrite state_bind_ok by reflexivity.
    erewrite state_bind_ok by reflexivity.
    assert (Hst : page_id pageNum ∈ List.map id (comicFaces (pages (with_pages
                    (commit_pages (page_id pageNum) (choice_update choice))
                    (logged ("User made a choice: " +:+ choice +:+
                             ". Branching timeline...") s)))) /\
                  Forall (fun f => id f = page_id pageNum -> resolvedChoice f = Some choice)
                    (comicFaces (pages (with_pages
                       (commit_pages (page_id pageNum) (choice_update choice))
                       (logged ("User made a choice: " +:+ choice +:+
                                ". Branching timeline...") s))))).
    { cbn [pages with_pages]. rewrite commit_pages_faces, ids_commit. split; [exact Hin|].
      apply Forall_forall. intros f Hf Hid.
      apply list_elem_of_In, in_map_iff in Hf as (g & <- & Hg).
      destruct (String.eqb_spec (id g) (page_id pageNum)) as [_|Hneq]; [done|].
      by destruct Hneq. }
    destruct (maxPage _) as [m|]; [|exact Hst].
    destruct (m + 1 <=? TOTAL_PAGES); [|exact Hst].
    by apply choice_generateBatch. }
  destruct Hrec as [Hin' Hall]. split; [exact Hin'|]. split.
  { intros f Hf. rewrite Forall_forall in Hall. apply Hall.
    destruct Hf as [Hf|Hf]; [exact Hf|].
    unfold history, array_at in Hf. unfold history_of in Hsync. by rewrite Hsync in Hf. }
  intros m Hm Htot. unfold handleChoice. msimpl. rewrite addLog_run, updateFaceState_run.
  cbn [fst snd].
  assert (Hmax : maxPage (history (with_pages
                   (commit_pages (page_id pageNum) (choice_update choice))
                   (logged ("User made a choice: " +:+ choice +:+
                            ". Branching timeline...") s))) = Some m).
  { rewrite <- Hm. apply maxPage_keeps. }
  rewrite Hmax. replace (m + 1 <=? TOTAL_PAGES) with false by (symmetry; apply Z.leb_gt; lia).
  done.
Qed.

(** *** The tone of a story *)

Lemma pick_elem {A} r (l : list A) t : pick r l = Some t -> t ∈ l.
Proof.
  unfold pick. destruct (floor_float _) as [i|]; [|discriminate].
  destruct (0 <=? i); [|discriminate]. apply list_elem_of_lookup_2.
Qed.

Lemma pick_nil {A} r : pick r (@nil A) = None.
Proof.
  unfold pick. destruct (floor_float _) as [i|]; [|done]. by destruct (0 <=? i).
Qed.

(** Property X16.  The tone [launchStory] draws is one of [TONES]; for the
    teen drama and the comedy it is a casual, wholesome or quippy tone, and
    for the horror an inner-monologue or operatic one.  When no tone of
    [TONES] qualifies for the genre, no tone is drawn. *)
Theorem X16_tone_of_genre r genre :
  let tone := pick r (availableTones genre) in
  match tone with
  | Some t =>
      t ∈ TONES /\
      (genre = "Teen Drama / Slice of Life" \/ genre = "Lighthearted Comedy" ->
       Str.includes t "CASUAL" || Str.includes t "WHOLESOME" || Str.includes t "QUIPPY"
         = true) /\
      (genre = "Classic Horror" ->
       Str.includes t "INNER-MONOLOGUE" || Str.includes t "OPERATIC" = true)
  | None => True
  end /\
  (availableTones genre = [] -> tone = None).
Proof.
  cbv zeta. split; [|intros ->; apply pick_nil].
  destruct (pick r (availableTones genre)) as [t|] eqn:Hpick; [|done].
  apply pick_elem in Hpick. unfold availableTones in Hpick.
  destruct (String.eqb_spec genre "Teen Drama / Slice of Life") as [->|H1];
    [|destruct (String.eqb_spec genre "Lighthearted Comedy") as [->|H2];
      [|destruct (String.eqb_spec genre "Classic Horror") as [->|H3]]];
    cbn [orb] in Hpick;
    try (apply list_elem_of_In, filter_In in Hpick as [Hin Hmark];
         apply list_elem_of_In in Hin).
  - split; [exact Hin|]. split; [done|]. discriminate.
  - split; [exact Hin|]. split; [done|]. discriminate.
  - split; [exact Hin|]. split; [|done]. intros [?|?]; discriminate.
  - split; [exact Hpick|]. split; [|done]. intros [?|?]; congruence.
Qed.

(** Property X17.  A launch that passes its guards with a genre for which no
    tone of [TONES] qualifies fails with the type error of reading [split] of
    an undefined tone: it has stored the undefined tone, and it makes no
    model call, commits nothing and leaves the pages and the issue record as
    they were. *)
Theorem X17_launch_without_tone s :
  (validateApiKey (clock s) (showApiKeyDialog (ui s))).1 = true ->
  hero (settings s) <> None ->
  (selectedGenre (settings s) = "Custom" ->
   Str.trim (customPremise (settings s)) <> "") ->
  availableTones (selectedGenre (settings s)) = [] ->
  let run := launchStory s in
  result_of run =
    Throw (TypeError_ "Cannot read properties of undefined (reading 'split')") /\
  calls (events_of run) = [] /\
  sched_events (events_of run) = [] /\
  storyTone (settings (state_of run)) = None /\
  pages (state_of run) = pages s /\
  issue (state_of run) = issue s.
Proof.
  intros Hkey Hhero Hprem Htones. cbv zeta. unfold launchStory. msimpl. ssimpl.
  destruct (validateApiKey (clock s) (showApiKeyDialog (ui s))) as [hasKey dialog'].
  cbn in Hkey. subst hasKey. cbn [negb]. ssimpl.
  destruct (hero (settings s)) as [h|]; [|done]. cbn [opt_set negb].
  assert (Hguard : String.eqb (selectedGenre (settings s)) "Custom" &&
                   negb (Str.nonempty (Str.trim (customPremise (settings s)))) = false).
  { destruct (String.eqb_spec (selectedGenre (settings s)) "Custom") as [Hc|_]; [|done].
    cbn [andb]. apply negb_false_iff, nonempty_true. by apply Hprem. }
  rewrite Hguard, addLog_run. cbn [fst snd]. ssimpl. unfold logged. ssimpl.
  rewrite Htones, pick_nil. done.
Qed.

(** *** Reset *)

(** Property X15.  [resetApp] empties the page collection, the history, the
    guard and the log feed, removes the hero and the co-star, puts the issue
    record back to issue 1 and the status to idle, and shows the setup; it
    keeps the genre, the language, the premise, the tone, the two modes, and
    also the last error message and the credential dialog.  A launch right
    after it returns at once: no model call, no commit, nothing changed. *)
Theorem X15_resetApp_then_launch s :
  let s0 := state_of (resetApp s) in
  let run := launchStory s0 in
  result_of (resetApp s) = Ok tt /\ events_of (resetApp s) = [] /\
  comicFaces (pages s0) = [] /\ history s0 = [] /\ generatingPages (pages s0) = ∅ /\
  hero (settings s0) = None /\ friend (settings s0) = None /\
  issue s0 = {| issueNumber := 1; isFinale := false; previousSummary := "" |} /\
  logs (ui s0) = [] /\ apiStatus (ui s0) = idle /\
  isStarted (ui s0) = false /\ showSetup (ui s0) = true /\ isLaunching (ui s0) = false /\
  currentSheetIndex (ui s0) = 0 /\
  settings s0 = set_friend None (set_hero None (settings s)) /\
  apiErrorMessage (ui s0) = apiErrorMessage (ui s) /\
  showApiKeyDialog (ui s0) = showApiKeyDialog (ui s) /\
  result_of run = Ok tt /\ calls (events_of run) = [] /\
  sched_events (events_of run) = [] /\
  settings (state_of run) = settings s0 /\ issue (state_of run) = issue s0 /\
  pages (state_of run) = pages s0.
Proof.
  cbv zeta. do 3 (split; [reflexivity|]).
  split; [exact (history_set_history [] (with_pages (set_comicFaces []) s))|].
  do 13 (split; [reflexivity|]).
  assert (Hh : hero (settings (state_of (resetApp s))) = None) by reflexivity.
  revert Hh. generalize (state_of (resetApp s)). intros s0 Hh.
  unfold launchStory. msimpl. ssimpl.
  destruct (validateApiKey _ _) as [hasKey dialog'].
  destruct hasKey; cbn [negb]; ssimpl; [|repeat split].
  rewrite Hh. cbn [opt_set negb]. repeat split.
Qed.

(** *** The next issue and the launch, to their end *)




(** ** The faces of the page collection *)

Lemma beat_result_choices genre fin o n :
  choices (match beat_outcome genre false fin o with
           | Ok b => b
           | Throw _ => fallbackBeat n
           end) = JArr [].
Proof.
  destruct (beat_outcome genre false fin o) as [b|e] eqn:Hout; [|reflexivity].
  unfold beat_outcome in Hout. destruct o as [res|e|]; try discriminate.
  destruct (JSON_parse (rawText res)) as [parsed|e]; [|discriminate].
  cbn [mbind Result_bind] in Hout.
  destruct (repairBeat_wf _ _ _ _ _ Hout) as (_ & _ & _ & Hc & _). by apply Hc.
Qed.

(** Off the decision pages, and on the covers, the beat of a page has the
    empty list of choices. *)
Lemma page_beat_choices n t dec s beat s' evs :
  page_beat n t dec s = (Ok beat, s', evs) ->
  dec = false \/ t <> story -> choices beat = JArr [].
Proof.
  unfold page_beat. destruct t.
  - intros [= <- _ _] _. reflexivity.
  - msimpl. intros Heq [->|Hne]; [|done].
    destruct (hero (settings s)) as [h|] eqn:Hh.
    + assert (Hne : hero (settings s) <> None) by congruence.
      destruct (generateBeat_run (historyRef (pages s)) (Z.rem n 2 =? 0) n false s Hne)
        as (s1 & ev & fi & o & Hrun & _).
      rewrite Hrun in Heq. injection Heq as <- _ _. apply beat_result_choices.
    + by rewrite generateBeat_no_hero in Heq.
  - intros [= <- _ _] _. reflexivity.
Qed.

Lemma backfill_choices beat t s b' s' evs :
  backfill_persona beat t s = (Ok b', s', evs) -> choices b' = choices beat.
Proof.
  unfold backfill_persona. msimpl.
  destruct (_ && _ && _); msimpl; [|by intros [= <- _ _]].
  match goal with
  | |- context [generatePersona ?d ?s1] =>
      destruct (generatePersona_run d s1) as (r & s2 & ev2 & Heq & _); rewrite Heq
  end.
  destruct r as [p|e]; msimpl; by intros [= <- _ _].
Qed.

(** What a call of [generateSinglePage] does to the pages: nothing when it
    fails; otherwise the commit of a beat and the commit of an image on the
    faces of its id, the beat having no choices off the decision pages and on
    the covers. *)
Lemma generateSinglePage_pages fid n t s :
  pages (state_of (generateSinglePage fid n t s)) = pages s \/
  exists beat url p1,
    pages_grow (pages s) p1 /\
    pages (state_of (generateSinglePage fid n t s)) =
      commit_pages fid (image_update url)
        (commit_pages fid (beat_update beat (bool_decide (n ∈ DECISION_PAGES))) p1) /\
    (bool_decide (n ∈ DECISION_PAGES) = false \/ t <> story -> choices beat = JArr []).
Proof.
  unfold generateSinglePage, state_of. msimpl.
  destruct (page_beat_run n t (bool_decide (n ∈ DECISION_PAGES)) s)
    as [(Ht & Hh & Heq)|(beat0 & s1 & ev1 & Heq & Hk1 & _)]; rewrite Heq.
  { by left. }
  right.
  destruct (backfill_persona_run beat0 t s1)
    as (beat & s2 & ev2 & Heq2 & _ & _ & _ & _ & Hp2).
  rewrite Heq2, updateFaceState_run.
  match goal with
  | |- context [generateImage ?b ?t ?n ?s3] =>
      destruct (generateImage_run b t n s3) as (s4 & ev4 & o & Heq4 & _ & _ & Hd4 & _);
      rewrite Heq4
  end.
  rewrite updateFaceState_run.
  injection Hd4 as _ _ Hpg4.
  destruct Hk1 as (_ & _ & Hg1).
  exists beat. eexists. exists (pages s1).
  split; [exact Hg1|].
  split; [cbn; rewrite Hpg4; ssimpl; by rewrite Hp2|].
  intros Hc. rewrite (backfill_choices _ _ _ _ _ _ Heq2).
  by apply (page_beat_choices _ _ _ _ _ _ _ Heq).
Qed.

(** *** One face under the three commits *)

Lemma page_call_index fid n t f :
  page_call fid n t -> face_wf f -> id f = fid ->
  pageIndexOr0 f = n /\ type f = t.
Proof.
  unfold pageIndexOr0.
  intros [(-> & -> & ->)|(-> & ->)] [(Hi & Ht & Hp)|(m & Hm & Hi & Ht & Hp)] Hid;
    rewrite Hp.
  - done.
  - rewrite Hi in Hid. by destruct (page_id_not_cover m).
  - rewrite Hi in Hid. symmetry in Hid. by destruct (page_id_not_cover n).
  - rewrite Hi in Hid. apply page_id_inj in Hid as ->. done.
Qed.

Lemma face_wf_merge f u : face_wf f -> face_wf (merge_face f u).
Proof. intros H. exact H. Qed.

Lemma face_beat fid n t beat f :
  page_call fid n t ->
  (bool_decide (n ∈ DECISION_PAGES) = false \/ t <> story -> choices beat = JArr []) ->
  id f = fid -> face_wf f -> face_staged f ->
  face_staged (merge_face f (beat_update beat (bool_decide (n ∈ DECISION_PAGES)))).
Proof.
  intros Hcall Hc Hid Hwf (Hl & Hi & Hn & Hb & Hch).
  destruct (page_call_index _ _ _ _ Hcall Hwf Hid) as [Hidx Hty].
  unfold face_staged, pageIndexOr0 in *. cbn.
  split; [exact Hl|]. split; [by eexists|]. split; [discriminate|].
  split.
  - intros b [= <-]. by rewrite Hidx.
  - intros Hne. rewrite Hidx, Hty.
    destruct (bool_decide (n ∈ DECISION_PAGES)) eqn:Hd.
    + apply bool_decide_eq_true in Hd. split; [|exact Hd].
      destruct t; try done; destruct Hne; apply Hc; right; discriminate.
    + destruct Hne. apply Hc. by left.
Qed.

Lemma face_image url f :
  is_Some (narrative f) -> face_staged f -> face_staged (merge_face f (image_update url)).
Proof.
  intros Hsome (Hl & Hi & Hn & Hb & Hch).
  unfold face_staged, pageIndexOr0 in *. cbn.
  split; [split; [by eexists | done]|]. split; [done|].
  split; [exact Hn|]. split; [exact Hb | exact Hch].
Qed.

Lemma face_choice choice f :
  face_staged f -> face_staged (merge_face f (choice_update choice)).
Proof. intros H. exact H. Qed.

(** *** The page collection under the commands *)

Lemma faces_page fid n t beat url l :
  page_call fid n t ->
  (bool_decide (n ∈ DECISION_PAGES) = false \/ t <> story -> choices beat = JArr []) ->
  Forall (fun f => face_wf f /\ face_staged f) l ->
  Forall (fun f => face_wf f /\ face_staged f)
    (List.map (fun f => if String.eqb (id f) fid then merge_face f (image_update url) else f)
       (List.map (fun f => if String.eqb (id f) fid
                           then merge_face f (beat_update beat (bool_decide (n ∈ DECISION_PAGES)))
                           else f) l)).
Proof.
  intros Hcall Hc. induction 1 as [|f l [Hwf Hst] Hl IH]; cbn [List.map]; constructor;
    [|exact IH].
  destruct (String.eqb_spec (id f) fid) as [Hid|Hne].
  - cbn [id merge_face]. rewrite (proj2 (String.eqb_eq _ _) Hid).
    split; [exact Hwf|]. apply face_image; [by eexists|].
    by apply (face_beat fid n t).
  - rewrite (proj2 (String.eqb_neq _ _) Hne). by split.
Qed.

Lemma faces_generateSinglePage fid n t :
  page_call fid n t ->
  keeps (fun s => Forall (fun f => face_wf f /\ face_staged f) (comicFaces (pages s)))
    (generateSinglePage fid n t).
Proof.
  intros Hcall s Hs.
  destruct (generateSinglePage_pages fid n t s) as [->|(beat & url & p1 & Hg & -> & Hc)];
    [exact Hs|].
  rewrite !commit_pages_faces. destruct Hg as (-> & _).
  by apply (faces_page fid n t).
Qed.

Lemma faces_new toGen :
  Forall (fun n => 1 <= n <= TOTAL_PAGES) toGen ->
  Forall (fun f => face_wf f /\ face_staged f) (newFaces toGen).
Proof.
  induction 1 as [|n l Hn Hl IH]; cbn [newFaces List.map]; constructor; [|exact IH].
  split.
  - right. exists n. done.
  - unfold face_staged. cbn. split; [split; [done|by intros [? ?]]|].
    split; [by intros [? ?]|]. split; [done|]. split; [done|]. done.
Qed.

Lemma faces_filter (P : ComicFace -> Prop) g l : Forall P l -> Forall P (List.filter g l).
Proof.
  induction 1 as [|f l Hf Hl IH]; simpl; [constructor|].
  destruct (g f); [by constructor | exact IH].
Qed.

Lemma faces_generateBatch startPage count :
  1 <= startPage ->
  keeps (fun s => Forall (fun f => face_wf f /\ face_staged f) (comicFaces (pages s)))
    (generateBatch startPage count).
Proof.
  intros Hstart.
  unfold generateBatch. apply keeps_bind; [apply keeps_gets|]. intros guard.
  assert (Hall : Forall (fun n => 1 <= n <= TOTAL_PAGES) (pagesToGen guard startPage count)).
  { apply Forall_forall. intros p Hp. apply pagesToGen_spec in Hp. lia. }
  destruct (pagesToGen guard startPage count) as [|n l]; [apply keeps_ret|].
  apply keeps_bind.
  - intros s Hs.
    change (Forall (fun f => face_wf f /\ face_staged f)
              (comicFaces (pages s) ++
               List.filter (fun f => negb (bool_decide (id f ∈ List.map id (comicFaces (pages s)))))
                 (newFaces (n :: l)))).
    apply Forall_app. split; [exact Hs|]. by apply faces_filter, faces_new.
  - intros _. unfold runBatch, batchStep.
    apply keeps_finally; [apply keeps_try_catch|].
    + apply keeps_for_each. intros p. apply keeps_bind.
      * apply faces_generateSinglePage. by right.
      * intros _. apply keeps_bind; [by intros s Hs | intros _; apply keeps_emit].
    + intros e. apply keeps_emit.
    + apply keeps_for_each. by intros p s Hs.
Qed.

Lemma faces_cover p : Forall (fun f => face_wf f /\ face_staged f) (comicFaces (restart_pages p)).
Proof.
  change (Forall (fun f => face_wf f /\ face_staged f) [coverFace]).
  constructor; [|constructor]. split.
  - by left.
  - unfold face_staged. cbn. split; [split; [done|by intros [? ?]]|].
    split; [by intros [? ?]|]. split; [done|]. split; [done|]. done.
Qed.

Lemma maxPage_ge h m :
  Forall (fun f => 0 <= pageIndexOr0 f) h -> maxPage h = Some m -> 0 <= m.
Proof.
  destruct h as [|f l]; [discriminate|]. intros Hall [= <-].
  apply Forall_cons in Hall as [Hf _].
  induction l as [|g l IH]; cbn; lia.
Qed.

Lemma face_wf_index f : face_wf f -> 0 <= pageIndexOr0 f.
Proof.
  unfold pageIndexOr0. intros [(_ & _ & ->)|(n & Hn & _ & _ & ->)]; lia.
Qed.

Lemma faces_pages s s' : pages s' = pages s -> faces_inv s -> faces_inv s'.
Proof. unfold faces_inv. by intros ->. Qed.

Lemma faces_handleChoice n choice : keeps faces_inv (handleChoice n choice).
Proof.
  intros s [Hsync Hf]. split.
  { apply (keeps_handleChoice (fun s => pages_sync (pages s)) sync_pages);
      [intros i c; apply sync_updateFaceState | apply sync_generateBatch | exact Hsync]. }
  unfold handleChoice.
  do 3 erewrite state_bind_ok by reflexivity.
  set (s2 := with_pages (commit_pages (page_id n) (choice_update choice))
               (logged ("User made a choice: " +:+ choice +:+ ". Branching timeline...") s)).
  assert (Hf2 : Forall (fun f => face_wf f /\ face_staged f) (comicFaces (pages s2))).
  { subst s2. cbn [pages with_pages]. rewrite commit_pages_faces.
    change (pages (logged _ s)) with (pages s).
    induction Hf as [|f l [Hwf Hst] Hl IH]; cbn [List.map]; constructor; [|exact IH].
    destruct (String.eqb (id f) (page_id n)); by split. }
  assert (Hmax : maxPage (history s2) = maxPage (comicFaces (pages s))).
  { subst s2. destruct Hsync as (_ & <- & _).
    exact (maxPage_keeps (page_id n) (choice_update choice) (pages s)). }
  match goal with |- context [history ?st] => change st with s2 end.
  rewrite Hmax.
  destruct (maxPage (comicFaces (pages s))) as [m|] eqn:Hm; [|exact Hf2].
  destruct (m + 1 <=? TOTAL_PAGES); [|exact Hf2].
  apply faces_generateBatch; [|exact Hf2].
  assert (0 <= m); [|lia].
  apply (maxPage_ge (comicFaces (pages s))); [|exact Hm].
  eapply Forall_impl; [exact Hf|]. intros f [Hwf _]. by apply face_wf_index.
Qed.

Lemma reachable_faces s : reachable s -> faces_inv s.
Proof.
  apply (session_invariant faces_inv faces_pages).
  - apply faces_handleChoice.
  - intros a c Ha s0 [Hsync Hf]. split.
    + by apply sync_generateBatch.
    + by apply faces_generateBatch.
  - intros s0 _. split.
    + apply (keeps_finally _ _ _ (sync_generateSinglePage "cover" 0 cover) (sync_guard_delete 0)).
      apply pages_sync_restart.
    + apply (keeps_finally
               (fun s => Forall (fun f => face_wf f /\ face_staged f) (comicFaces (pages s)))
               _ _ (faces_generateSinglePage "cover" 0 cover (or_introl (conj eq_refl (conj eq_refl eq_refl))))).
      * by intros s1 Hs1.
      * apply faces_cover.
  - intros s0 _. split; [apply pages_sync_clear | constructor].
  - intros g. split; [|constructor].
    split; [by eexists|]. split; [done|]. apply NoDup_nil_2.
Qed.

Lemma reachable_history s : reachable s -> history s = comicFaces (pages s).
Proof.
  intros Hr. destruct (reachable_faces s Hr) as [(_ & Heq & _) _]. exact Heq.
Qed.

(** Property X21.  In every state a session reaches, a face of the page
    collection or of the history is the cover, with the id [cover] and the
    index 0, or the page of an index [n] from 1 to [TOTAL_PAGES], with the id
    [page-n], that index, and the type of the back cover exactly when [n] is
    [BACK_COVER_PAGE]: no page beyond the last one is ever created, and the
    id, the index and the type of a face never disagree. *)
Theorem X21_page_identity s f :
  reachable s ->
  f ∈ comicFaces (pages s) \/ f ∈ history s ->
  (id f = "cover" /\ type f = cover /\ pageIndex f = Some 0) \/
  (exists n, 1 <= n <= TOTAL_PAGES /\
     id f = "page-" +:+ pretty n /\ pageIndex f = Some n /\
     type f = if n =? BACK_COVER_PAGE then back_cover else story).
Proof.
  intros Hr Hin. rewrite (reachable_history s Hr) in Hin.
  assert (Hf : f ∈ comicFaces (pages s)) by tauto. clear Hin.
  destruct (reachable_faces s Hr) as [_ Hall].
  rewrite Forall_forall in Hall.
  destruct (Hall f Hf) as [Hwf _].
  destruct Hwf as [Hc|(n & Hn & Hi & Ht & Hp)]; [by left|].
  right. exists n. done.
Qed.

(** Property X22.  In every state a session reaches, only a story page of a
    decision index offers choices: a face whose choices are anything but the
    empty list is a story page, its index is one of [DECISION_PAGES], its
    decision flag is set, and its choices are those of the beat attached to
    it. *)
Theorem X22_choices_only_on_decision_pages s f :
  reachable s ->
  f ∈ comicFaces (pages s) ->
  face_choices f <> JArr [] ->
  type f = story /\
  isDecisionPage f = Some true /\
  (exists n, pageIndex f = Some n /\ n ∈ DECISION_PAGES) /\
  (exists b, narrative f = Some b /\ choices b = face_choices f).
Proof.
  intros Hr Hf Hne.
  destruct (reachable_faces s Hr) as [_ Hall].
  rewrite Forall_forall in Hall.
  destruct (Hall f Hf) as [Hwf (_ & _ & Hn & Hb & Hch)].
  destruct (Hch Hne) as [Ht Hd].
  destruct (narrative f) as [b|] eqn:Hnar; [|by destruct (Hn eq_refl)].
  destruct (Hb b eq_refl) as [Hcb Hflag].
  split; [exact Ht|].
  split; [by rewrite Hflag, bool_decide_eq_true_2|].
  split; [|by exists b].
  unfold pageIndexOr0 in Hd.
  destruct Hwf as [(_ & _ & Hp)|(n & _ & _ & _ & Hp)]; rewrite Hp in Hd; by eexists.
Qed.


(** ** The softened scene *)

Lemma first_match_some alts s w :
  Str.first_match alts s = Some w -> w ∈ alts /\ Str.prefix_ci w s = true.
Proof.
  induction alts as [|a alts IH]; simpl; [discriminate|].
  destruct (Str.prefix_ci a s) eqn:Ha.
  - intros [= <-]. split; [left | exact Ha].
  - intros H. destruct (IH H) as [Hin Hw]. split; [by right | exact Hw].
Qed.

Lemma first_match_none alts s w :
  Str.first_match alts s = None -> w ∈ alts -> Str.prefix_ci w s = false.
Proof.
  induction alts as [|a alts IH]; simpl; intros Hnone Hin; [by apply elem_of_nil in Hin|].
  destruct (Str.prefix_ci a s) eqn:Ha; [discriminate|].
  apply elem_of_cons in Hin as [->|Hin]; [exact Ha | by apply IH].
Qed.

Lemma prefix_ci_app_short y rep t :
  (String.length y <= String.length rep)%nat ->
  Str.prefix_ci y (rep +:+ t) = Str.prefix_ci y rep.
Proof.
  revert rep. induction y as [|a y IH]; intros rep Hlen; [done|].
  destruct rep as [|b rep]; [simpl in Hlen; lia|].
  rewrite append_cons. cbn [Str.prefix_ci].
  destruct (Ascii.eqb (Str.lower a) (Str.lower b)); [|done].
  apply IH. simpl in Hlen. lia.
Qed.

(** What a word matches in the output it matches in the input, as long as no
    end of the word can run on into a replacement. *)
Lemma match_in_output alts rep x s :
  no_bridge rep x = true ->
  Str.prefix_ci x (Str.replaceWords_from O alts rep s) = true ->
  Str.prefix_ci x s = true.
Proof.
  revert x. induction s as [|c s IH]; intros x Hx Hm; [exact Hm|].
  destruct x as [|a x]; [done|].
  cbn [no_bridge] in Hx. apply andb_true_iff in Hx as [Hx Hx'].
  apply andb_true_iff in Hx as [Hpre Hlen].
  apply negb_true_iff in Hpre. apply Nat.leb_le in Hlen.
  cbn [Str.replaceWords_from] in Hm.
  destruct (Str.first_match alts (String c s)) as [w|].
  - rewrite prefix_ci_app_short in Hm by exact Hlen. congruence.
  - cbn [Str.prefix_ci] in *.
    destruct (Ascii.eqb (Str.lower a) (Str.lower c)); [|done]. by apply IH.
Qed.

Lemma replacement_clear t :
  Str.first_match violentWords ("confrontation" +:+ t) = None.
Proof. vm_compute. reflexivity. Qed.

Lemma replacement_tail_clear k t :
  Str.first_match violentWords (Str.drop (S k) ("confrontation" +:+ t)) =
  Str.first_match violentWords (Str.drop (k - 12) t) \/
  Str.first_match violentWords (Str.drop (S k) ("confrontation" +:+ t)) = None.
Proof.
  do 12 (destruct k as [|k]; [right; vm_compute; reflexivity|]).
  left. rewrite !append_cons, append_nil_l. cbn [Str.drop].
  by replace (S (S (S (S (S (S (S (S (S (S (S (S k))))))))))) - 12)%nat with k by lia.
Qed.

Lemma words_do_not_bridge :
  forallb (no_bridge "confrontation") violentWords = true.
Proof. vm_compute. reflexivity. Qed.

Lemma softened_head_clear s :
  Str.first_match violentWords (Str.replaceWords_from O violentWords "confrontation" s) = None.
Proof.
  destruct s as [|c s]; [done|]. cbn [Str.replaceWords_from].
  destruct (Str.first_match violentWords (String c s)) as [w|] eqn:Hin;
    [apply replacement_clear|].
  destruct (Str.first_match violentWords
              (String c (Str.replaceWords_from O violentWords "confrontation" s)))
    as [w|] eqn:Hout; [|done].
  apply first_match_some in Hout as [Hw Hout].
  assert (Hsafe : no_bridge "confrontation" w = true).
  { assert (Hall := words_do_not_bridge). rewrite forallb_forall in Hall.
    by apply Hall, list_elem_of_In. }
  assert (Hm : Str.prefix_ci w (String c s) = true).
  { apply (match_in_output violentWords "confrontation"); [exact Hsafe|].
    cbn [Str.replaceWords_from]. by rewrite Hin. }
  by rewrite (first_match_none _ _ _ Hin Hw) in Hm.
Qed.

Lemma softened_clear skip s k :
  Str.first_match violentWords
    (Str.drop k (Str.replaceWords_from skip violentWords "confrontation" s)) = None.
Proof.
  revert skip k. induction s as [|c s IH]; intros skip k; [by destruct k|].
  destruct skip as [|skip]; [|apply IH].
  destruct k as [|k]; [apply softened_head_clear|].
  cbn [Str.replaceWords_from].
  destruct (Str.first_match violentWords (String c s)) as [w|] eqn:Hin; [|apply IH].
  destruct (replacement_tail_clear k
              (Str.replaceWords_from (String.length w - 1) violentWords "confrontation" s))
    as [->| ->]; [apply IH | done].
Qed.

Lemma soften_clear_scene s :
  (forall k, Str.first_match violentWords (Str.drop k s) = None) ->
  Str.replaceWords_from O violentWords "confrontation" s = s.
Proof.
  induction s as [|c s IH]; intros Hs; [done|]. cbn [Str.replaceWords_from].
  assert (H0 := Hs O). cbn [Str.drop] in H0. rewrite H0. f_equal. apply IH.
  intros k. apply (Hs (S k)).
Qed.

(** Property X20.  At no position of a softened scene does one of the violent
    words start, in any letter case: the single pass of the substitution
    leaves none behind, also none made up of what stands around a replaced
    word.  So softening a softened scene changes nothing. *)
Theorem X20_softenScene_leaves_no_word scene :
  (forall k, Str.first_match violentWords (Str.drop k (softenScene scene)) = None) /\
  softenScene (softenScene scene) = softenScene scene.
Proof.
  assert (H : forall k,
            Str.first_match violentWords (Str.drop k (softenScene scene)) = None)
    by (intros k; apply softened_clear).
  split; [exact H|]. by apply soften_clear_scene.
Qed.

(** ** The model calls of the pipeline, counted *)

Lemma cl_weaken {A} a b (m : M A) : (a <= b)%nat -> calls_le a m -> calls_le b m.
Proof. intros Hab Hm s. specialize (Hm s). lia. Qed.

Lemma cl_quiet {A} (m : M A) : (forall s, events_of (m s) = []) -> calls_le 0 m.
Proof. intros H s. by rewrite H. Qed.

Lemma cl_ret {A} (a : A) : calls_le 0 (mret a).
Proof. by apply cl_quiet. Qed.

Lemma cl_throw {A} e : calls_le 0 (throw (A:=A) e).
Proof. by apply cl_quiet. Qed.

Lemma cl_gets {A} (f : AppState -> A) : calls_le 0 (gets f).
Proof. by apply cl_quiet. Qed.

Lemma cl_modify f : calls_le 0 (modify f).
Proof. by apply cl_quiet. Qed.

Lemma cl_tick : calls_le 0 tick.
Proof. by apply cl_quiet. Qed.

Lemma cl_lift {A} (r : Result A) : calls_le 0 (lift r).
Proof. destruct r; by apply cl_quiet. Qed.

Lemma cl_emit e : is_call e = false -> calls_le 0 (emit e).
Proof. intros He s. cbn. by rewrite He. Qed.

Lemma cl_bind {A B} a b (m : M A) (k : A -> M B) :
  calls_le a m -> (forall x, calls_le b (k x)) -> calls_le (a + b) (m ≫= k).
Proof.
  intros Hm Hk s. specialize (Hm s). unfold events_of in *. msimpl.
  destruct (m s) as [[[x|e] s1] ev1]; cbn [fst snd] in *; [|lia].
  specialize (Hk x s1). unfold events_of in Hk.
  destruct (k x s1) as [[r s2] ev2]. cbn [fst snd] in *. rewrite calls_app, length_app. lia.
Qed.

Lemma cl_bind0 {A B} n (m : M A) (k : A -> M B) :
  calls_le 0 m -> (forall x, calls_le n (k x)) -> calls_le n (m ≫= k).
Proof. intros Hm Hk. exact (cl_bind 0 n m k Hm Hk). Qed.

Lemma cl_try_catch {A} a b (m : M A) h :
  calls_le a m -> (forall e, calls_le b (h e)) -> calls_le (a + b) (try_catch m h).
Proof.
  intros Hm Hh s. specialize (Hm s). unfold events_of in *. msimpl.
  destruct (m s) as [[[x|e] s1] ev1]; cbn [fst snd] in *; [lia|].
  specialize (Hh e s1). unfold events_of in Hh.
  destruct (h e s1) as [[r s2] ev2]. cbn [fst snd] in *. rewrite calls_app, length_app. lia.
Qed.

Lemma cl_finally {A} a b (m : M A) f :
  calls_le a m -> calls_le b f -> calls_le (a + b) (finally m f).
Proof.
  intros Hm Hf s. specialize (Hm s). unfold events_of in *. msimpl.
  destruct (m s) as [[r s1] ev1]. cbn [fst snd] in *.
  specialize (Hf s1). unfold events_of in Hf.
  destruct (f s1) as [[r2 s2] ev2]. cbn [fst snd] in *. rewrite calls_app, length_app. lia.
Qed.

Lemma cl_for_each {A} k (l : list A) body :
  (forall x, calls_le k (body x)) -> calls_le (length l * k) (for_each l body).
Proof.
  intros Hb. induction l as [|x l IH]; [apply (cl_ret tt)|].
  exact (cl_bind k (length l * k) (body x) (fun _ => for_each l body) (Hb x) (fun _ => IH)).
Qed.

Lemma cl_addLog msg : calls_le 0 (addLog msg).
Proof. intros s. rewrite addLog_run. cbn. lia. Qed.

Lemma cl_handleAPIError e : calls_le 0 (handleAPIError e).
Proof. intros s. rewrite handleAPIError_run. cbn. lia. Qed.

Lemma cl_withTimeout p ms : calls_le 0 (withTimeout p ms).
Proof. unfold withTimeout. destruct (p.2); by apply cl_quiet. Qed.

Lemma cl_generateContent tag q : calls_le 1 (generateContent tag q).
Proof. intros s. rewrite generateContent_run. cbn. lia. Qed.

Lemma cl_updateFaceState i u : calls_le 0 (updateFaceState i u).
Proof. intros s. rewrite updateFaceState_run. cbn. lia. Qed.

(** The steps that make no call. *)
Ltac cl0 :=
  repeat first
    [ apply cl_ret | apply cl_throw | apply cl_gets | apply cl_modify | apply cl_tick
    | apply cl_lift | apply cl_addLog | apply cl_handleAPIError | apply cl_withTimeout
    | apply cl_updateFaceState
    | apply cl_emit; reflexivity
    | apply (cl_bind 0 0); [|intros ?]
    | apply (cl_try_catch 0 0); [|intros ?]
    | apply (cl_finally 0 0)
    | match goal with
      | |- calls_le 0 (if ?b then _ else _) => destruct b
      | |- calls_le 0 (match ?x with Some _ => _ | None => _ end) => destruct x
      end ].

(** A head that makes no call, in front of the rest. *)
Ltac cl_skip := apply cl_bind0; [solve [cl0] | intros ?].

Lemma cl_generateSummary hist : calls_le 1 (generateSummary hist).
Proof.
  unfold generateSummary. cl_skip.
  destruct (negb _); [apply (cl_weaken 0); [lia | cl0]|].
  apply (cl_try_catch 1 0); [|intros e; cl0].
  apply (cl_bind 1 0); [apply cl_generateContent | intros p; cl0].
Qed.

Lemma cl_relevantHistory h n : calls_le 0 (relevantHistory h n).
Proof. by apply cl_quiet. Qed.

Lemma cl_generateBeat h r n d : calls_le 1 (generateBeat h r n d).
Proof.
  unfold generateBeat. cl_skip.
  destruct (negb _); [apply (cl_weaken 0); [lia | cl0]|].
  do 3 cl_skip.
  apply cl_bind0; [apply cl_relevantHistory | intros ?]. cl_skip.
  apply cl_bind0; [unfold coStarInstruction; cl0 | intros ?].
  apply (cl_try_catch 1 0).
  - unfold requestBeat.
    apply (cl_bind 1 0); [apply cl_generateContent | intros p; cl0].
  - intros e. unfold beatFailure. cl0.
Qed.

Lemma cl_generatePersona description : calls_le 1 (generatePersona description).
Proof.
  unfold generatePersona. do 2 cl_skip.
  apply (cl_try_catch 1 0).
  - apply (cl_bind 1 0); [apply cl_generateContent | intros p].
    apply (cl_bind 0 0); [apply cl_withTimeout | intros res].
    destruct (inline_payload _) as [[i d]|]; cl0.
  - intros e. unfold personaFailure. cl0.
Qed.

Lemma cl_executeGen beat t useRefs level : calls_le 1 (executeGen beat t useRefs level).
Proof.
  unfold executeGen. do 2 cl_skip.
  apply (cl_bind 1 0); [apply cl_generateContent | intros p; cl0].
Qed.

Lemma cl_attempt beat t level : calls_le 1 (attempt beat t level).
Proof.
  unfold attempt. apply cl_bind0; [unfold heroHasImage; cl0 | intros useRefs].
  apply (cl_bind 1 0); [apply cl_executeGen | intros res; cl0].
Qed.

Lemma cl_ladder beat t : calls_le 4 (ladder beat t).
Proof.
  unfold ladder.
  apply (cl_try_catch 1 3); [apply cl_attempt | intros e].
  destruct (isSafetyBlock e); [|apply (cl_weaken 0); [lia | cl0]].
  do 2 cl_skip.
  apply (cl_try_catch 1 2); [apply cl_attempt | intros e2].
  destruct (isSafetyBlock e2); [|apply (cl_weaken 0); [lia | cl0]].
  do 2 cl_skip.
  apply (cl_try_catch 1 1); [apply cl_attempt | intros e3].
  destruct (isSafetyBlock e3); [|apply (cl_weaken 0); [lia | cl0]].
  do 2 cl_skip. apply cl_executeGen.
Qed.

Lemma cl_generateImage beat t n : calls_le 4 (generateImage beat t n).
Proof.
  unfold generateImage. cl_skip.
  apply (cl_try_catch 4 0).
  - apply (cl_bind 4 0); [apply cl_ladder | intros res; cl0].
  - intros e. unfold imageFailure. cl0.
Qed.

Lemma cl_backfill_story beat : calls_le 1 (backfill_persona beat story).
Proof.
  unfold backfill_persona. cl_skip.
  destruct (_ && _ && _); [|apply (cl_weaken 0); [lia | cl0]].
  apply (cl_try_catch 1 0); [|intros e; cl0].
  apply (cl_bind 1 0); [apply cl_generatePersona | intros p; cl0].
Qed.

Lemma cl_backfill_cover beat t : t <> story -> calls_le 0 (backfill_persona beat t).
Proof.
  intros Ht. unfold backfill_persona. cl_skip.
  replace (is_story t) with false by (by destruct t).
  rewrite andb_false_r. cl0.
Qed.

(** A page costs at most six model calls, a cover or a back cover at most
    four. *)
Lemma cl_generateSinglePage fid n t :
  calls_le (if is_story t then 6 else 4) (generateSinglePage fid n t).
Proof.
  unfold generateSinglePage.
  destruct t; cbn [is_story].
  - apply cl_bind0; [unfold page_beat; cl0 | intros beat0].
    apply cl_bind0; [by apply cl_backfill_cover | intros beat]. cl_skip.
    apply (cl_bind 4 0); [apply cl_generateImage | intros url; cl0].
  - apply (cl_bind 1 5).
    { unfold page_beat. apply cl_bind0; [cl0 | intros h]. apply cl_generateBeat. }
    intros beat0.
    apply (cl_bind 1 4); [apply cl_backfill_story | intros beat]. cl_skip.
    apply (cl_bind 4 0); [apply cl_generateImage | intros url; cl0].
  - apply cl_bind0; [unfold page_beat; cl0 | intros beat0].
    apply cl_bind0; [by apply cl_backfill_cover | intros beat]. cl_skip.
    apply (cl_bind 4 0); [apply cl_generateImage | intros url; cl0].
Qed.

Lemma cl_runBatch toGen : calls_le (length toGen * 6) (runBatch toGen).
Proof.
  unfold runBatch.
  apply (cl_weaken (length toGen * 6 + 0 + length toGen * 0)); [lia|].
  apply cl_finally; [apply cl_try_catch|].
  - apply cl_for_each. intros p. unfold batchStep.
    apply (cl_bind 6 0); [|intros _; cl0; unfold guard_delete; cl0].
    eapply cl_weaken; [|apply cl_generateSinglePage]. destruct (page_type p); cbn; lia.
  - intros e. cl0.
  - apply cl_for_each. intros p. unfold guard_delete. cl0.
Qed.

Lemma pagesToGen_length guard startPage count :
  (length (pagesToGen guard startPage count) <= Z.to_nat count)%nat.
Proof.
  unfold pagesToGen. rewrite <- (length_seqZ startPage count). apply filter_length_le.
Qed.

(** A batch costs at most six model calls for each page it schedules. *)
Lemma generateBatch_calls startPage count s :
  (length (calls (events_of (generateBatch startPage count s))) <=
   6 * length (pagesToGen (generatingPages (pages s)) startPage count))%nat.
Proof.
  unfold generateBatch, events_of. msimpl.
  destruct (pagesToGen (generatingPages (pages s)) startPage count) as [|n l]; [cbn; lia|].
  destruct (scheduleBatch_run (n :: l) s) as (s1 & -> & _). cbn [fst snd].
  assert (H := cl_runBatch (n :: l) s1). unfold events_of in H.
  destruct (runBatch (n :: l) s1) as [[r s2] ev2]. cbn [fst snd app length] in *. lia.
Qed.

Lemma cl_generateBatch startPage count :
  calls_le (6 * Z.to_nat count) (generateBatch startPage count).
Proof.
  intros s. assert (H := generateBatch_calls startPage count s).
  assert (H2 := pagesToGen_length (generatingPages (pages s)) startPage count). lia.
Qed.

Lemma cl_startIssueGeneration isNewIssue :
  calls_le (22 + 6 * Z.to_nat INITIAL_PAGES) (startIssueGeneration isNewIssue).
Proof.
  unfold startIssueGeneration. cl_skip.
  apply cl_bind0; [destruct isNewIssue; cbn [negb]; cl0 | intros _].
  do 3 cl_skip.
  apply (cl_weaken (4 + (6 * Z.to_nat INITIAL_PAGES + 18))); [lia|].
  apply cl_bind.
  { apply (cl_finally 4 0); [apply (cl_generateSinglePage "cover" 0 cover)|].
    unfold guard_delete. cl0. }
  intros _. do 3 cl_skip. unfold afterTransition. do 4 cl_skip.
  apply cl_bind; [apply cl_generateBatch | intros _]. do 2 cl_skip.
  apply (cl_generateBatch 3 3).
Qed.

Lemma cl_launchStory : calls_le (22 + 6 * Z.to_nat INITIAL_PAGES) launchStory.
Proof.
  unfold launchStory. do 2 cl_skip.
  destruct (validateApiKey _ _) as [hasKey dialog']. cl_skip.
  destruct (negb hasKey); [apply (cl_weaken 0); [lia | cl0]|]. cl_skip.
  destruct (negb _); [apply (cl_weaken 0); [lia | cl0]|].
  destruct (_ && _); [apply (cl_weaken 0); [lia | cl0]|].
  do 3 cl_skip.
  destruct (pick _ _) as [tone|]; [|apply (cl_weaken 0); [lia | cl0]].
  do 4 cl_skip. apply cl_startIssueGeneration.
Qed.

Lemma cl_handleNextIssue finale :
  calls_le (23 + 6 * Z.to_nat INITIAL_PAGES) (handleNextIssue finale).
Proof.
  unfold handleNextIssue.
  apply (cl_bind 1 (22 + 6 * Z.to_nat INITIAL_PAGES)); [|intros _; apply cl_startIssueGeneration].
  unfold rollover. cl_skip.
  apply (cl_bind 1 0); [apply cl_generateSummary | intros summary; cl0].
Qed.

Lemma cl_handleChoice n choice : calls_le (6 * Z.to_nat BATCH_SIZE) (handleChoice n choice).
Proof.
  unfold handleChoice. do 3 cl_skip.
  destruct (maxPage _) as [m|]; [|apply (cl_weaken 0); [lia | cl0]].
  destruct (_ <=? _); [apply cl_generateBatch | apply (cl_weaken 0); [lia | cl0]].
Qed.

(** Property X24.  The model calls of the pipeline are bounded.  One page
    takes at most six calls (a beat, a persona and four image attempts), a
    cover or a back cover at most four; a batch takes at most six calls for
    each page it schedules, and it schedules at most [count] pages; a launch
    takes at most 22 calls and six more for each of the [INITIAL_PAGES]; the
    next issue takes one more, for the summary; a choice takes at most six
    calls for each page of a batch; and the uploads, the settings and the
    reset make no call. *)
Theorem X24_model_calls_bounded :
  (forall fid n t s,
     (length (calls (events_of (generateSinglePage fid n t s))) <=
      if is_story t then 6 else 4)%nat) /\
  (forall startPage count s,
     let toGen := pagesToGen (generatingPages (pages s)) startPage count in
     (length (calls (events_of (generateBatch startPage count s))) <= 6 * length toGen)%nat /\
     (length toGen <= Z.to_nat count)%nat) /\
  (forall c s,
     (length (calls (events_of (run_command c s))) <=
      match c with
      | CmdLaunch => 22 + 6 * Z.to_nat INITIAL_PAGES
      | CmdNextIssue _ => 23 + 6 * Z.to_nat INITIAL_PAGES
      | CmdChoice _ _ => 6 * Z.to_nat BATCH_SIZE
      | CmdHeroUpload _ | CmdFriendUpload _ | CmdConfigure _ _ _ _ _ | CmdReset => 0
      end)%nat).
Proof.
  split; [intros fid n t; apply cl_generateSinglePage|].
  split.
  { intros startPage count s. cbv zeta.
    split; [apply generateBatch_calls | apply pagesToGen_length]. }
  intros [p|p|genre language premise rich strength| |n choice|finale|]; cbn [run_command].
  - cl0.
  - cl0.
  - cl0.
  - apply cl_launchStory.
  - apply cl_handleChoice.
  - apply cl_handleNextIssue.
  - unfold resetApp. cl0.
Qed.

End Pipeline.

(** ** Concrete runs *)

(** The scenario of the specification: no candidate at levels 0, 1 and 2, an
    image at level 3; the page gets the real image after four attempts. *)
Example ladder_reaches_level_3 :
  let api := fun n : nat => if Nat.ltb n 3 then Resolves empty_response
                            else Resolves (image_response "QUJD") in
  let run := generateImage api demo_time demo_canvas demo_languages
               (demo_beat "A rooftop chase") story 1 (initialState demo_settings) in
  result_of run = Ok "data:image/png;base64,QUJD" /\
  (image_attempts (events_of run)).*1 = [0; 1; 2; 3] /\
  List.filter (fun e => match e with EvLog _ => true | _ => false end) (events_of run) =
    [EvLog "Rendering visual assets for Page 1...";
     EvLog "Scene intense. Softening visuals...";
     EvLog "Retrying with stronger styling...";
     EvLog "Visual link unstable. Using textual reconstruction...";
     EvLog "Page 1 successfully inked."].
Proof. vm_compute. repeat split. Qed.

(** Against claim C2 as stated: a response that stops with the finish reason
    RECITATION raises an error at step (3) of the inspection that is no
    safety block, and no further level is attempted; with the finish reason
    SAFETY the error is a safety block, and still no further level is
    attempted. *)
Lemma C2_counterexample :
  let run reason :=
    generateImage (fun _ => Resolves (stopped_response reason)) demo_time demo_canvas
      demo_languages (demo_beat "A rooftop chase") story 1 (initialState demo_settings) in
  inspect (stopped_response "RECITATION") = Throw (Error_ "Generation stopped: RECITATION") /\
  isSafetyBlock (Error_ "Generation stopped: RECITATION") = false /\
  (image_attempts (events_of (run "RECITATION"))).*1 = [0] /\
  result_of (run "RECITATION") = Ok (demo_canvas "IMAGE GEN FAILED") /\
  isSafetyBlock (Error_ "Generation stopped: SAFETY") = true /\
  (image_attempts (events_of (run "SAFETY"))).*1 = [0] /\
  result_of (run "SAFETY") = Ok (demo_canvas "CONTENT FILTERED").
Proof. vm_compute. repeat split. Qed.

(** Against claim C3 as stated: a rejection with the message [403 Forbidden]
    is an auth error for [generateImage], which returns the auth placeholder
    and records the error, but the credential dialog stays closed. *)
Lemma C3_counterexample :
  let run :=
    generateImage (fun _ => Rejects "403 Forbidden") demo_time demo_canvas
      demo_languages (demo_beat "A rooftop chase") story 1 (initialState demo_settings) in
  isAuthMessage "403 Forbidden" = true /\
  result_of run = Ok (demo_canvas "AUTH ERROR") /\
  apiStatus (ui (state_of run)) = error /\
  showApiKeyDialog (ui (state_of run)) = false.
Proof. vm_compute. repeat split. Qed.

(** A decision page whose response names an unknown focus and a single
    choice: the focus becomes hero and the two default choices are put in. *)
Example beat_is_repaired :
  result_of
    (generateBeat (fun _ => Resolves (text_response one_choice_text)) demo_random demo_time
       demo_JSON_parse demo_coerce demo_max_pages demo_languages O false 3 true
       (initialState demo_settings)) =
  Ok {| caption := None; dialogue := None; scene := "HERO on a roof";
        focus_char := "hero"; choices := defaultChoices |}.
Proof. vm_compute. reflexivity. Qed.



(** The context of page 3 over a history that holds pages 2, 1, 3 (no beat
    yet) and 5: pages 1 and 2, in this order. *)
Example context_of_page_3 :
  id <$> relevant demo_history 3 = ["page-1"; "page-2"].
Proof. vm_compute. reflexivity. Qed.


(** Against claim C8 as stated: at level 1 the scene text is already
    rewritten, so the prompt no longer holds the original scene. *)
Lemma C8_counterexample :
  let prompt :=
    buildPrompt demo_languages demo_settings
      {| issueNumber := 1; isFinale := false; previousSummary := "" |}
      (demo_beat "They fight on the roof") story 1 in
  Str.includes prompt "They fight on the roof" = false /\
  Str.includes prompt "They confrontation on the roof" = true.
Proof. vm_compute. split; reflexivity. Qed.

(** A custom genre with a premise of blanks and a no-break space. *)
Example launch_rejected_on_blank_premise :
  let s := with_settings
             (configure "Custom" "en-US" ("  " +:+ Str.of_codes [194; 160]%nat) true 2)
             (initialState demo_settings) in
  events_of
    (launchStory (fun _ => Pending) demo_random demo_time (fun _ d => (true, d)) demo_canvas
       demo_JSON_parse demo_coerce demo_max_pages 11 11 2 [3] ["ACTION-HEAVY"]
       demo_languages s) = [EvAlert "Please enter a custom story premise."].
Proof. vm_compute. reflexivity. Qed.

Lemma C9_witness :
  let s := with_settings (set_hero None) (initialState demo_settings) in
  let run :=
    launchStory (fun _ => Pending) demo_random demo_time (fun _ d => (true, d)) demo_canvas
      demo_JSON_parse demo_coerce demo_max_pages 11 11 2 [3] ["ACTION-HEAVY"]
      demo_languages s in
  result_of run = Ok tt /\ calls (events_of run) = [] /\ pages (state_of run) = pages s.
Proof.
  cbv zeta.
  destruct (C9_launch_guard (fun _ => Pending) demo_random demo_time (fun _ d => (true, d))
              demo_canvas demo_JSON_parse demo_coerce demo_max_pages 11 11 2 [3]
              ["ACTION-HEAVY"] demo_languages
              (with_settings (set_hero None) (initialState demo_settings)))
    as (H1 & H2 & _ & _ & _ & H3).
  - left. reflexivity.
  - split; [exact H1|]. split; [exact H2 | exact H3].
Defined.

(** The scenario of the specification: a batch of 3 pages from page 4 while
    page 5 is in flight schedules pages 4 and 6, and generates them in this
    order, each with its two commits and its wait. *)
Example batch_skips_page_in_flight :
  let s := with_pages (set_generatingPages {[5]}) (initialState demo_settings) in
  let run :=
    generateBatch (fun _ => Pending) demo_random demo_time demo_canvas demo_JSON_parse
      demo_coerce demo_max_pages 11 11 [3] demo_languages 4 3 s in
  pagesToGen 11 {[5]} 4 3 = [4; 6] /\
  List.map (fun e => match e with
                     | EvCommit i _ => i
                     | EvDelay _ => "wait"
                     | _ => ""
                     end) (sched_events (events_of run)) =
    ["page-4"; "page-4"; "wait"; "page-6"; "page-6"; "wait"].
Proof. vm_compute. split; reflexivity. Qed.

(** Against claim C5 as stated: after a launch the cover of the page
    collection carries its stub beat, whose scene is the empty string. *)
Lemma C5_counterexample :
  let s :=
    state_of
      (run_command (fun _ => Pending) demo_random demo_time (fun _ d => (true, d)) demo_canvas
         demo_JSON_parse demo_coerce demo_max_pages 11 11 2 6 [3] ["ACTION-HEAVY"]
         demo_languages CmdLaunch (initialState demo_settings)) in
  exists f b,
    comicFaces (pages s) !! O = Some f /\
    id f = "cover" /\ type f = cover /\ narrative f = Some b /\ scene b = "".
Proof. vm_compute. do 2 eexists. repeat split. Qed.

Lemma C5_witness :
  let s :=
    state_of
      (run_command (fun _ => Pending) demo_random demo_time (fun _ d => (true, d)) demo_canvas
         demo_JSON_parse demo_coerce demo_max_pages 11 11 2 6 [3] ["ACTION-HEAVY"]
         demo_languages CmdLaunch (initialState demo_settings)) in
  let f := default coverFace (comicFaces (pages s) !! 1%nat) in
  let b := default (stub_beat "") (narrative f) in
  id f = "page-1" /\ type f = story /\ scene b <> "".
Proof.
  cbv zeta.
  set (s := state_of
      (run_command (fun _ => Pending) demo_random demo_time (fun _ d => (true, d)) demo_canvas
         demo_JSON_parse demo_coerce demo_max_pages 11 11 2 6 [3] ["ACTION-HEAVY"]
         demo_languages CmdLaunch (initialState demo_settings))).
  set (f := default coverFace (comicFaces (pages s) !! 1%nat)).
  set (b := default (stub_beat "") (narrative f)).
  assert (Hr : reachable (fun _ => Pending) demo_random demo_time (fun _ d => (true, d))
                 demo_canvas demo_JSON_parse demo_coerce demo_max_pages 11 11 2 6 [3]
                 ["ACTION-HEAVY"] demo_languages s).
  { apply reach_step; [apply reach_init|]. intros n ch H. discriminate H. }
  assert (Hin : f ∈ comicFaces (pages s) \/ f ∈ history s).
  { left. apply (list_elem_of_lookup_2 _ 1%nat). vm_compute. reflexivity. }
  assert (Hb : narrative f = Some b) by (vm_compute; reflexivity).
  assert (Ht : type f = story) by (vm_compute; reflexivity).
  destruct (C5_page_scenes _ _ _ _ _ _ _ _ _ _ _ _ _ _ _ s f b Hr Hin Hb) as [_ Hne].
  split; [vm_compute; reflexivity|]. split; [exact Ht|].
  apply Hne. rewrite Ht. discriminate.
Defined.

(** ** Concrete runs of the further properties *)

Lemma X1_witness :
  let s :=
    state_of
      (run_command (fun _ => Pending) demo_random demo_time (fun _ d => (true, d)) demo_canvas
         demo_JSON_parse demo_coerce demo_max_pages 11 11 2 6 [3] ["ACTION-HEAVY"]
         demo_languages CmdLaunch (initialState demo_settings)) in
  history s = comicFaces (pages s) /\ NoDup (List.map id (comicFaces (pages s))).
Proof.
  cbv zeta.
  apply (X1_collection_matches_history (fun _ => Pending) demo_random demo_time
           (fun _ d => (true, d)) demo_canvas demo_JSON_parse demo_coerce demo_max_pages
           11 11 2 6 [3] ["ACTION-HEAVY"] demo_languages).
  apply reach_step; [apply reach_init|]. intros n ch H. discriminate H.
Defined.


Lemma X4_witness :
  let run :=
    generateBatch (fun _ => Pending) demo_random demo_time demo_canvas demo_JSON_parse
      demo_coerce demo_max_pages 11 11 [3] demo_languages 1 2 (initialState demo_settings) in
  result_of run = Ok tt /\ Forall finished (comicFaces (pages (state_of run))).
Proof.
  cbv zeta.
  assert (Hh : hero (settings (initialState demo_settings)) <> None)
    by (simpl; discriminate).
  assert (Hf : Forall finished (comicFaces (pages (initialState demo_settings))))
    by (simpl; constructor).
  pose proof (X4_generateBatch_finishes_pages (fun _ => Pending) demo_random demo_time
                demo_canvas demo_JSON_parse demo_coerce demo_max_pages 11 11 [3]
                demo_languages 1 2 (initialState demo_settings) Hh Hf) as H.
  cbv zeta in H. destruct H as (H1 & H2 & _). split; [exact H1 | exact H2].
Defined.


Lemma X10_witness :
  let s :=
    state_of
      (run_command (fun _ => Pending) demo_random demo_time (fun _ d => (true, d)) demo_canvas
         demo_JSON_parse demo_coerce demo_max_pages 11 11 2 6 [3] ["ACTION-HEAVY"]
         demo_languages CmdLaunch (initialState demo_settings)) in
  let run :=
    handleChoice (fun _ => Pending) demo_random demo_time demo_canvas demo_JSON_parse
      demo_coerce demo_max_pages 11 11 6 [3] demo_languages 3 "Stay" s in
  page_id 3 ∈ List.map id (comicFaces (pages (state_of run))).
Proof.
  cbv zeta.
  set (s := state_of
      (run_command (fun _ => Pending) demo_random demo_time (fun _ d => (true, d)) demo_canvas
         demo_JSON_parse demo_coerce demo_max_pages 11 11 2 6 [3] ["ACTION-HEAVY"]
         demo_languages CmdLaunch (initialState demo_settings))).
  assert (Hr : reachable (fun _ => Pending) demo_random demo_time (fun _ d => (true, d))
                 demo_canvas demo_JSON_parse demo_coerce demo_max_pages 11 11 2 6 [3]
                 ["ACTION-HEAVY"] demo_languages s).
  { apply reach_step; [apply reach_init|]. intros n ch H. discriminate H. }
  assert (Hin : page_id 3 ∈ List.map id (comicFaces (pages s))).
  { apply (list_elem_of_lookup_2 _ 3%nat). vm_compute. reflexivity. }
  pose proof (X10_handleChoice_records_choice _ _ _ _ _ _ _ _ _ _ _ _ _ _ _ 3 "Stay" s
                Hr Hin) as H.
  cbv zeta in H. destruct H as (H1 & _). exact H1.
Defined.

Lemma X17_witness :
  let run :=
    launchStory (fun _ => Pending) demo_random demo_time (fun _ d => (true, d)) demo_canvas
      demo_JSON_parse demo_coerce demo_max_pages 11 11 2 [3] [] demo_languages
      (initialState demo_settings) in
  result_of run =
    Throw (TypeError_ "Cannot read properties of undefined (reading 'split')") /\
  calls (events_of run) = [].
Proof.
  cbv zeta.
  pose proof (X17_launch_without_tone (fun _ => Pending) demo_random demo_time
                (fun _ d => (true, d)) demo_canvas demo_JSON_parse demo_coerce
                demo_max_pages 11 11 2 [3] [] demo_languages (initialState demo_settings))
    as H.
  cbv zeta in H. destruct H as (H1 & H2 & _).
  - reflexivity.
  - simpl. discriminate.
  - simpl. discriminate.
  - reflexivity.
  - split; [exact H1 | exact H2].
Defined.



Lemma X21_witness :
  let s :=
    state_of
      (run_command (fun _ => Pending) demo_random demo_time (fun _ d => (true, d)) demo_canvas
         demo_JSON_parse demo_coerce demo_max_pages 11 11 2 6 [3] ["ACTION-HEAVY"]
         demo_languages CmdLaunch (initialState demo_settings)) in
  let f := default coverFace (comicFaces (pages s) !! 2%nat) in
  exists n, 1 <= n <= 11 /\ id f = "page-" +:+ pretty n /\ pageIndex f = Some n.
Proof.
  cbv zeta.
  set (s := state_of
      (run_command (fun _ => Pending) demo_random demo_time (fun _ d => (true, d)) demo_canvas
         demo_JSON_parse demo_coerce demo_max_pages 11 11 2 6 [3] ["ACTION-HEAVY"]
         demo_languages CmdLaunch (initialState demo_settings))).
  set (f := default coverFace (comicFaces (pages s) !! 2%nat)).
  assert (Hr : reachable (fun _ => Pending) demo_random demo_time (fun _ d => (true, d))
                 demo_canvas demo_JSON_parse demo_coerce demo_max_pages 11 11 2 6 [3]
                 ["ACTION-HEAVY"] demo_languages s).
  { apply reach_step; [apply reach_init|]. intros n ch H. discriminate H. }
  assert (Hin : f ∈ comicFaces (pages s) \/ f ∈ history s).
  { left. apply (list_elem_of_lookup_2 _ 2%nat). vm_compute. reflexivity. }
  destruct (X21_page_identity _ _ _ _ _ _ _ _ _ _ _ _ _ _ _ s f Hr Hin)
    as [(Hc & _)|(n & Hn & Hi & Hp & _)].
  - vm_compute in Hc. discriminate Hc.
  - exists n. split; [exact Hn|]. split; [exact Hi | exact Hp].
Defined.

Lemma X22_witness :
  let s :=
    state_of
      (run_command (fun _ => Resolves (text_response one_choice_text)) demo_random demo_time
         (fun _ d => (true, d)) demo_canvas demo_JSON_parse demo_coerce demo_max_pages
         11 11 2 6 [3] ["ACTION-HEAVY"] demo_languages CmdLaunch
         (initialState demo_settings)) in
  let f := default coverFace (comicFaces (pages s) !! 3%nat) in
  id f = "page-3" /\ face_choices f = defaultChoices /\
  type f = story /\ isDecisionPage f = Some true.
Proof.
  cbv zeta.
  set (s := state_of
      (run_command (fun _ => Resolves (text_response one_choice_text)) demo_random demo_time
         (fun _ d => (true, d)) demo_canvas demo_JSON_parse demo_coerce demo_max_pages
         11 11 2 6 [3] ["ACTION-HEAVY"] demo_languages CmdLaunch
         (initialState demo_settings))).
  set (f := default coverFace (comicFaces (pages s) !! 3%nat)).
  assert (Hr : reachable (fun _ => Resolves (text_response one_choice_text)) demo_random
                 demo_time (fun _ d => (true, d)) demo_canvas demo_JSON_parse demo_coerce
                 demo_max_pages 11 11 2 6 [3] ["ACTION-HEAVY"] demo_languages s).
  { apply reach_step; [apply reach_init|]. intros n ch H. discriminate H. }
  assert (Hin : f ∈ comicFaces (pages s)).
  { apply (list_elem_of_lookup_2 _ 3%nat). vm_compute. reflexivity. }
  assert (Hc : face_choices f = defaultChoices) by (vm_compute; reflexivity).
  assert (Hne : face_choices f <> JArr []) by (rewrite Hc; discriminate).
  destruct (X22_choices_only_on_decision_pages _ _ _ _ _ _ _ _ _ _ _ _ _ _ _ s f Hr Hin Hne)
    as (Ht & Hd & _).
  split; [vm_compute; reflexivity|]. split; [exact Hc|]. split; [exact Ht | exact Hd].
Defined.


(** A softened scene, and the softening of words run together. *)
Example soften_examples :
  softenScene "They FIGHT; blood on the Battlefield" =
    "They confrontation; confrontation on the confrontationfield" /\
  softenScene "wwarar" = "wconfrontationar".
Proof. vm_compute. split; reflexivity. Qed.

(** The document of a collection whose page 2 comes before page 1 and whose
    page 3 is still loading. *)
Example pdf_of_three_pages :
  let face n url loading :=
    {| id := page_id n; type := story; narrative := None; face_choices := JArr [];
       imageUrl := url; isLoading := loading; pageIndex := Some n;
       isDecisionPage := None; resolvedChoice := None |} in
  printPages 0 (pagesToPrint [face 2 (Some "B") false; face 1 (Some "A") false;
                              face 3 None true]) =
  [AddImage "A" 480 720; AddPage 480 720; AddImage "B" 480 720].
Proof. vm_compute. reflexivity. Qed.
